(** * A GPT-style character language model (train.py), embedded in Rocq

    The script builds a decoder-only transformer out of torch modules, trains
    it and samples from it.  This development embeds the modules the script
    defines ([Head], [MultiHeadAttention], [FeedForward], [Block],
    [GPTLanguageModel]), its sampling loop and its training loop, and proves
    the properties the specification states about them.

    Conventions of the embedding.
    - A float tensor is a nested list of real numbers: arithmetic is exact
      (rounding and overflow are abstracted away); the only non-finite value
      the script itself writes, [float('-inf')], is kept as [NegInf].
    - A torch call that can raise returns a [result]; code that also reads the
      random generator (dropout, sampling, initialisation) lives in the monad
      [M], which threads the generator through.
    - The train/eval flag of the modules is the argument [training]. *)

From Stdlib Require Import List Arith Bool Lia Reals Lra Sorted.
Import ListNotations.

Set Implicit Arguments.

(* ================================================================== *)
(** * Part I: definitions *)
(* ================================================================== *)

(** ** Errors, results and the generator monad *)

Inductive error : Type :=
| IndexError
| RuntimeError
| ValueError
| ZeroDivisionError.

Inductive result (A : Type) : Type :=
| Ok (a : A)
| Err (e : error).

Arguments Ok {A} a.
Arguments Err {A} e.

Definition rbind {A B : Type} (r : result A) (f : A -> result B) : result B :=
  match r with
  | Ok a => f a
  | Err e => Err e
  end.

(** The state of torch's default random generator: the stream of numbers it
    is still to hand out. *)
Definition generator : Type := nat -> R.

Definition M (A : Type) : Type := generator -> result (A * generator).

Definition ret {A : Type} (a : A) : M A := fun g => Ok (a, g).

Definition bind {A B : Type} (m : M A) (f : A -> M B) : M B :=
  fun g => match m g with
           | Ok (a, g') => f a g'
           | Err e => Err e
           end.

Definition lift {A : Type} (r : result A) : M A :=
  fun g => match r with
           | Ok a => Ok (a, g)
           | Err e => Err e
           end.

(** One number off the generator. *)
Definition draw : M R := fun g => Ok (g 0%nat, fun n => g (S n)).

Declare Scope res_scope.
Declare Scope gen_scope.
Delimit Scope res_scope with res.
Delimit Scope gen_scope with gen.

Notation "x <~ c ;; k" := (rbind c (fun x => k))
  (at level 100, c at next level, right associativity) : res_scope.
Notation "x <- c ;; k" := (bind c (fun x => k))
  (at level 100, c at next level, right associativity) : gen_scope.

Fixpoint mapR {A B : Type} (f : A -> result B) (l : list A) : result (list B) :=
  match l with
  | [] => Ok []
  | a :: l' => (b <~ f a ;; bs <~ mapR f l' ;; Ok (b :: bs))%res
  end.

Fixpoint mapM {A B : Type} (f : A -> M B) (l : list A) : M (list B) :=
  match l with
  | [] => ret []
  | a :: l' => (b <- f a ;; bs <- mapM f l' ;; ret (b :: bs))%gen
  end.

(** [for b in blocks: x = b(x)] *)
Fixpoint foldM {A B : Type} (f : A -> B -> M A) (l : list B) (a : A) : M A :=
  match l with
  | [] => ret a
  | b :: l' => (a' <- f a b ;; foldM f l' a')%gen
  end.

(** ** Tensors as nested lists *)

Abbreviation vec := (list R).
Abbreviation mat := (list (list R)).            (* (T, C) *)
Abbreviation tensor3 := (list (list (list R))).  (* (B, T, C) *)

(** An integer tensor of rank two: token batches.  Its shape, its strides
    (which [view] looks at) and its rows. *)
Record LongTensor : Type := mkStrided {
  size0 : nat;
  size1 : nat;
  stride0 : nat;
  stride1 : nat;
  elems : list (list nat)
}.

(** A freshly allocated tensor of shape (B, T): row-major strides. *)
Definition mkLong (B T : nat) (rows : list (list nat)) : LongTensor :=
  mkStrided B T (Nat.max T 1) 1 rows.

Definition map2 {A B C : Type} (f : A -> B -> C) (a : list A) (b : list B) : list C :=
  map (fun ab => f (fst ab) (snd ab)) (combine a b).

Definition mapi {A B : Type} (f : nat -> A -> B) (l : list A) : list B :=
  map2 f (seq 0 (length l)) l.

Definition rsum (l : list R) : R := fold_right Rplus 0%R l.

Definition dot (a b : vec) : R := rsum (map2 Rmult a b).

Definition vadd (a b : vec) : vec := map2 Rplus a b.

Definition ncols (m : mat) : nat := length (hd [] m).

Definition col (j : nat) (m : mat) : vec := map (fun r => nth j r 0%R) m.

(** [m.transpose(-2, -1)] on one matrix. *)
Definition transpose (m : mat) : mat := map (fun j => col j m) (seq 0 (ncols m)).

Fixpoint list_eqb (a b : list nat) : bool :=
  match a, b with
  | [], [] => true
  | x :: a', y :: b' => (x =? y) && list_eqb a' b'
  | _, _ => false
  end.

(** Row lengths of a matrix, and of every matrix of a batch. *)
Definition row_lens (m : mat) : list nat := map (@length R) m.

Definition same_shape2 (a b : mat) : bool := list_eqb (row_lens a) (row_lens b).

Definition all_len {A : Type} (n : nat) (m : list (list A)) : bool :=
  forallb (fun r => length r =? n) m.

(** [a @ b] on matrices: the inner sizes must agree. *)
Definition matmul (a b : mat) : result mat :=
  if all_len (length b) a
  then Ok (map (fun r => map (fun j => dot r (col j b)) (seq 0 (ncols b))) a)
  else Err RuntimeError.

(** Batched [a @ b]: one product per batch entry. *)
Definition bmm (a b : tensor3) : result tensor3 :=
  if length a =? length b
  then mapR (fun ab => matmul (fst ab) (snd ab)) (combine a b)
  else Err RuntimeError.

(** [x * c] for a Python float [c]. *)
Definition smul (c : R) (x : tensor3) : tensor3 :=
  map (map (map (fun a => (a * c)%R))) x.

(** [x + y] for two tensors of one shape (torch would also stretch an axis
    of size 1; the script only adds tensors whose shapes are equal). *)
Definition add2 (a b : mat) : result mat :=
  if same_shape2 a b then Ok (map2 vadd a b) else Err RuntimeError.

Definition add3 (x y : tensor3) : result tensor3 :=
  if length x =? length y
  then mapR (fun ab => add2 (fst ab) (snd ab)) (combine x y)
  else Err RuntimeError.

(** [x + p] for [x] of shape (B, T, C) and [p] of shape (T, C): [p] is added
    to every batch entry. *)
Definition add_bcast (x : tensor3) (p : mat) : result tensor3 :=
  mapR (fun m => add2 m p) x.

(** ** torch.nn modules used by the script *)

(** [nn.Linear(in_features, out_features, bias)]: [weight] has one row per
    output feature. *)
Record Linear : Type := mkLinear {
  in_features : nat;
  out_features : nat;
  weight : mat;
  bias : option vec
}.

Definition Linear_row (l : Linear) (x : vec) : vec :=
  let y := map (fun w => dot w x) (weight l) in
  match bias l with
  | Some b => vadd y b
  | None => y
  end.

(** Applied along the last axis, whose size must be [in_features]. *)
Definition Linear_forward (l : Linear) (x : tensor3) : result tensor3 :=
  if forallb (all_len (in_features l)) x
  then Ok (map (map (Linear_row l)) x)
  else Err RuntimeError.

(** [nn.ReLU()] *)
Definition ReLU_forward (x : tensor3) : tensor3 := map (map (map (Rmax 0))) x.

(** [nn.LayerNorm(normalized_shape)]: per row, biased variance. *)
Record LayerNorm : Type := mkLayerNorm {
  normalized_shape : nat;
  ln_weight : vec;
  ln_bias : vec;
  ln_eps : R
}.

Definition mean (v : vec) : R := (rsum v / INR (length v))%R.

Definition variance (v : vec) : R :=
  mean (map (fun a => ((a - mean v) * (a - mean v))%R) v).

Definition LayerNorm_row (ln : LayerNorm) (v : vec) : vec :=
  let mu := mean v in
  let sd := sqrt (variance v + ln_eps ln) in
  map2 Rplus (map2 Rmult (map (fun a => ((a - mu) / sd)%R) v) (ln_weight ln)) (ln_bias ln).

Definition LayerNorm_forward (ln : LayerNorm) (x : tensor3) : result tensor3 :=
  if forallb (all_len (normalized_shape ln)) x
  then Ok (map (map (LayerNorm_row ln)) x)
  else Err RuntimeError.

(** [nn.Embedding(num_embeddings, embedding_dim)]: a lookup table.  An index
    outside the table raises IndexError; a lookup in a table without rows is
    refused with RuntimeError. *)
Record Embedding : Type := mkEmbedding {
  num_embeddings : nat;
  embedding_dim : nat;
  emb_weight : mat
}.

Definition Embedding_lookup (e : Embedding) (i : nat) : result vec :=
  if num_embeddings e =? 0 then Err RuntimeError
  else if i <? num_embeddings e then Ok (nth i (emb_weight e) []) else Err IndexError.

(** [nn.Dropout(p)]: the identity in eval mode; in training mode every
    element is zeroed with probability [p] and the others are scaled by
    [1 / (1 - p)], one draw of the generator per element. *)
Record Dropout : Type := mkDropout { drop_p : R }.

Definition dropout1 (p : R) (x : R) : M R :=
  (u <- draw ;; ret (if Rlt_dec u p then 0%R else (x / (1 - p))%R))%gen.

Definition Dropout_forward (training : bool) (d : Dropout) (x : tensor3) : M tensor3 :=
  if training then mapM (mapM (mapM (dropout1 (drop_p d)))) x else ret x.

(** ** Scores with [-inf], masking and softmax *)

Inductive ereal : Type :=
| Finite (r : R)
| NegInf.

Definition eexp (a : ereal) : R :=
  match a with
  | Finite r => exp r
  | NegInf => 0%R
  end.

(** [F.softmax(row, dim=-1)] on one row. *)
Definition softmax (row : list ereal) : vec :=
  let s := rsum (map eexp row) in
  map (fun a => (eexp a / s)%R) row.

(** The row has a finite entry: its softmax is not 0/0. *)
Definition softmax_defined (row : list ereal) : Prop :=
  exists j r, nth_error row j = Some (Finite r).

Definition ones (r c : nat) : mat := repeat (repeat 1%R c) r.

(** [torch.tril(m)]: entries above the diagonal become 0. *)
Definition torch_tril (m : mat) : mat :=
  mapi (fun i row => mapi (fun j a => if j <=? i then a else 0%R) row) m.

(** [m[:r, :c]] *)
Definition slice2 (r c : nat) (m : mat) : mat := map (firstn c) (firstn r m).

(** [m == 0] *)
Definition eq_zero (m : mat) : list (list bool) :=
  map (map (fun a => if Req_EM_T a 0 then true else false)) m.

(** Broadcasting of one axis of size [m] against size [n]. *)
Definition bcast_ok (m n : nat) : bool := (m =? n) || (m =? 1).
Definition bcast_ix (m i : nat) : nat := if m =? 1 then 0 else i.

(** [x.masked_fill(mask, float('-inf'))] for [x] of shape (B, T, T) and a
    Boolean matrix broadcast against the last two axes. *)
Definition masked_fill (x : tensor3) (mask : list (list bool)) : result (list (list (list ereal))) :=
  let m1 := length mask in
  let m2 := length (hd [] mask) in
  if forallb (fun w => bcast_ok m1 (length w) && forallb (fun r => bcast_ok m2 (length r)) w) x
  then Ok (map (fun w =>
             mapi (fun i r =>
               mapi (fun j s =>
                 if nth (bcast_ix m2 j) (nth (bcast_ix m1 i) mask []) false
                 then NegInf else Finite s) r) w) x)
  else Err RuntimeError.

(** [n ** -0.5] for a Python int [n]: zero cannot be raised to a negative
    power. *)
Definition pow_neg_half (n : nat) : result R :=
  if n =? 0 then Err ZeroDivisionError else Ok (/ sqrt (INR n))%R.

(** ** class Head *)

Record Head : Type := mkHead {
  key : Linear;
  query : Linear;
  value : Linear;
  tril : mat;
  Head_dropout : Dropout
}.

(** [B, T, C = x.shape]: the time axis. *)
Definition dim1 (x : tensor3) : nat := length (hd [] x).

(** Lines 73-78 of [Head.forward]: the scaled scores after the causal mask. *)
Definition Head_masked (h : Head) (x : tensor3) : result (list (list (list ereal))) :=
  (let T := dim1 x in
   k <~ Linear_forward (key h) x ;;
   q <~ Linear_forward (query h) x ;;
   qk <~ bmm q (map transpose k) ;;
   c <~ pow_neg_half (out_features (key h)) ;;
   masked_fill (smul c qk) (eq_zero (slice2 T T (tril h))))%res.

(** Line 79: the attention weights. *)
Definition Head_wei (h : Head) (x : tensor3) : result tensor3 :=
  (wei <~ Head_masked h x ;; Ok (map (map softmax) wei))%res.

Definition Head_forward (training : bool) (h : Head) (x : tensor3) : M tensor3 :=
  (wei <- lift (Head_wei h x) ;;
   wei <- Dropout_forward training (Head_dropout h) wei ;;
   v <- lift (Linear_forward (value h) x) ;;
   lift (bmm wei v))%gen.

(** ** class MultiHeadAttention *)

Record MultiHeadAttention : Type := mkMHA {
  heads : list Head;
  proj : Linear;
  MHA_dropout : Dropout
}.

Definition same_shape_BT (a b : tensor3) : bool :=
  list_eqb (map (@length vec) a) (map (@length vec) b).

(** [torch.cat(outs, dim=-1)]: an empty list is refused with ValueError, and
    the tensors must agree on the other axes. *)
Fixpoint cat_last (outs : list tensor3) : result tensor3 :=
  match outs with
  | [] => Err ValueError
  | [o] => Ok o
  | o :: os =>
      (rest <~ cat_last os ;;
       if same_shape_BT o rest
       then Ok (map2 (map2 (@app R)) o rest)
       else Err RuntimeError)%res
  end.

Definition MultiHeadAttention_forward (training : bool) (a : MultiHeadAttention)
    (x : tensor3) : M tensor3 :=
  (outs <- mapM (fun h => Head_forward training h x) (heads a) ;;
   out <- lift (cat_last outs) ;;
   out <- lift (Linear_forward (proj a) out) ;;
   Dropout_forward training (MHA_dropout a) out)%gen.

(** ** class FeedForward: Sequential(Linear, ReLU, Linear, Dropout) *)

Record FeedForward : Type := mkFeedForward {
  net0 : Linear;
  net2 : Linear;
  net3 : Dropout
}.

Definition FeedForward_forward (training : bool) (f : FeedForward) (x : tensor3) : M tensor3 :=
  (a <- lift (Linear_forward (net0 f) x) ;;
   b <- lift (Linear_forward (net2 f) (ReLU_forward a)) ;;
   Dropout_forward training (net3 f) b)%gen.

(** ** class Block *)

Record Block : Type := mkBlock {
  sa : MultiHeadAttention;
  ffwd : FeedForward;
  ln1 : LayerNorm;
  ln2 : LayerNorm
}.

Definition Block_forward (training : bool) (b : Block) (x : tensor3) : M tensor3 :=
  (n1 <- lift (LayerNorm_forward (ln1 b) x) ;;
   a <- MultiHeadAttention_forward training (sa b) n1 ;;
   x <- lift (add3 x a) ;;
   n2 <- lift (LayerNorm_forward (ln2 b) x) ;;
   f <- FeedForward_forward training (ffwd b) n2 ;;
   lift (add3 x f))%gen.

(** ** class GPTLanguageModel *)

Record GPTLanguageModel : Type := mkGPT {
  token_embedding : Embedding;
  position_embedding_table : Embedding;
  blocks : list Block;
  ln_f : LayerNorm;
  lm_head : Linear
}.

(** The first value [forward] returns: of rank three without targets, and
    rebound to its [view(B*T, C)] when targets are given. *)
Inductive Logits : Type :=
| Logits3 (x : tensor3)
| Logits2 (x : mat).

(** A scalar tensor: a number, or nan (a mean over no element). *)
Inductive scalar : Type :=
| Snum (r : R)
| Snan.

(** The two axes of [t] can be merged without a copy: no element, one row,
    one column, or rows that follow each other in memory. *)
Definition viewable (t : LongTensor) : bool :=
  (size0 t * size1 t =? 0) || (size0 t =? 1) || (size1 t =? 1)
  || (stride0 t =? size1 t * stride1 t).

(** [t.view(n)] of an integer tensor: the element count must be [n] and the
    strides must allow the view. *)
Definition view1 (n : nat) (t : LongTensor) : result (list nat) :=
  if size0 t * size1 t =? n
  then (if viewable t then Ok (concat (elems t)) else Err RuntimeError)
  else Err RuntimeError.

(** The loss of one row: minus the log of the softmax at the target class,
    which must be a class index. *)
Definition nll_row (row : vec) (t : nat) : result R :=
  if t <? length row
  then Ok (ln (rsum (map exp row)) - nth t row 0)%R
  else Err IndexError.

(** [F.cross_entropy(input, target)] for [input] of shape (N, C) and [target]
    of shape (N), with the default mean reduction. *)
Definition cross_entropy (input : mat) (target : list nat) : result scalar :=
  if length input =? length target
  then (ls <~ mapR (fun rt => nll_row (fst rt) (snd rt)) (combine input target) ;;
        Ok (match ls with
            | [] => Snan
            | _ => Snum (rsum ls / INR (length ls))
            end))%res
  else Err RuntimeError.

(** [GPTLanguageModel.forward(idx, targets=None)] *)
Definition GPT_forward (training : bool) (m : GPTLanguageModel)
    (idx : LongTensor) (targets : option LongTensor) : M (Logits * option scalar) :=
  (let B := size0 idx in
   let T := size1 idx in
   tok_emb <- lift (mapR (mapR (Embedding_lookup (token_embedding m))) (elems idx)) ;;
   pos_emb <- lift (mapR (Embedding_lookup (position_embedding_table m)) (seq 0 T)) ;;
   x <- lift (add_bcast tok_emb pos_emb) ;;
   x <- foldM (fun x b => Block_forward training b x) (blocks m) x ;;
   x <- lift (LayerNorm_forward (ln_f m) x) ;;
   logits <- lift (Linear_forward (lm_head m) x) ;;
   match targets with
   | None => ret (Logits3 logits, None)
   | Some tg =>
       let logits := concat logits in
       tg <- lift (view1 (B * T) tg) ;;
       loss <- lift (cross_entropy logits tg) ;;
       ret (Logits2 logits, Some loss)
   end)%gen.

(** [idx[:, -block_size:]], a slice that keeps the strides of [idx]; note
    that [-0:] is the whole axis. *)
Definition crop (block_size : nat) (idx : LongTensor) : LongTensor :=
  if block_size =? 0 then idx
  else mkStrided (size0 idx) (Nat.min (size1 idx) block_size)
                 (stride0 idx) (stride1 idx)
                 (map (skipn (size1 idx - block_size)) (elems idx)).

(** [logits[:, -1, :]] for logits whose time axis has size [T]. *)
Definition select_last (T : nat) (logits : Logits) : result mat :=
  match logits with
  | Logits3 x =>
      if T =? 0 then Err IndexError
      else mapR (fun m => match nth_error m (T - 1) with
                          | Some r => Ok r
                          | None => Err IndexError
                          end) x
  | Logits2 _ => Err IndexError
  end.

(** [q.exponential_(lambd)]: one number of the exponential distribution. *)
Definition exponential_ (lambd : R) : M R := (e <- draw ;; ret (e / lambd)%R)%gen.

(** [torch.argmax(row)]: the index of the first largest element. *)
Fixpoint argmax (row : vec) : nat :=
  match row with
  | [] => 0
  | a :: rest =>
      match rest with
      | [] => 0
      | _ :: _ => if Rle_dec (nth (argmax rest) rest 0%R) a then 0 else S (argmax rest)
      end
  end.

Definition valid_probs (probs : vec) : bool :=
  negb (length probs =? 0)
  && forallb (fun a => if Rle_dec 0 a then true else false) probs
  && (if Rlt_dec 0 (rsum probs) then true else false).

(** [torch.multinomial(probs, num_samples=1)]: one category per row.  A row
    that is no distribution is refused; otherwise one exponential number [q]
    is drawn per element and the category of a row is the argmax of
    [probs / q]. *)
Definition multinomial (probs : mat) : M (list nat) :=
  if forallb valid_probs probs
  then (q <- mapM (mapM (fun _ : R => exponential_ 1)) probs ;;
        ret (map2 (fun p e => argmax (map2 Rdiv p e)) probs q))%gen
  else lift (Err RuntimeError).

(** [torch.cat((idx, idx_next), dim=1)] for a column [idx_next]. *)
Definition cat1 (idx : LongTensor) (idx_next : list nat) : result LongTensor :=
  if size0 idx =? length idx_next
  then Ok (mkLong (size0 idx) (S (size1 idx))
                  (map2 (fun r t => r ++ [t]) (elems idx) idx_next))
  else Err RuntimeError.

Section Generate.

Variable block_size : nat.

(** One pass of the loop body of [generate]. *)
Definition generate_step (training : bool) (m : GPTLanguageModel) (idx : LongTensor)
    : M LongTensor :=
  (let idx_cond := crop block_size idx in
   out <- GPT_forward training m idx_cond None ;;
   logits <- lift (select_last (size1 idx_cond) (fst out)) ;;
   let probs := map (fun l => softmax (map Finite l)) logits in
   idx_next <- multinomial probs ;;
   lift (cat1 idx idx_next))%gen.

Fixpoint generate (training : bool) (m : GPTLanguageModel) (idx : LongTensor)
    (max_new_tokens : nat) : M LongTensor :=
  match max_new_tokens with
  | 0 => ret idx
  | S n => (idx' <- generate_step training m idx ;; generate training m idx' n)%gen
  end.

End Generate.

(** ** Construction of the modules *)

Definition uniform_ (a b : R) : M R := (u <- draw ;; ret (a + (b - a) * u)%R)%gen.

Definition normal_ (mu std : R) : M R := (z <- draw ;; ret (mu + std * z)%R)%gen.

(** A list of [n] values, each produced by [m]. *)
Definition fillM {A : Type} (n : nat) (m : M A) : M (list A) :=
  mapM (fun _ => m) (seq 0 n).

(** [nn.Linear.__init__]: default uniform initialisation. *)
Definition Linear_init (n_in n_out : nat) (with_bias : bool) : M Linear :=
  (let bound := (/ sqrt (INR n_in))%R in
   w <- fillM n_out (fillM n_in (uniform_ (- bound) bound)) ;;
   b <- (if with_bias
         then (b <- fillM n_out (uniform_ (- bound) bound) ;; ret (Some b))
         else ret None) ;;
   ret (mkLinear n_in n_out w b))%gen.

Definition Embedding_init (num dim : nat) : M Embedding :=
  (w <- fillM num (fillM dim (normal_ 0 1)) ;; ret (mkEmbedding num dim w))%gen.

Definition LayerNorm_init (n : nat) : LayerNorm :=
  mkLayerNorm n (repeat 1%R n) (repeat 0%R n) (/ 100000)%R.

(** [a // b] on Python ints. *)
Definition floordiv (a b : nat) : result nat :=
  if b =? 0 then Err ZeroDivisionError else Ok (a / b).

(** [_init_weights], as [self.apply] runs it over a module and its children. *)
Definition init_matrix (w : mat) : M mat :=
  mapM (mapM (fun _ : R => normal_ 0 (2 / 100))) w.

Definition init_Linear (l : Linear) : M Linear :=
  (w <- init_matrix (weight l) ;;
   ret (mkLinear (in_features l) (out_features l) w
                 (option_map (map (fun _ : R => 0%R)) (bias l))))%gen.

Definition init_Embedding (e : Embedding) : M Embedding :=
  (w <- init_matrix (emb_weight e) ;;
   ret (mkEmbedding (num_embeddings e) (embedding_dim e) w))%gen.

Definition init_Head (h : Head) : M Head :=
  (k <- init_Linear (key h) ;;
   q <- init_Linear (query h) ;;
   v <- init_Linear (value h) ;;
   ret (mkHead k q v (tril h) (Head_dropout h)))%gen.

Definition init_MultiHeadAttention (a : MultiHeadAttention) : M MultiHeadAttention :=
  (hs <- mapM init_Head (heads a) ;;
   p <- init_Linear (proj a) ;;
   ret (mkMHA hs p (MHA_dropout a)))%gen.

Definition init_FeedForward (f : FeedForward) : M FeedForward :=
  (a <- init_Linear (net0 f) ;;
   b <- init_Linear (net2 f) ;;
   ret (mkFeedForward a b (net3 f)))%gen.

Definition init_Block (b : Block) : M Block :=
  (a <- init_MultiHeadAttention (sa b) ;;
   f <- init_FeedForward (ffwd b) ;;
   ret (mkBlock a f (ln1 b) (ln2 b)))%gen.

Section Construction.

(** The script's module-level hyperparameters. *)
Variables block_size n_embd n_head n_layer vocab_size : nat.
Variable dropout : R.

Definition Head_init (head_size : nat) : M Head :=
  (k <- Linear_init n_embd head_size false ;;
   q <- Linear_init n_embd head_size false ;;
   v <- Linear_init n_embd head_size false ;;
   ret (mkHead k q v (torch_tril (ones block_size block_size)) (mkDropout dropout)))%gen.

Definition MultiHeadAttention_init (num_heads head_size : nat) : M MultiHeadAttention :=
  (hs <- fillM num_heads (Head_init head_size) ;;
   p <- Linear_init (head_size * num_heads) n_embd true ;;
   ret (mkMHA hs p (mkDropout dropout)))%gen.

Definition FeedForward_init (n_embd : nat) : M FeedForward :=
  (a <- Linear_init n_embd (4 * n_embd) true ;;
   b <- Linear_init (4 * n_embd) n_embd true ;;
   ret (mkFeedForward a b (mkDropout dropout)))%gen.

(** [Block.__init__(self, n_embd, n_head)]: the arguments shadow the
    globals; [Head] and [MultiHeadAttention] read the global [n_embd]. *)
Definition Block_init (n_embd n_head : nat) : M Block :=
  (head_size <- lift (floordiv n_embd n_head) ;;
   a <- MultiHeadAttention_init n_head head_size ;;
   f <- FeedForward_init n_embd ;;
   ret (mkBlock a f (LayerNorm_init n_embd) (LayerNorm_init n_embd)))%gen.

Definition GPTLanguageModel_init : M GPTLanguageModel :=
  (te <- Embedding_init vocab_size n_embd ;;
   pe <- Embedding_init block_size n_embd ;;
   bs <- fillM n_layer (Block_init n_embd n_head) ;;
   lh <- Linear_init n_embd vocab_size true ;;
   (* self.apply(self._init_weights) *)
   te <- init_Embedding te ;;
   pe <- init_Embedding pe ;;
   bs <- mapM init_Block bs ;;
   lh <- init_Linear lh ;;
   ret (mkGPT te pe bs (LayerNorm_init n_embd) lh))%gen.

End Construction.

(** The values the script assigns. *)
Module Hyper.
Definition batch_size : nat := 64.
Definition block_size : nat := 256.
Definition max_iters : nat := 5000.
Definition eval_interval : nat := 500.
Definition eval_eters : nat := 200.
Definition n_embd : nat := 384.
Definition n_head : nat := 6.
Definition n_layer : nat := 6.
Definition dropout : R := (2 / 10)%R.
End Hyper.

(** ** Batches, loss estimation and the training loop *)

Definition get_generator : M generator := fun g => Ok (g, g).

(** [torch.randint(high, (1,))]: the range must not be empty. *)
Definition randint (high : nat) : M nat :=
  if high =? 0 then lift (Err RuntimeError)
  else (u <- draw ;; ret (Z.to_nat (Int_part (u * INR high))))%gen.

(** [torch.stack(rows)] of rank-one tensors: a non-empty list of rows of one
    length. *)
Definition stack (rows : list (list nat)) : result LongTensor :=
  match rows with
  | [] => Err RuntimeError
  | r :: _ =>
      if all_len (length r) rows
      then Ok (mkLong (length rows) (length r) rows)
      else Err RuntimeError
  end.

(** [data[i:j]] *)
Definition pyslice {A : Type} (i j : nat) (data : list A) : list A :=
  firstn (j - i) (skipn i data).

(** [losses.mean()] over scalars read with [.item()]. *)
Fixpoint scalar_sum (l : list scalar) : scalar :=
  match l with
  | [] => Snum 0
  | Snan :: _ => Snan
  | Snum a :: l' => match scalar_sum l' with
                    | Snum b => Snum (a + b)
                    | Snan => Snan
                    end
  end.

Definition scalar_mean (l : list scalar) : scalar :=
  match l, scalar_sum l with
  | _ :: _, Snum s => Snum (s / INR (length l))
  | _, _ => Snan
  end.

Inductive split : Type := train | val.

Section Training.

Variables batch_size block_size max_iters eval_interval eval_eters : nat.

(** The encoded corpus, already split (input.txt is not part of the
    sources). *)
Variables train_data val_data : list nat.

(** What [torch.optim.AdamW] keeps between steps, and the parameter update
    [optimizer.zero_grad(); loss.backward(); optimizer.step()] for the loss
    of the batch [(xb, yb)] computed with the dropout draws of the given
    generator state.  Autograd and the optimizer are torch's. *)
Variable OptState : Type.
Variable backward_and_step :
  GPTLanguageModel -> OptState -> LongTensor -> LongTensor -> generator ->
  GPTLanguageModel * OptState.

Definition get_batch (s : split) : M (LongTensor * LongTensor) :=
  (let data := match s with train => train_data | val => val_data end in
   ix <- fillM batch_size (randint (length data - block_size)) ;;
   x <- lift (stack (map (fun i => pyslice i (i + block_size) data) ix)) ;;
   y <- lift (stack (map (fun i => pyslice (i + 1) (i + 1 + block_size) data) ix)) ;;
   ret (x, y))%gen.

(** What the script's top level carries from one iteration to the next.
    [steps] is a ghost field: the iterations at which [optimizer.step()]
    ran, in order. *)
Record TrainState : Type := mkTrainState {
  model : GPTLanguageModel;
  training_mode : bool;
  opt : OptState;
  stdout : list (nat * scalar * scalar);
  steps : list nat
}.

Definition set_mode (b : bool) (st : TrainState) : TrainState :=
  mkTrainState (model st) b (opt st) (stdout st) (steps st).

Definition split_loss (st : TrainState) (s : split) : M scalar :=
  (losses <- fillM eval_eters
       (xy <- get_batch s ;;
        out <- GPT_forward (training_mode st) (model st) (fst xy) (Some (snd xy)) ;;
        ret (match snd out with Some l => l | None => Snan end)) ;;
   ret (scalar_mean losses))%gen.

(** [estimate_loss()]: eval mode, the two means, back to training mode. *)
Definition estimate_loss (st : TrainState) : M (scalar * scalar * TrainState) :=
  (let st := set_mode false st in
   tl <- split_loss st train ;;
   vl <- split_loss st val ;;
   ret (tl, vl, set_mode true st))%gen.

(** [a % b] on Python ints. *)
Definition pymod (a b : nat) : result nat :=
  if b =? 0 then Err ZeroDivisionError else Ok (a mod b).

(** The test of the [if] in the loop. *)
Definition eval_due (iter : nat) : bool :=
  (iter mod eval_interval =? 0) || (iter =? max_iters - 1).

(** The body of [for iter in range(max_iters)]. *)
Definition train_iter (st : TrainState) (iter : nat) : M TrainState :=
  (r <- lift (pymod iter eval_interval) ;;
   if (r =? 0) || (iter =? max_iters - 1)
   then
     ls <- estimate_loss st ;;
     let st := snd ls in
     let st := mkTrainState (model st) (training_mode st) (opt st)
                            (stdout st ++ [(iter, fst (fst ls), snd (fst ls))]) (steps st) in
     xy <- get_batch train ;;
     g <- get_generator ;;
     out <- GPT_forward (training_mode st) (model st) (fst xy) (Some (snd xy)) ;;
     let mo := backward_and_step (model st) (opt st) (fst xy) (snd xy) g in
     ret (mkTrainState (fst mo) (training_mode st) (snd mo) (stdout st) (steps st ++ [iter]))
   else ret st)%gen.

Definition train_loop (st : TrainState) : M TrainState :=
  foldM train_iter (seq 0 max_iters) st.

(** The loop over the first [n] iterations only. *)
Definition train_prefix (n : nat) (st : TrainState) : M TrainState :=
  foldM train_iter (seq 0 n) st.

End Training.

(** ** Shapes and well-formed modules *)

Definition shape2 {A : Type} (r c : nat) (m : list (list A)) : Prop :=
  length m = r /\ Forall (fun v => length v = c) m.

Definition shape3 {A : Type} (b t c : nat) (x : list (list (list A))) : Prop :=
  length x = b /\ Forall (shape2 t c) x.

Definition wf_Linear (n_in n_out : nat) (l : Linear) : Prop :=
  in_features l = n_in /\ out_features l = n_out /\
  shape2 n_out n_in (weight l) /\
  match bias l with Some b => length b = n_out | None => True end.

Definition wf_LayerNorm (n : nat) (ln : LayerNorm) : Prop :=
  normalized_shape ln = n /\ length (ln_weight ln) = n /\ length (ln_bias ln) = n.

Definition wf_Embedding (num dim : nat) (e : Embedding) : Prop :=
  num_embeddings e = num /\ embedding_dim e = dim /\ shape2 num dim (emb_weight e).

(** What [Head.__init__] establishes, for a head that can run: three
    projections without bias from [n_embd] to a positive [head_size], and
    the lower-triangular buffer. *)
Definition wf_Head (block_size n_embd head_size : nat) (h : Head) : Prop :=
  wf_Linear n_embd head_size (key h) /\ bias (key h) = None /\
  wf_Linear n_embd head_size (query h) /\ bias (query h) = None /\
  wf_Linear n_embd head_size (value h) /\ bias (value h) = None /\
  tril h = torch_tril (ones block_size block_size) /\
  0 < head_size.

Definition wf_MultiHeadAttention (block_size n_embd head_size : nat)
    (a : MultiHeadAttention) : Prop :=
  heads a <> [] /\
  Forall (wf_Head block_size n_embd head_size) (heads a) /\
  wf_Linear (head_size * length (heads a)) n_embd (proj a).

Definition wf_FeedForward (n_embd : nat) (f : FeedForward) : Prop :=
  wf_Linear n_embd (4 * n_embd) (net0 f) /\ wf_Linear (4 * n_embd) n_embd (net2 f).

Definition wf_Block (block_size n_embd : nat) (b : Block) : Prop :=
  (exists head_size, wf_MultiHeadAttention block_size n_embd head_size (sa b)) /\
  wf_FeedForward n_embd (ffwd b) /\
  wf_LayerNorm n_embd (ln1 b) /\ wf_LayerNorm n_embd (ln2 b).

Definition wf_GPT (block_size n_embd vocab_size : nat) (m : GPTLanguageModel) : Prop :=
  wf_Embedding vocab_size n_embd (token_embedding m) /\
  wf_Embedding block_size n_embd (position_embedding_table m) /\
  Forall (wf_Block block_size n_embd) (blocks m) /\
  wf_LayerNorm n_embd (ln_f m) /\
  wf_Linear n_embd vocab_size (lm_head m).

(** What the constructors build, whether or not the model can run: every
    head projects [n_embd] to [n_embd // n_head], and the output projection
    reads [(n_embd // n_head) * n_head] features. *)
Definition Head_built (block_size n_embd head_size : nat) (h : Head) : Prop :=
  wf_Linear n_embd head_size (key h) /\ bias (key h) = None /\
  wf_Linear n_embd head_size (query h) /\ bias (query h) = None /\
  wf_Linear n_embd head_size (value h) /\ bias (value h) = None /\
  tril h = torch_tril (ones block_size block_size).

Definition Block_built (block_size n_embd n_head : nat) (b : Block) : Prop :=
  length (heads (sa b)) = n_head /\
  Forall (Head_built block_size n_embd (n_embd / n_head)) (heads (sa b)) /\
  wf_Linear (n_embd / n_head * n_head) n_embd (proj (sa b)) /\
  wf_FeedForward n_embd (ffwd b) /\
  wf_LayerNorm n_embd (ln1 b) /\ wf_LayerNorm n_embd (ln2 b).

Definition GPT_built (block_size n_embd n_head n_layer vocab_size : nat)
    (m : GPTLanguageModel) : Prop :=
  wf_Embedding vocab_size n_embd (token_embedding m) /\
  wf_Embedding block_size n_embd (position_embedding_table m) /\
  length (blocks m) = n_layer /\
  Forall (Block_built block_size n_embd n_head) (blocks m) /\
  wf_LayerNorm n_embd (ln_f m) /\
  wf_Linear n_embd vocab_size (lm_head m).

(** A batch of token ids of shape (B, T), every id below [vocab_size]. *)
Definition token_batch (vocab_size B T : nat) (idx : LongTensor) : Prop :=
  size0 idx = B /\ size1 idx = T /\ shape2 B T (elems idx) /\
  Forall (Forall (fun t => t < vocab_size)) (elems idx).

(** ** The attention head by indices, as the specification words it *)

Definition bigsum (n : nat) (f : nat -> R) : R := rsum (map f (seq 0 n)).

Definition at2 (m : mat) (i c : nat) : R := nth c (nth i m []) 0%R.

Definition at3 (x : tensor3) (b i c : nat) : R := at2 (nth b x []) i c.

(** A projection without bias: feature [c] of position [i]. *)
Definition project_spec (l : Linear) (x : mat) (i c : nat) : R :=
  bigsum (in_features l) (fun e => (at2 (weight l) c e * at2 x i e)%R).

(** query . key^T times 1/sqrt(head_size), and -infinity for j > i. *)
Definition score_spec (h : Head) (x : mat) (i j : nat) : ereal :=
  if i <? j then NegInf
  else Finite (bigsum (out_features (key h))
                 (fun c => (project_spec (query h) x i c * project_spec (key h) x j c)%R)
               * / sqrt (INR (out_features (key h)))).

(** Softmax over the last axis of the [T] scores of row [i]. *)
Definition weight_spec (h : Head) (x : mat) (T i j : nat) : R :=
  (eexp (score_spec h x i j) / bigsum T (fun j' => eexp (score_spec h x i j')))%R.

(** ** Categorical cross-entropy, as the specification words it

    The mean, over the flattened (batch, time) positions, of minus the log of
    the probability the softmax of the logits gives the target; nan when
    there is no position. *)
Definition cross_entropy_spec (logits : mat) (targets : list nat) : scalar :=
  match length targets with
  | 0 => Snan
  | S _ =>
      Snum (rsum (map2 (fun row t => (- ln (nth t (softmax (map Finite row)) 0))%R)
                       logits targets)
            / INR (length targets))
  end.

(** ** Autoregressive sampling, as the specification words it *)

(** (a) the last [block_size] tokens of a sequence. *)
Definition last_tokens (block_size : nat) (row : list nat) : list nat :=
  skipn (length row - block_size) row.

Definition truncate (block_size : nat) (idx : LongTensor) : LongTensor :=
  mkStrided (size0 idx) (Nat.min (size1 idx) block_size) (stride0 idx) (stride1 idx)
            (map (last_tokens block_size) (elems idx)).

(** (e) [t] is an outcome the categorical distribution [probs] can give. *)
Definition in_support (probs : vec) (t : nat) : Prop :=
  t < length probs /\ (0 < nth t probs 0)%R.

(** (f) one more token at the end of every row. *)
Definition append_tokens (idx : LongTensor) (nxt : list nat) : LongTensor :=
  mkLong (size0 idx) (S (size1 idx)) (map2 (fun r t => r ++ [t]) (elems idx) nxt).

(** [generates idx n out]: [out] is reached from [idx] in exactly [n] rounds
    of: forward pass without targets on the truncated context (a, b); per
    row, the logits of the final time step (c), their softmax (d) and a token
    in its support (e); the tokens appended (f). *)
Inductive generates (block_size : nat) (training : bool) (m : GPTLanguageModel)
    : LongTensor -> nat -> LongTensor -> Prop :=
| generates_O : forall idx, generates block_size training m idx 0 idx
| generates_S : forall idx n out logits nxt g g',
    GPT_forward training m (truncate block_size idx) None g
      = Ok ((Logits3 logits, None), g') ->
    Forall2 (fun lb t => exists row,
                 nth_error lb (length lb - 1) = Some row
                 /\ in_support (softmax (map Finite row)) t) logits nxt ->
    generates block_size training m (append_tokens idx nxt) n out ->
    generates block_size training m idx (S n) out.

(** ** A concrete model and concrete batches

    All parameters zero, in the shapes the constructor gives them: an input
    on which statements about well-formed models can be instantiated. *)

Definition zero_Linear (n_in n_out : nat) (with_bias : bool) : Linear :=
  mkLinear n_in n_out (repeat (repeat 0%R n_in) n_out)
           (if with_bias then Some (repeat 0%R n_out) else None).

Definition zero_Embedding (num dim : nat) : Embedding :=
  mkEmbedding num dim (repeat (repeat 0%R dim) num).

Definition zero_Head (block_size n_embd head_size : nat) : Head :=
  mkHead (zero_Linear n_embd head_size false) (zero_Linear n_embd head_size false)
         (zero_Linear n_embd head_size false)
         (torch_tril (ones block_size block_size)) (mkDropout Hyper.dropout).

Definition zero_Block (block_size n_embd n_head : nat) : Block :=
  let head_size := n_embd / n_head in
  mkBlock (mkMHA (repeat (zero_Head block_size n_embd head_size) n_head)
                 (zero_Linear (head_size * n_head) n_embd true)
                 (mkDropout Hyper.dropout))
          (mkFeedForward (zero_Linear n_embd (4 * n_embd) true)
                         (zero_Linear (4 * n_embd) n_embd true)
                         (mkDropout Hyper.dropout))
          (LayerNorm_init n_embd) (LayerNorm_init n_embd).

Definition zero_GPT (block_size n_embd n_head n_layer vocab_size : nat) : GPTLanguageModel :=
  mkGPT (zero_Embedding vocab_size n_embd) (zero_Embedding block_size n_embd)
        (repeat (zero_Block block_size n_embd n_head) n_layer)
        (LayerNorm_init n_embd) (zero_Linear n_embd vocab_size true).

(** The script's configuration on a corpus of 65 distinct characters. *)
Definition script_model : GPTLanguageModel :=
  zero_GPT Hyper.block_size Hyper.n_embd Hyper.n_head Hyper.n_layer 65.

(** A batch of [B] rows of [T] copies of token 0. *)
Definition zero_batch (B T : nat) : LongTensor := mkLong B T (repeat (repeat 0 T) B).

(** The generator that hands out zeros. *)
Definition zero_gen : generator := fun _ => 0%R.

(** ** Derived forms used in the proofs *)

(** [m] returns from every generator state, with a value satisfying [P]. *)
Definition returns {A : Type} (m : M A) (P : A -> Prop) : Prop :=
  forall g, exists a g', m g = Ok (a, g') /\ P a.

(** *** The attention head in closed form *)

(** [k.shape[-1] ** -0.5] *)
Definition head_scale (h : Head) : R := (/ sqrt (INR (out_features (key h))))%R.

(** The masked scores of one batch entry: row [i] keeps the scaled products
    with the keys [0..i]. *)
Definition causal_scores (h : Head) (xb : mat) : list (list ereal) :=
  mapi (fun i qi =>
          mapi (fun j kj => if j <=? i then Finite (dot qi kj * head_scale h) else NegInf)
               (map (Linear_row (key h)) xb))
       (map (Linear_row (query h)) xb).

(** Row [i] of the masked scores of one batch entry. *)
Definition masked_row (h : Head) (xb : mat) (i : nat) : list ereal :=
  mapi (fun j kj =>
          if j <=? i
          then Finite (dot (nth i (map (Linear_row (query h)) xb) []) kj * head_scale h)
          else NegInf)
       (map (Linear_row (key h)) xb).

(** [wei @ v] on one batch entry. *)
Definition weighted_values (h : Head) (wb xb : mat) : mat :=
  map (fun w => map (fun c => dot w (col c (map (Linear_row (value h)) xb)))
                    (seq 0 (out_features (value h)))) wb.

(** The head on one batch entry, dropout off. *)
Definition head_eval (h : Head) (xb : mat) : mat :=
  weighted_values h (map softmax (causal_scores h xb)) xb.

(** One output row of the head: a query against the keys and values it may
    see. *)
Definition attn_row (h : Head) (qi : vec) (ks vs : mat) : vec :=
  map (fun c => dot (softmax (map (fun kj => Finite (dot qi kj * head_scale h)) ks)) (col c vs))
      (seq 0 (out_features (value h))).

(** *** The network with dropout off, one sequence at a time *)

(** The concatenated outputs of the heads. *)
Fixpoint mha_cat (hs : list Head) (xb : mat) : mat :=
  match hs with
  | [] => []
  | [h] => head_eval h xb
  | h :: hs' => map2 (@app R) (head_eval h xb) (mha_cat hs' xb)
  end.

(** [MultiHeadAttention.forward] *)
Definition mha_eval (a : MultiHeadAttention) (xb : mat) : mat :=
  map (Linear_row (proj a)) (mha_cat (heads a) xb).

(** [FeedForward.forward] *)
Definition ffwd_eval (f : FeedForward) (xb : mat) : mat :=
  map (Linear_row (net2 f)) (map (map (Rmax 0)) (map (Linear_row (net0 f)) xb)).

(** [Block.forward] *)
Definition block_eval (b : Block) (xb : mat) : mat :=
  let x1 := map2 vadd xb (mha_eval (sa b) (map (LayerNorm_row (ln1 b)) xb)) in
  map2 vadd x1 (ffwd_eval (ffwd b) (map (LayerNorm_row (ln2 b)) x1)).

(** [tok_emb + pos_emb] *)
Definition embed (m : GPTLanguageModel) (toks : list nat) : mat :=
  map2 vadd (map (fun t => nth t (emb_weight (token_embedding m)) []) toks)
            (map (fun i => nth i (emb_weight (position_embedding_table m)) [])
                 (seq 0 (length toks))).

(** The logits of [GPTLanguageModel.forward] for one sequence. *)
Definition gpt_eval (m : GPTLanguageModel) (toks : list nat) : mat :=
  map (Linear_row (lm_head m))
      (map (LayerNorm_row (ln_f m))
           (fold_left (fun x b => block_eval b x) (blocks m) (embed m toks))).

(** The iterations whose losses were printed. *)
Definition printed {OptState : Type} (st : TrainState OptState) : list nat :=
  map (fun line => fst (fst line)) (stdout st).

(** ** The vocabulary and the corpus: lines 19-35

    A character is its code point and a string the list of its characters.
    A lookup that misses the key gives [None]: Python's KeyError. *)

Fixpoint insert_sorted (c : nat) (l : list nat) : list nat :=
  match l with
  | [] => [c]
  | d :: l' => if c <=? d then c :: l else d :: insert_sorted c l'
  end.

(** [sorted(l)] *)
Definition sorted (l : list nat) : list nat := fold_right insert_sorted [] l.

(** [chars = sorted(list(set(text)))] *)
Definition chars (text : list nat) : list nat := sorted (nodup Nat.eq_dec text).

(** [vocab_size = len(chars)] *)
Definition vocab_size (text : list nat) : nat := length (chars text).

(** A dict as the list of its items, the latest assignment first. *)
Fixpoint dict_get {V : Type} (d : list (nat * V)) (k : nat) : option V :=
  match d with
  | [] => None
  | (k', v) :: d' => if k =? k' then Some v else dict_get d' k
  end.

(** [{k: v for k, v in items}]: the items are assigned in order. *)
Definition dict_of {V : Type} (items : list (nat * V)) : list (nat * V) := rev items.

(** [enumerate(l)] *)
Definition enumerate {A : Type} (l : list A) : list (nat * A) :=
  combine (seq 0 (length l)) l.

Definition stoi (text : list nat) : list (nat * nat) :=
  dict_of (map (fun ic => (snd ic, fst ic)) (enumerate (chars text))).

Definition itos (text : list nat) : list (nat * nat) :=
  dict_of (enumerate (chars text)).

(** [[f(a) for a in l]] for a lookup [f]. *)
Fixpoint mapO {A B : Type} (f : A -> option B) (l : list A) : option (list B) :=
  match l with
  | [] => Some []
  | a :: l' =>
      match f a with
      | Some b => match mapO f l' with
                  | Some bs => Some (b :: bs)
                  | None => None
                  end
      | None => None
      end
  end.

(** [encode = lambda s: [stoi[c] for c in s]] *)
Definition encode (text s : list nat) : option (list nat) := mapO (dict_get (stoi text)) s.

(** [decode = lambda l: ''.join([itos[i] for i in l])] *)
Definition decode (text l : list nat) : option (list nat) := mapO (dict_get (itos text)) l.

(** [int(0.9*len(data))] *)
Definition split_point (len : nat) : nat := Z.to_nat (Int_part (9 / 10 * INR len)).

(** Lines 32-35: [(train_data, val_data)]. *)
Definition corpus (text : list nat) : option (list nat * list nat) :=
  match encode text text with
  | Some data =>
      let n := split_point (length data) in
      Some (firstn n data, skipn n data)
  | None => None
  end.

(** ** The generator as the script uses it after construction

    [randint] and dropout read uniform numbers of [0, 1). *)
Definition unit_draws (g : generator) : Prop := forall n, (0 <= g n < 1)%R.

(** [g'] is [g] after some draws. *)
Definition later (g g' : generator) : Prop := exists k, forall n, g' n = g (k + n).

(** [m] does nothing to the generator but draw from it. *)
Definition advances {A : Type} (m : M A) : Prop :=
  forall g a g', m g = Ok (a, g') -> later g g'.

(** From a generator of uniform numbers [m] returns a value satisfying [P],
    and leaves such a generator. *)
Definition samples {A : Type} (m : M A) (P : A -> Prop) : Prop :=
  forall g, unit_draws g -> exists a g', m g = Ok (a, g') /\ P a /\ unit_draws g'.

(** [m], when it returns, has drawn exactly [k] numbers. *)
Definition draws {A : Type} (k : nat) (m : M A) : Prop :=
  forall g a g', m g = Ok (a, g') -> forall n, g' n = g (k + n).

(** The feed-forward network on one position, dropout off. *)
Definition ffwd_row (f : FeedForward) (v : vec) : vec :=
  Linear_row (net2 f) (map (Rmax 0) (Linear_row (net0 f) v)).

(** ** The parameters of the model: line 193

    [p.numel()] summed over [m.parameters()]: the weights and biases of the
    Linear and LayerNorm modules and the embedding tables ([tril] is a
    buffer; Dropout and ReLU have no parameter). *)

Definition numel (w : mat) : nat := list_sum (map (@length R) w).

Definition Linear_parameters (l : Linear) : nat :=
  numel (weight l) + match bias l with Some b => length b | None => 0 end.

Definition LayerNorm_parameters (ln : LayerNorm) : nat :=
  length (ln_weight ln) + length (ln_bias ln).

Definition Embedding_parameters (e : Embedding) : nat := numel (emb_weight e).

Definition Head_parameters (h : Head) : nat :=
  Linear_parameters (key h) + Linear_parameters (query h) + Linear_parameters (value h).

Definition MultiHeadAttention_parameters (a : MultiHeadAttention) : nat :=
  list_sum (map Head_parameters (heads a)) + Linear_parameters (proj a).

Definition FeedForward_parameters (f : FeedForward) : nat :=
  Linear_parameters (net0 f) + Linear_parameters (net2 f).

Definition Block_parameters (b : Block) : nat :=
  MultiHeadAttention_parameters (sa b) + FeedForward_parameters (ffwd b)
  + LayerNorm_parameters (ln1 b) + LayerNorm_parameters (ln2 b).

Definition GPT_parameters (m : GPTLanguageModel) : nat :=
  Embedding_parameters (token_embedding m)
  + Embedding_parameters (position_embedding_table m)
  + list_sum (map Block_parameters (blocks m))
  + LayerNorm_parameters (ln_f m)
  + Linear_parameters (lm_head m).

(** The number the script prints before 'M parameters'. *)
Definition parameters_in_millions (m : GPTLanguageModel) : R :=
  (INR (GPT_parameters m) / 1000000)%R.

(** The count in closed form, from the hyperparameters. *)
Definition expected_parameters (block_size n_embd n_head n_layer vocab_size : nat) : Z :=
  let C := Z.of_nat n_embd in
  let hs := Z.of_nat (n_embd / n_head) in
  let nh := Z.of_nat n_head in
  (Z.of_nat vocab_size * C + Z.of_nat block_size * C
   + Z.of_nat n_layer * (nh * (3 * (hs * C)) + (C * (hs * nh) + C)
                         + (4 * C * C + 4 * C) + (C * (4 * C) + C)
                         + 2 * C + 2 * C)
   + 2 * C
   + (Z.of_nat vocab_size * C + Z.of_nat vocab_size))%Z.

(** ** What the constructors leave

    A Linear module as [nn.Linear.__init__] makes it ([zeroed = false]: the
    bias is there or not, as asked) and as [_init_weights] leaves it
    ([zeroed = true]: a bias that is there is all zeros). *)
Definition Linear_state (zeroed : bool) (n_in n_out : nat) (with_bias : bool) (l : Linear)
    : Prop :=
  wf_Linear n_in n_out l
  /\ (if with_bias
      then (if zeroed then bias l = Some (repeat 0%R n_out) else bias l <> None)
      else bias l = None).

Definition Head_state (zeroed : bool) (block_size n_embd head_size : nat) (p : R) (h : Head)
    : Prop :=
  Linear_state zeroed n_embd head_size false (key h)
  /\ Linear_state zeroed n_embd head_size false (query h)
  /\ Linear_state zeroed n_embd head_size false (value h)
  /\ tril h = torch_tril (ones block_size block_size)
  /\ Head_dropout h = mkDropout p.

Definition Block_state (zeroed : bool) (block_size n_embd n_head : nat) (p : R) (b : Block)
    : Prop :=
  length (heads (sa b)) = n_head
  /\ Forall (Head_state zeroed block_size n_embd (n_embd / n_head) p) (heads (sa b))
  /\ Linear_state zeroed (n_embd / n_head * n_head) n_embd true (proj (sa b))
  /\ MHA_dropout (sa b) = mkDropout p
  /\ Linear_state zeroed n_embd (4 * n_embd) true (net0 (ffwd b))
  /\ Linear_state zeroed (4 * n_embd) n_embd true (net2 (ffwd b))
  /\ net3 (ffwd b) = mkDropout p
  /\ ln1 b = LayerNorm_init n_embd
  /\ ln2 b = LayerNorm_init n_embd.

(** The model [GPTLanguageModel()] returns. *)
Definition GPT_initialised (block_size n_embd n_head n_layer vocab_size : nat) (p : R)
    (m : GPTLanguageModel) : Prop :=
  wf_Embedding vocab_size n_embd (token_embedding m)
  /\ wf_Embedding block_size n_embd (position_embedding_table m)
  /\ length (blocks m) = n_layer
  /\ Forall (Block_state true block_size n_embd n_head p) (blocks m)
  /\ ln_f m = LayerNorm_init n_embd
  /\ Linear_state true n_embd vocab_size true (lm_head m).

(** ** The sample the script prints last: lines 213-214

    [decode(m.generate(context, max_new_tokens)[0].tolist())] for the
    context [torch.zeros((1, 1))]. *)
Definition sample (block_size : nat) (training : bool) (m : GPTLanguageModel)
    (text : list nat) (max_new_tokens : nat) : M (option (list nat)) :=
  (out <- generate block_size training m (zero_batch 1 1) max_new_tokens ;;
   row <- lift (match elems out with
                | r :: _ => Ok r
                | [] => Err IndexError
                end) ;;
   ret (decode text row))%gen.

(* ================================================================== *)
(** * Part II: proofs *)
(* ================================================================== *)

Local Open Scope nat_scope.

(** ** Running a computation *)



Lemma bind_Ok {A B : Type} (m : M A) (f : A -> M B) g b g2 :
  bind m f g = Ok (b, g2) ->
  exists a g1, m g = Ok (a, g1) /\ f a g1 = Ok (b, g2).
Proof.
  unfold bind. destruct (m g) as [[a g1]|e]; intros H; [|discriminate].
  exists a, g1. split; [reflexivity|exact H].
Qed.

Lemma lift_Ok {A : Type} (r : result A) g a g' :
  lift r g = Ok (a, g') -> r = Ok a /\ g' = g.
Proof.
  unfold lift. destruct r; intros H; inversion H; subst; auto.
Qed.

Lemma rbind_Ok {A B : Type} (r : result A) (f : A -> result B) b :
  rbind r f = Ok b -> exists a, r = Ok a /\ f a = Ok b.
Proof.
  destruct r; simpl; intros H; [eauto|discriminate].
Qed.

Lemma returns_ret {A : Type} (a : A) (P : A -> Prop) : P a -> returns (ret a) P.
Proof. intros H g. exists a, g. split; [reflexivity|exact H]. Qed.

Lemma returns_bind {A B : Type} (m : M A) (f : A -> M B) (P : A -> Prop) (Q : B -> Prop) :
  returns m P -> (forall a, P a -> returns (f a) Q) -> returns (bind m f) Q.
Proof.
  intros Hm Hf g. destruct (Hm g) as (a & g1 & E & Pa).
  destruct (Hf a Pa g1) as (b & g2 & E2 & Qb).
  exists b, g2. split; [|exact Qb]. unfold bind. rewrite E. exact E2.
Qed.

Lemma returns_lift {A : Type} (r : result A) (a : A) (P : A -> Prop) :
  r = Ok a -> P a -> returns (lift r) P.
Proof. intros -> H g. exists a, g. split; [reflexivity|exact H]. Qed.

Lemma returns_weaken {A : Type} (m : M A) (P Q : A -> Prop) :
  returns m P -> (forall a, P a -> Q a) -> returns m Q.
Proof.
  intros Hm HPQ g. destruct (Hm g) as (a & g1 & E & Pa). exists a, g1. auto.
Qed.

Lemma returns_mapM {A B : Type} (f : A -> M B) (P : A -> B -> Prop) (l : list A) :
  (forall a, In a l -> returns (f a) (P a)) ->
  returns (mapM f l) (fun bs => Forall2 P l bs).
Proof.
  induction l as [|a l IH]; intros H; simpl.
  - apply returns_ret. constructor.
  - eapply returns_bind; [apply H; left; reflexivity|].
    intros b Hb. eapply returns_bind; [apply IH; intros; apply H; right; assumption|].
    intros bs Hbs. apply returns_ret. constructor; assumption.
Qed.

Lemma returns_foldM {A B : Type} (f : A -> B -> M A) (I : A -> Prop) (l : list B) :
  (forall a b, In b l -> I a -> returns (f a b) I) ->
  forall a, I a -> returns (foldM f l a) I.
Proof.
  induction l as [|b l IH]; intros H a Ia; simpl.
  - apply returns_ret. exact Ia.
  - eapply returns_bind; [apply H; [left; reflexivity|exact Ia]|].
    intros a' Ia'. apply IH; [|exact Ia']. intros; apply H; [right|]; assumption.
Qed.

(** ** Lists *)

Lemma map2_length {A B C : Type} (f : A -> B -> C) a b :
  length (map2 f a b) = Nat.min (length a) (length b).
Proof. unfold map2. rewrite length_map, length_combine. reflexivity. Qed.

Lemma map2_nth {A B C : Type} (f : A -> B -> C) a b i da db dc :
  i < length a -> i < length b ->
  nth i (map2 f a b) dc = f (nth i a da) (nth i b db).
Proof.
  revert b i. induction a as [|x a IH]; intros [|y b] [|i] Ha Hb; simpl in *; try lia.
  - reflexivity.
  - apply IH; lia.
Qed.

Lemma mapi_length {A B : Type} (f : nat -> A -> B) l : length (mapi f l) = length l.
Proof. unfold mapi. rewrite map2_length, length_seq. lia. Qed.

Lemma mapi_nth {A B : Type} (f : nat -> A -> B) l i da db :
  i < length l -> nth i (mapi f l) db = f i (nth i l da).
Proof.
  intros H. unfold mapi. rewrite (map2_nth f _ _ 0 da) by (rewrite ?length_seq; lia).
  rewrite seq_nth by lia. reflexivity.
Qed.

Lemma list_eqb_eq a b : list_eqb a b = true <-> a = b.
Proof.
  revert b. induction a as [|x a IH]; intros [|y b]; simpl; split; intros H;
    try reflexivity; try discriminate.
  - apply andb_true_iff in H. destruct H as [H1 H2].
    apply Nat.eqb_eq in H1. apply IH in H2. congruence.
  - inversion H; subst. rewrite Nat.eqb_refl. simpl. apply IH. reflexivity.
Qed.

Lemma all_len_iff {A : Type} n (m : list (list A)) :
  all_len n m = true <-> Forall (fun r => length r = n) m.
Proof.
  unfold all_len. rewrite forallb_forall, Forall_forall.
  split; intros H r Hr; specialize (H r Hr); apply Nat.eqb_eq; assumption.
Qed.

Lemma nth_ext_eq {A : Type} (a b : list A) d :
  length a = length b -> (forall i, i < length a -> nth i a d = nth i b d) -> a = b.
Proof.
  intros HL H. apply (nth_ext a b d d HL). exact H.
Qed.

Lemma Forall_nth_in {A : Type} (P : A -> Prop) l i d :
  Forall P l -> i < length l -> P (nth i l d).
Proof. intros H Hi. rewrite Forall_forall in H. apply H. apply nth_In. exact Hi. Qed.

Lemma mapR_Ok_map {A B : Type} (f : A -> result B) (k : A -> B) l :
  (forall a, In a l -> f a = Ok (k a)) -> mapR f l = Ok (map k l).
Proof.
  induction l as [|a l IH]; intros H; simpl; [reflexivity|].
  rewrite H by (left; reflexivity). simpl. rewrite IH; [reflexivity|].
  intros; apply H; right; assumption.
Qed.

Lemma mapR_Ok_inv {A B : Type} (f : A -> result B) l bs :
  mapR f l = Ok bs -> Forall2 (fun a b => f a = Ok b) l bs.
Proof.
  revert bs. induction l as [|a l IH]; simpl; intros bs H.
  - inversion H. constructor.
  - apply rbind_Ok in H. destruct H as (b & Hb & H).
    apply rbind_Ok in H. destruct H as (bs' & Hbs & H). inversion H; subst.
    constructor; auto.
Qed.

Lemma mapR_combine_map2 {A B C : Type} (f : A * B -> result C) (k : A -> B -> C) a b :
  (forall x y, In (x, y) (combine a b) -> f (x, y) = Ok (k x y)) ->
  mapR f (combine a b) = Ok (map2 k a b).
Proof.
  intros H. unfold map2. apply mapR_Ok_map. intros [x y] Hin. simpl. apply H. exact Hin.
Qed.

Lemma map2_map_same {A B C D : Type} (k : B -> C -> D) (F : A -> B) (G : A -> C) l :
  map2 k (map F l) (map G l) = map (fun a => k (F a) (G a)) l.
Proof.
  unfold map2. induction l as [|a l IH]; simpl; [reflexivity|]. rewrite IH. reflexivity.
Qed.

Lemma mapi_ext_in {A B : Type} (f g : nat -> A -> B) l d :
  (forall i, i < length l -> f i (nth i l d) = g i (nth i l d)) -> mapi f l = mapi g l.
Proof.
  intros H. apply (nth_ext_eq _ _ (f 0 d)).
  - rewrite !mapi_length. reflexivity.
  - intros i Hi. rewrite mapi_length in Hi.
    rewrite (mapi_nth f l d) by assumption.
    rewrite (mapi_nth g l d (f 0 d)) by assumption. apply H. assumption.
Qed.

Lemma combine_map_r {A B C : Type} (g : B -> C) (a : list A) (b : list B) :
  combine a (map g b) = map (fun p => (fst p, g (snd p))) (combine a b).
Proof.
  revert b. induction a as [|x a IH]; intros [|y b]; simpl; try reflexivity.
  rewrite IH. reflexivity.
Qed.

Lemma mapi_map {A B C : Type} (f : nat -> B -> C) (g : A -> B) l :
  mapi f (map g l) = mapi (fun i a => f i (g a)) l.
Proof.
  unfold mapi, map2. rewrite length_map, combine_map_r, map_map. reflexivity.
Qed.

Lemma map_mapi {A B C : Type} (g : B -> C) (f : nat -> A -> B) l :
  map g (mapi f l) = mapi (fun i a => g (f i a)) l.
Proof. unfold mapi, map2. rewrite map_map. reflexivity. Qed.

Lemma map2_firstn {A B C : Type} (f : A -> B -> C) n a b :
  firstn n (map2 f a b) = map2 f (firstn n a) (firstn n b).
Proof.
  unfold map2. rewrite firstn_map. f_equal.
  revert a b. induction n as [|n IH]; intros [|x a] [|y b]; simpl; try reflexivity.
  rewrite IH. reflexivity.
Qed.

Lemma mapi_firstn {A B : Type} (f : nat -> A -> B) n l :
  firstn n (mapi f l) = mapi f (firstn n l).
Proof.
  unfold mapi. rewrite map2_firstn. f_equal.
  rewrite length_firstn.
  destruct (Nat.le_gt_cases n (length l)) as [H|H].
  - rewrite Nat.min_l by lia. replace (length l) with (n + (length l - n)) by lia.
    rewrite seq_app, firstn_app, length_seq, Nat.sub_diag. simpl.
    rewrite app_nil_r. apply firstn_all2. rewrite length_seq. lia.
  - rewrite Nat.min_r by lia. apply firstn_all2. rewrite length_seq. lia.
Qed.

(** A row masked above position [i]: its head, then the fill value. *)
Lemma mapi_threshold {A B : Type} (F : A -> B) (G : B) i l :
  mapi (fun j a => if j <=? i then F a else G) l
  = map F (firstn (S i) l) ++ repeat G (length l - S i).
Proof.
  apply (nth_ext_eq _ _ G).
  - rewrite mapi_length, length_app, length_map, length_firstn, repeat_length. lia.
  - intros j Hj. rewrite mapi_length in Hj.
    destruct l as [|d l']; [simpl in Hj; lia|]. remember (d :: l') as l.
    rewrite (mapi_nth _ l d) by assumption.
    destruct (Nat.leb_spec j i) as [Hle|Hgt].
    + rewrite app_nth1 by (rewrite length_map, length_firstn; lia).
      rewrite (nth_indep _ G (F d)) by (rewrite length_map, length_firstn; lia).
      rewrite map_nth. rewrite nth_firstn.
      destruct (Nat.ltb_spec j (S i)); [reflexivity|lia].
    + rewrite app_nth2 by (rewrite length_map, length_firstn; lia).
      rewrite nth_repeat. reflexivity.
Qed.

(** ** Sums and dot products *)

Lemma rsum_app a b : rsum (a ++ b) = (rsum a + rsum b)%R.
Proof. induction a as [|x a IH]; simpl; [lra|]. rewrite IH. lra. Qed.

Lemma rsum_map_scale (c : R) l : rsum (map (fun a => (a / c)%R) l) = (rsum l / c)%R.
Proof. induction l as [|x l IH]; simpl; [lra|]. rewrite IH. lra. Qed.

Lemma rsum_pos l : l <> [] -> Forall (fun a => (0 < a)%R) l -> (0 < rsum l)%R.
Proof.
  intros Hne H. induction H as [|x l Hx Hl IH]; [congruence|]. simpl.
  destruct l as [|y l]; [simpl; lra|].
  assert (0 < rsum (y :: l))%R by (apply IH; discriminate). lra.
Qed.

Lemma rsum_nonneg l : Forall (fun a => (0 <= a)%R) l -> (0 <= rsum l)%R.
Proof. intros H. induction H as [|x l Hx Hl IH]; simpl; lra. Qed.

Lemma dot_nil_r a : dot a [] = 0%R.
Proof. unfold dot, map2. destruct a; reflexivity. Qed.

Lemma dot_cons x a y b : dot (x :: a) (y :: b) = (x * y + dot a b)%R.
Proof. reflexivity. Qed.

Lemma dot_app_zeros a n b : dot (a ++ repeat 0%R n) b = dot a b.
Proof.
  revert b n. induction a as [|x a IH]; intros b n; simpl.
  - revert b. induction n as [|n IHn]; intros [|y b]; simpl; try reflexivity.
    rewrite dot_cons, IHn. unfold dot, map2. simpl. lra.
  - destruct b as [|y b]; [rewrite !dot_nil_r; reflexivity|].
    rewrite !dot_cons, IH. reflexivity.
Qed.

Lemma dot_firstn_r a b : dot a b = dot a (firstn (length a) b).
Proof.
  revert b. induction a as [|x a IH]; intros [|y b]; simpl; try reflexivity.
  rewrite !dot_cons, <- IH. reflexivity.
Qed.

Lemma dot_bigsum n a b :
  length a = n -> length b = n ->
  dot a b = bigsum n (fun e => (nth e a 0 * nth e b 0)%R).
Proof.
  unfold bigsum. revert a b. induction n as [|n IH]; intros [|x a] [|y b] Ha Hb;
    simpl in *; try discriminate; [reflexivity|].
  rewrite dot_cons. rewrite <- seq_shift, map_map. rewrite (IH a b) by lia. reflexivity.
Qed.

(** ** Softmax *)

Lemma eexp_nonneg a : (0 <= eexp a)%R.
Proof. destruct a; simpl; [left; apply exp_pos|lra]. Qed.

Lemma rsum_eexp_nonneg row : (0 <= rsum (map eexp row))%R.
Proof.
  apply rsum_nonneg. rewrite Forall_forall. intros a Ha.
  apply in_map_iff in Ha. destruct Ha as (e & <- & _). apply eexp_nonneg.
Qed.

Lemma rsum_eexp_pos row : softmax_defined row -> (0 < rsum (map eexp row))%R.
Proof.
  intros (j & r & H). revert j H. induction row as [|a row IH]; intros j H.
  - destruct j; discriminate.
  - simpl. pose proof (rsum_eexp_nonneg row) as Hn. destruct j as [|j]; simpl in H.
    + inversion H; subst. simpl. pose proof (exp_pos r). lra.
    + pose proof (IH j H). pose proof (eexp_nonneg a). lra.
Qed.

Lemma softmax_length row : length (softmax row) = length row.
Proof. unfold softmax. apply length_map. Qed.

Lemma softmax_sum_one row : softmax_defined row -> rsum (softmax row) = 1%R.
Proof.
  intros H. apply rsum_eexp_pos in H. unfold softmax.
  rewrite <- (map_map eexp (fun a => (a / rsum (map eexp row))%R)).
  rewrite rsum_map_scale. field. lra.
Qed.

Lemma rsum_eexp_finite l : rsum (map eexp (map Finite l)) = rsum (map exp l).
Proof. rewrite map_map. reflexivity. Qed.

Lemma softmax_app_neginf row n :
  softmax (row ++ repeat NegInf n) = softmax row ++ repeat 0%R n.
Proof.
  unfold softmax. rewrite !map_app, rsum_app.
  assert (E : rsum (map eexp (repeat NegInf n)) = 0%R).
  { induction n as [|n IH]; simpl; [reflexivity|]. rewrite IH. lra. }
  rewrite E, Rplus_0_r. f_equal.
  clear E. induction n as [|n IH]; simpl; [reflexivity|]. rewrite IH. f_equal.
  unfold Rdiv. apply Rmult_0_l.
Qed.

Lemma softmax_nth row j :
  nth j (softmax row) 0%R = (eexp (nth j row NegInf) / rsum (map eexp row))%R.
Proof.
  unfold softmax.
  destruct (Nat.lt_ge_cases j (length row)) as [H|H].
  - rewrite (nth_indep _ 0%R (eexp NegInf / rsum (map eexp row))%R)
      by (rewrite length_map; assumption).
    rewrite (map_nth (fun a => (eexp a / rsum (map eexp row))%R)). reflexivity.
  - rewrite !nth_overflow by (rewrite ?length_map; assumption).
    simpl. unfold Rdiv. rewrite Rmult_0_l. reflexivity.
Qed.

Lemma softmax_finite_pos l :
  l <> [] -> Forall (fun a => (0 < a)%R) (softmax (map Finite l)).
Proof.
  intros Hne. unfold softmax. rewrite rsum_eexp_finite.
  assert (Hs : (0 < rsum (map exp l))%R).
  { apply rsum_pos; [destruct l; [congruence|discriminate]|].
    rewrite Forall_forall. intros a Ha. apply in_map_iff in Ha.
    destruct Ha as (e & <- & _). apply exp_pos. }
  rewrite Forall_forall. intros a Ha. apply in_map_iff in Ha.
  destruct Ha as (e & <- & He). apply in_map_iff in He. destruct He as (r & <- & _).
  simpl. apply Rdiv_lt_0_compat; [apply exp_pos|exact Hs].
Qed.

(** ** Shapes through the layers *)

Lemma shape3_forallb_all_len {A : Type} B T n (x : list (list (list A))) :
  shape3 B T n x -> forallb (all_len n) x = true.
Proof.
  intros [_ H]. apply forallb_forall. intros m Hm.
  rewrite Forall_forall in H. apply all_len_iff. apply (H m Hm).
Qed.

Lemma shape2_map {A B : Type} (f : list A -> list B) r c c' (m : list (list A)) :
  (forall v, length v = c -> length (f v) = c') ->
  shape2 r c m -> shape2 r c' (map f m).
Proof.
  intros Hf [Hl H]. split; [rewrite length_map; exact Hl|].
  rewrite Forall_map. eapply Forall_impl; [|exact H]. exact Hf.
Qed.

Lemma shape3_map_rows {A B : Type} (f : list A -> list B) b t c c' (x : list (list (list A))) :
  (forall v, length v = c -> length (f v) = c') ->
  shape3 b t c x -> shape3 b t c' (map (map f) x).
Proof.
  intros Hf [Hl H]. split; [rewrite length_map; exact Hl|].
  rewrite Forall_map. eapply Forall_impl; [|exact H].
  intros m Hm. eapply shape2_map; eassumption.
Qed.

Lemma shape3_map_elems {A B : Type} (f : A -> B) b t c (x : list (list (list A))) :
  shape3 b t c x -> shape3 b t c (map (map (map f)) x).
Proof. apply shape3_map_rows. intros v Hv. rewrite length_map. exact Hv. Qed.

Lemma shape3_dim1 {A : Type} b t c (x : list (list (list A))) :
  shape3 b t c x -> x = [] \/ length (hd [] x) = t.
Proof.
  intros [_ H]. destruct x as [|m x]; [left; reflexivity|right].
  simpl. exact (proj1 (Forall_inv H)).
Qed.

Lemma Linear_row_length n_in n_out l v :
  wf_Linear n_in n_out l -> length (Linear_row l v) = n_out.
Proof.
  intros (_ & _ & [Hw _] & Hb). unfold Linear_row.
  destruct (bias l) as [b|]; [unfold vadd; rewrite map2_length|];
    rewrite length_map; lia.
Qed.

Lemma Linear_forward_Ok n_in n_out l B T x :
  wf_Linear n_in n_out l -> shape3 B T n_in x ->
  Linear_forward l x = Ok (map (map (Linear_row l)) x)
  /\ shape3 B T n_out (map (map (Linear_row l)) x).
Proof.
  intros Hl Hx. split.
  - unfold Linear_forward. destruct Hl as (-> & _).
    rewrite (shape3_forallb_all_len Hx). reflexivity.
  - eapply shape3_map_rows; [|exact Hx]. intros v _. eapply Linear_row_length; eassumption.
Qed.

Lemma LayerNorm_row_length n ln v :
  wf_LayerNorm n ln -> length v = n -> length (LayerNorm_row ln v) = n.
Proof.
  intros (_ & Hw & Hb) Hv. unfold LayerNorm_row.
  rewrite !map2_length, length_map. lia.
Qed.

Lemma LayerNorm_forward_Ok n ln B T x :
  wf_LayerNorm n ln -> shape3 B T n x ->
  LayerNorm_forward ln x = Ok (map (map (LayerNorm_row ln)) x)
  /\ shape3 B T n (map (map (LayerNorm_row ln)) x).
Proof.
  intros Hl Hx. split.
  - unfold LayerNorm_forward. destruct Hl as (-> & _).
    rewrite (shape3_forallb_all_len Hx). reflexivity.
  - eapply shape3_map_rows; [|exact Hx]. intros v Hv. apply LayerNorm_row_length; assumption.
Qed.

Lemma row_lens_shape2 r c m : shape2 r c m -> row_lens m = repeat c r.
Proof.
  intros [Hl H]. subst r. unfold row_lens.
  induction H as [|v m Hv Hm IH]; simpl; [reflexivity|]. rewrite Hv, IH. reflexivity.
Qed.

Lemma add2_Ok r c a b :
  shape2 r c a -> shape2 r c b ->
  add2 a b = Ok (map2 vadd a b) /\ shape2 r c (map2 vadd a b).
Proof.
  intros Ha Hb. split.
  - unfold add2, same_shape2. rewrite (row_lens_shape2 Ha), (row_lens_shape2 Hb).
    replace (list_eqb _ _) with true; [reflexivity|].
    symmetry. apply list_eqb_eq. reflexivity.
  - destruct Ha as [Hla Ha], Hb as [Hlb Hb]. split.
    + rewrite map2_length. lia.
    + rewrite Forall_forall. intros v Hv. unfold map2 in Hv.
      apply in_map_iff in Hv. destruct Hv as ([x y] & <- & Hin). simpl.
      rewrite Forall_forall in Ha, Hb.
      unfold vadd. rewrite map2_length.
      rewrite (Ha x) by (eapply in_combine_l; eassumption).
      rewrite (Hb y) by (eapply in_combine_r; eassumption). lia.
Qed.

Lemma add3_Ok B T C x y :
  shape3 B T C x -> shape3 B T C y ->
  add3 x y = Ok (map2 (map2 vadd) x y) /\ shape3 B T C (map2 (map2 vadd) x y).
Proof.
  intros [Hlx Hx] [Hly Hy]. rewrite Forall_forall in Hx, Hy. split.
  - unfold add3. replace (length x =? length y) with true
      by (symmetry; apply Nat.eqb_eq; lia).
    apply mapR_combine_map2. intros a b Hin. simpl.
    eapply add2_Ok; [apply Hx; eapply in_combine_l|apply Hy; eapply in_combine_r]; eassumption.
  - split; [rewrite map2_length; lia|].
    rewrite Forall_forall. intros m Hm. unfold map2 in Hm at 1.
    apply in_map_iff in Hm. destruct Hm as ([a b] & <- & Hin). simpl.
    eapply add2_Ok; [apply Hx; eapply in_combine_l|apply Hy; eapply in_combine_r]; eassumption.
Qed.

(** ** Transposition and the product q @ k^T *)

Lemma map_seq_nth {A B : Type} (f : A -> B) l d :
  map (fun j => f (nth j l d)) (seq 0 (length l)) = map f l.
Proof.
  induction l as [|a l IH]; simpl; [reflexivity|].
  rewrite <- seq_shift, map_map. simpl. rewrite IH. reflexivity.
Qed.

Lemma shape2_ncols r c (m : mat) : shape2 r c m -> 0 < r -> ncols m = c.
Proof.
  intros [Hl H] Hr. unfold ncols. destruct m as [|v m]; [simpl in Hl; lia|].
  simpl. exact (Forall_inv H).
Qed.

Lemma col_length j (m : mat) : length (col j m) = length m.
Proof. unfold col. apply length_map. Qed.

Lemma nth_col j i (m : mat) : nth i (col j m) 0%R = nth j (nth i m []) 0%R.
Proof.
  unfold col.
  destruct (Nat.lt_ge_cases i (length m)) as [H|H].
  - rewrite (nth_indep _ 0%R (nth j [] 0%R)) by (rewrite length_map; assumption).
    rewrite (map_nth (fun r => nth j r 0%R)). reflexivity.
  - rewrite (nth_overflow (map _ m)) by (rewrite length_map; assumption).
    rewrite (nth_overflow m) by assumption. destruct j; reflexivity.
Qed.

Lemma col_transpose T hs (k : mat) j :
  shape2 T hs k -> j < T -> col j (transpose k) = nth j k [].
Proof.
  intros Hk Hj. assert (Hc : ncols k = hs) by (eapply shape2_ncols; [eassumption|lia]).
  destruct Hk as [Hl Hk]. unfold transpose. rewrite Hc.
  unfold col at 1. rewrite map_map.
  assert (Hr : length (nth j k []) = hs) by (apply Forall_nth_in; [assumption|lia]).
  rewrite <- Hr.
  transitivity (map (fun a : R => a) (nth j k [])); [|apply map_id].
  rewrite <- (map_seq_nth (fun a : R => a) (nth j k []) 0%R).
  apply map_ext. intros c. apply nth_col.
Qed.

Lemma ncols_transpose T hs (k : mat) :
  shape2 T hs k -> 0 < hs -> ncols (transpose k) = T.
Proof.
  intros Hk Hhs. destruct (Nat.eq_dec T 0) as [->|HT].
  - destruct Hk as [Hl _]. destruct k; [reflexivity|discriminate].
  - assert (Hc : ncols k = hs) by (eapply shape2_ncols; [eassumption|lia]).
    unfold transpose. rewrite Hc. destruct hs as [|hs]; [lia|].
    simpl. unfold ncols. simpl. rewrite col_length. apply Hk.
Qed.

Lemma matmul_transpose T hs (q k : mat) :
  shape2 T hs q -> shape2 T hs k -> 0 < hs ->
  matmul q (transpose k) = Ok (map (fun qi => map (dot qi) k) q).
Proof.
  intros Hq Hk Hhs. unfold matmul.
  assert (Hall : all_len (length (transpose k)) q = true).
  { apply all_len_iff. destruct (Nat.eq_dec T 0) as [->|HT].
    - destruct Hq as [Hl _]. destruct q; [constructor|discriminate].
    - unfold transpose. rewrite length_map, length_seq.
      rewrite (shape2_ncols Hk) by lia. apply Hq. }
  rewrite Hall. f_equal. apply map_ext. intros r.
  rewrite (ncols_transpose Hk Hhs).
  destruct Hk as [Hl Hk']. rewrite <- Hl.
  rewrite <- (map_seq_nth (dot r) k []).
  apply map_ext_in. intros j Hj. apply in_seq in Hj.
  rewrite (@col_transpose (length k) hs k j); [reflexivity|split; auto|lia].
Qed.

(** ** The causal mask *)

Lemma ones_nth bs i j : i < bs -> j < bs -> nth j (nth i (ones bs bs) []) 0%R = 1%R.
Proof.
  intros Hi Hj. unfold ones.
  rewrite (nth_repeat_lt (repeat 1%R bs) [] Hi). apply nth_repeat_lt. exact Hj.
Qed.

Lemma tril_ones_nth bs i j :
  i < bs -> j < bs ->
  nth j (nth i (torch_tril (ones bs bs)) []) 0%R = if j <=? i then 1%R else 0%R.
Proof.
  intros Hi Hj. unfold torch_tril.
  assert (Hl : length (ones bs bs) = bs) by (unfold ones; apply repeat_length).
  rewrite (mapi_nth _ (ones bs bs) []) by lia.
  assert (Hr : length (nth i (ones bs bs) []) = bs).
  { unfold ones. rewrite (nth_repeat_lt (repeat 1%R bs) [] Hi). apply repeat_length. }
  rewrite (mapi_nth _ (nth i (ones bs bs) []) 0%R) by lia.
  rewrite ones_nth by assumption. reflexivity.
Qed.

Lemma tril_ones_shape bs : shape2 bs bs (torch_tril (ones bs bs)).
Proof.
  unfold torch_tril. split.
  - rewrite mapi_length. unfold ones. apply repeat_length.
  - rewrite Forall_forall. intros r Hr. unfold mapi, map2 in Hr.
    apply in_map_iff in Hr. destruct Hr as ([i v] & <- & Hin). simpl.
    rewrite length_map, length_combine, length_seq, Nat.min_id.
    apply in_combine_r in Hin. unfold ones in Hin.
    apply repeat_spec in Hin. subst v. apply repeat_length.
Qed.

Lemma In_firstn {A : Type} n (l : list A) a : In a (firstn n l) -> In a l.
Proof.
  intros H. rewrite <- (firstn_skipn n l). apply in_or_app. left. exact H.
Qed.

Lemma slice2_shape r c n (m : mat) : shape2 n n m -> r <= n -> c <= n -> shape2 r c (slice2 r c m).
Proof.
  intros [Hl H] Hr Hc. unfold slice2. split.
  - rewrite length_map, length_firstn. lia.
  - rewrite Forall_map. rewrite Forall_forall in *. intros v Hv.
    rewrite length_firstn. rewrite (H v) by (eapply In_firstn; eassumption). lia.
Qed.

Lemma slice2_nth r c (m : mat) i j :
  i < r -> j < c -> nth j (nth i (slice2 r c m) []) 0%R = nth j (nth i m []) 0%R.
Proof.
  intros Hi Hj. unfold slice2.
  replace (@nil R) with (firstn c (@nil R)) at 1 by (destruct c; reflexivity).
  rewrite (map_nth (firstn c)). rewrite !nth_firstn.
  destruct (Nat.ltb_spec i r); [|lia]. destruct (Nat.ltb_spec j c); [|lia]. reflexivity.
Qed.

Lemma eq_zero_nth (m : mat) i j :
  i < length m -> j < length (nth i m []) ->
  nth j (nth i (eq_zero m) []) false = if Req_EM_T (nth j (nth i m []) 0%R) 0 then true else false.
Proof.
  intros Hi Hj. unfold eq_zero.
  rewrite (nth_indep _ [] (map (fun a => if Req_EM_T a 0 then true else false) []))
    by (rewrite length_map; assumption).
  rewrite (map_nth (map (fun a => if Req_EM_T a 0 then true else false))).
  rewrite (nth_indep _ false ((fun a => if Req_EM_T a 0 then true else false) 0%R))
    by (rewrite length_map; assumption).
  rewrite (map_nth (fun a => if Req_EM_T a 0 then true else false)). reflexivity.
Qed.

(** The mask the head applies on a context of length [T <= block_size]:
    T by T, and true exactly above the diagonal. *)
Lemma causal_mask_shape bs T :
  T <= bs -> shape2 T T (eq_zero (slice2 T T (torch_tril (ones bs bs)))).
Proof.
  intros HT. unfold eq_zero.
  apply shape2_map with (c := T); [intros v Hv; rewrite length_map; exact Hv|].
  eapply slice2_shape; [apply tril_ones_shape|lia|lia].
Qed.

Lemma causal_mask_nth bs T i j :
  T <= bs -> i < T -> j < T ->
  nth j (nth i (eq_zero (slice2 T T (torch_tril (ones bs bs)))) []) false = negb (j <=? i).
Proof.
  intros HT Hi Hj.
  pose proof (@slice2_shape T T bs _ (tril_ones_shape bs) HT HT) as [Hl Hr].
  assert (Hri : length (nth i (slice2 T T (torch_tril (ones bs bs))) []) = T)
    by (apply Forall_nth_in; [exact Hr|lia]).
  rewrite eq_zero_nth by lia.
  rewrite slice2_nth by assumption. rewrite tril_ones_nth by lia.
  destruct (j <=? i); simpl; destruct (Req_EM_T _ _) as [E|E]; try reflexivity; lra.
Qed.

(** ** The attention head in closed form *)





Lemma shape2_hd {A : Type} n (m : list (list A)) : shape2 n n m -> length (hd [] m) = n.
Proof.
  intros [Hl H]. destruct m as [|v m]; simpl in *; [lia|]. exact (Forall_inv H).
Qed.

Lemma mapR_combine_maps {A B C D : Type} (f : B * C -> result D)
    (F : A -> B) (G : A -> C) (k : A -> D) l :
  (forall a, In a l -> f (F a, G a) = Ok (k a)) ->
  mapR f (combine (map F l) (map G l)) = Ok (map k l).
Proof.
  induction l as [|a l IH]; intros H; simpl; [reflexivity|].
  rewrite H by (left; reflexivity). simpl. rewrite IH; [reflexivity|].
  intros; apply H; right; assumption.
Qed.

Lemma mapR_combine_map_r {A B C D : Type} (f : A * C -> result D)
    (G : B -> C) (k : A -> B -> D) a b :
  (forall x y, In (x, y) (combine a b) -> f (x, G y) = Ok (k x y)) ->
  mapR f (combine a (map G b)) = Ok (map2 k a b).
Proof.
  revert b. induction a as [|x a IH]; intros [|y b] H; simpl; try reflexivity.
  rewrite H by (left; reflexivity). simpl. unfold map2 in IH. rewrite IH; [reflexivity|].
  intros; apply H; right; assumption.
Qed.

Lemma masked_fill_causal bs T B (x : tensor3) :
  T <= bs -> shape3 B T T x ->
  masked_fill x (eq_zero (slice2 T T (torch_tril (ones bs bs))))
  = Ok (map (mapi (fun i r => mapi (fun j s => if j <=? i then Finite s else NegInf) r)) x).
Proof.
  intros HT [Hl Hx]. unfold masked_fill.
  pose proof (causal_mask_shape HT) as Hm.
  rewrite (shape2_hd Hm). destruct Hm as [Hm1 Hm2]. rewrite Hm1.
  rewrite Forall_forall in Hx.
  assert (Hchk : forallb (fun w : mat => bcast_ok T (length w)
                   && forallb (fun r => bcast_ok T (length r)) w) x = true).
  { apply forallb_forall. intros w Hw. destruct (Hx w Hw) as [Hw1 Hw2].
    unfold bcast_ok. rewrite Hw1, Nat.eqb_refl. simpl.
    apply forallb_forall. intros r Hr. rewrite Forall_forall in Hw2.
    rewrite (Hw2 r Hr), Nat.eqb_refl. reflexivity. }
  rewrite Hchk. f_equal. apply map_ext_in. intros w Hw.
  destruct (Hx w Hw) as [Hw1 Hw2].
  apply mapi_ext_in with (d := []). intros i Hi.
  assert (Hri : length (nth i w []) = T) by (apply Forall_nth_in; [exact Hw2|exact Hi]).
  apply mapi_ext_in with (d := 0%R). intros j Hj.
  assert (Eix : forall n, n < T -> bcast_ix T n = n).
  { intros n Hn. unfold bcast_ix. destruct (Nat.eqb_spec T 1); [lia|reflexivity]. }
  rewrite !Eix by lia. rewrite (causal_mask_nth HT) by lia.
  destruct (j <=? i); reflexivity.
Qed.

Lemma Head_masked_Ok bs C hs h B T x :
  wf_Head bs C hs h -> shape3 B T C x -> T <= bs ->
  Head_masked h x = Ok (map (causal_scores h) x)
  /\ shape3 B T T (map (causal_scores h) x).
Proof.
  intros (Hk & _ & Hq & _ & _ & _ & Htril & Hhs) Hx HT.
  assert (Hsh : shape3 B T T (map (causal_scores h) x)).
  { destruct Hx as [Hl Hx]. split; [rewrite length_map; exact Hl|].
    rewrite Forall_map. eapply Forall_impl; [|exact Hx]. intros xb [Hb _].
    unfold causal_scores. split.
    - rewrite mapi_length, length_map. exact Hb.
    - rewrite Forall_forall. intros r Hr. unfold mapi at 1, map2 in Hr.
      apply in_map_iff in Hr. destruct Hr as ([i qi] & <- & _). simpl.
      rewrite mapi_length, length_map. exact Hb. }
  split; [|exact Hsh]. unfold Head_masked.
  destruct (Linear_forward_Ok Hk Hx) as [-> HK].
  destruct (Linear_forward_Ok Hq Hx) as [-> HQ]. simpl.
  assert (Ebmm : bmm (map (map (Linear_row (query h))) x)
                     (map transpose (map (map (Linear_row (key h))) x))
                 = Ok (map (fun xb => map (fun qi => map (dot qi) (map (Linear_row (key h)) xb))
                                          (map (Linear_row (query h)) xb)) x)).
  { unfold bmm. rewrite !length_map, Nat.eqb_refl. rewrite (map_map _ transpose).
    apply mapR_combine_maps. intros xb Hin. simpl.
    destruct Hx as [_ Hx]. rewrite Forall_forall in Hx. specialize (Hx xb Hin).
    apply (@matmul_transpose T hs); [| |exact Hhs].
    - eapply shape2_map; [|exact Hx]. intros v _. eapply Linear_row_length; eassumption.
    - eapply shape2_map; [|exact Hx]. intros v _. eapply Linear_row_length; eassumption. }
  rewrite Ebmm. simpl.
  assert (Eout : out_features (key h) = hs) by apply Hk.
  unfold pow_neg_half. rewrite Eout. destruct (Nat.eqb_spec hs 0) as [E0|_]; [lia|]. simpl.
  rewrite Htril.
  destruct (shape3_dim1 Hx) as [->|Hd]; [reflexivity|]. unfold dim1. rewrite Hd.
  rewrite (@masked_fill_causal bs T B); [|exact HT|].
  - f_equal. unfold smul. rewrite !map_map. apply map_ext. intros xb.
    unfold causal_scores, head_scale. rewrite Eout.
    rewrite !mapi_map. apply mapi_ext_in with (d := []). intros i _.
    rewrite !mapi_map. reflexivity.
  - apply shape3_map_elems.
    destruct Hx as [Hl Hx]. split; [rewrite length_map; exact Hl|].
    rewrite Forall_map. eapply Forall_impl; [|exact Hx]. intros xb [Hb _]. split.
    + rewrite !length_map. exact Hb.
    + rewrite Forall_map. rewrite Forall_forall. intros v _. rewrite !length_map. exact Hb.
Qed.

Lemma Head_wei_Ok bs C hs h B T x :
  wf_Head bs C hs h -> shape3 B T C x -> T <= bs ->
  Head_wei h x = Ok (map (fun xb => map softmax (causal_scores h xb)) x)
  /\ shape3 B T T (map (fun xb => map softmax (causal_scores h xb)) x).
Proof.
  intros Hh Hx HT. destruct (Head_masked_Ok Hh Hx HT) as [E Hs]. split.
  - unfold Head_wei. rewrite E. simpl. rewrite map_map. reflexivity.
  - rewrite <- (map_map (causal_scores h) (map softmax)).
    eapply shape3_map_rows; [|exact Hs]. intros v Hv. rewrite softmax_length. exact Hv.
Qed.

Lemma weighted_values_shape bs C hs h T (wb xb : mat) :
  wf_Head bs C hs h -> length wb = T -> shape2 T hs (weighted_values h wb xb).
Proof.
  intros (_ & _ & _ & _ & Hv & _) Hw. unfold weighted_values. split.
  - rewrite length_map. exact Hw.
  - rewrite Forall_map, Forall_forall. intros w _. rewrite length_map, length_seq. apply Hv.
Qed.

Lemma bmm_values bs C hs h B T (w x : tensor3) :
  wf_Head bs C hs h -> shape3 B T C x -> shape3 B T T w ->
  bmm w (map (map (Linear_row (value h))) x) = Ok (map2 (weighted_values h) w x)
  /\ shape3 B T hs (map2 (weighted_values h) w x).
Proof.
  intros Hh [Hlx Hx] [Hlw Hw]. rewrite Forall_forall in Hx, Hw. split.
  - unfold bmm. rewrite length_map.
    replace (length w =? length x) with true by (symmetry; apply Nat.eqb_eq; lia).
    apply mapR_combine_map_r. intros wb xb Hin. simpl.
    destruct (Hw wb (in_combine_l _ _ _ _ Hin)) as [Hw1 Hw2].
    destruct (Hx xb (in_combine_r _ _ _ _ Hin)) as [Hx1 Hx2].
    unfold matmul. rewrite length_map, Hx1.
    replace (all_len T wb) with true by (symmetry; apply all_len_iff; exact Hw2).
    unfold weighted_values. f_equal. apply map_ext_in. intros r Hr.
    destruct (Nat.eq_dec T 0) as [E0|HT].
    + subst T. destruct wb; [contradiction|discriminate].
    + destruct Hh as (_ & _ & _ & _ & Hv & _).
      erewrite (@shape2_ncols T hs); [|eapply shape2_map; [|split; [exact Hx1|exact Hx2]];
        intros v _; eapply Linear_row_length; eassumption|lia].
      replace (out_features (value h)) with hs by (symmetry; apply Hv). reflexivity.
  - split; [rewrite map2_length; lia|].
    rewrite Forall_forall. intros m Hm. unfold map2 in Hm. apply in_map_iff in Hm.
    destruct Hm as ([wb xb] & <- & Hin). simpl.
    eapply weighted_values_shape; [exact Hh|].
    apply (Hw wb (in_combine_l _ _ _ _ Hin)).
Qed.

(** ** Dropout keeps the shape *)

Lemma Forall2_shape3 {A B : Type} (P : A -> B -> Prop) b t c
    (x : list (list (list A))) (y : list (list (list B))) :
  Forall2 (Forall2 (Forall2 P)) x y -> shape3 b t c x -> shape3 b t c y.
Proof.
  intros H [Hl Hx]. split; [rewrite <- (Forall2_length H); exact Hl|].
  clear Hl. induction H as [|m m' x y Hm _ IH]; [constructor|].
  constructor; [|apply IH; exact (Forall_inv_tail Hx)].
  destruct (Forall_inv Hx) as [Hl Hr]. split; [rewrite <- (Forall2_length Hm); exact Hl|].
  clear Hl IH Hx. induction Hm as [|r r' m m' Hrr _ IH]; [constructor|].
  constructor; [|apply IH; exact (Forall_inv_tail Hr)].
  rewrite <- (Forall2_length Hrr). exact (Forall_inv Hr).
Qed.

Lemma dropout1_returns p x : returns (dropout1 p x) (fun _ => True).
Proof.
  intros g. unfold dropout1, bind, draw, ret. eexists. eexists. split; [reflexivity|exact I].
Qed.

Lemma Dropout_forward_returns training d B T C x :
  shape3 B T C x ->
  returns (Dropout_forward training d x)
          (fun y => shape3 B T C y /\ (training = false -> y = x)).
Proof.
  intros Hx. unfold Dropout_forward. destruct training.
  - eapply returns_weaken.
    + apply returns_mapM with (P := fun m m' => Forall2 (Forall2 (fun _ _ : R => True)) m m').
      intros m _. apply returns_mapM with (P := fun r r' => Forall2 (fun _ _ : R => True) r r').
      intros r _. apply returns_mapM with (P := fun _ _ : R => True).
      intros a _. apply dropout1_returns.
    + intros y Hy. split; [eapply Forall2_shape3; eassumption|discriminate].
  - apply returns_ret. split; [exact Hx|reflexivity].
Qed.

Lemma Dropout_forward_eval d x g : Dropout_forward false d x g = Ok (x, g).
Proof. reflexivity. Qed.

(** ** Head.forward returns *)

Lemma map2_map_l {A B C : Type} (k : B -> A -> C) (F : A -> B) l :
  map2 k (map F l) l = map (fun a => k (F a) a) l.
Proof.
  unfold map2. induction l as [|a l IH]; simpl; [reflexivity|]. rewrite IH. reflexivity.
Qed.

(** Every run of the head: the weights of line 79 go through dropout, and
    the output is the product of the result with the values. *)
Lemma Head_forward_run bs C hs training h B T x g :
  wf_Head bs C hs h -> shape3 B T C x -> T <= bs ->
  exists w g',
    Dropout_forward training (Head_dropout h)
      (map (fun xb => map softmax (causal_scores h xb)) x) g = Ok (w, g')
    /\ shape3 B T T w
    /\ (training = false -> w = map (fun xb => map softmax (causal_scores h xb)) x)
    /\ Head_forward training h x g = Ok (map2 (weighted_values h) w x, g')
    /\ shape3 B T hs (map2 (weighted_values h) w x).
Proof.
  intros Hh Hx HT. destruct (Head_wei_Ok Hh Hx HT) as [Ew Hw].
  destruct (Dropout_forward_returns training (Head_dropout h) Hw g) as (w & g' & Ed & Hs & He).
  exists w, g'. split; [exact Ed|]. split; [exact Hs|]. split; [exact He|].
  destruct (bmm_values Hh Hx Hs) as [Eb Hb]. split; [|exact Hb].
  unfold Head_forward, bind. rewrite Ew. simpl. rewrite Ed.
  assert (Hv : wf_Linear C hs (value h)) by apply Hh.
  destruct (Linear_forward_Ok Hv Hx) as [-> _]. simpl. rewrite Eb. reflexivity.
Qed.

Lemma Head_forward_returns bs C hs training h B T x :
  wf_Head bs C hs h -> shape3 B T C x -> T <= bs ->
  returns (Head_forward training h x)
          (fun out => shape3 B T hs out /\ (training = false -> out = map (head_eval h) x)).
Proof.
  intros Hh Hx HT g.
  destruct (Head_forward_run training g Hh Hx HT) as (w & g' & _ & _ & He & E & Hs).
  exists (map2 (weighted_values h) w x), g'. split; [exact E|]. split; [exact Hs|].
  intros Htr. rewrite (He Htr).
  rewrite (map2_map_l (weighted_values h) (fun xb => map softmax (causal_scores h xb))).
  reflexivity.
Qed.

(** ** Concatenating the heads *)

Lemma shape3_BT_lens b t c (x : tensor3) :
  shape3 b t c x -> map (@length (list R)) x = repeat t b.
Proof.
  intros [Hl H]. subst b. induction H as [|m x Hm _ IH]; simpl; [reflexivity|].
  destruct Hm as [-> _]. rewrite IH. reflexivity.
Qed.

Lemma shape3_cat2 b t c1 c2 (x y : tensor3) :
  shape3 b t c1 x -> shape3 b t c2 y ->
  shape3 b t (c1 + c2) (map2 (map2 (@app R)) x y).
Proof.
  intros [Hlx Hx] [Hly Hy]. rewrite Forall_forall in Hx, Hy.
  split; [rewrite map2_length; lia|].
  rewrite Forall_forall. intros m Hm. unfold map2 in Hm at 1. apply in_map_iff in Hm.
  destruct Hm as ([a b'] & <- & Hin). simpl.
  destruct (Hx a (in_combine_l _ _ _ _ Hin)) as [Ha1 Ha2].
  destruct (Hy b' (in_combine_r _ _ _ _ Hin)) as [Hb1 Hb2].
  split; [rewrite map2_length; lia|].
  rewrite Forall_forall in *. intros r Hr. unfold map2 in Hr. apply in_map_iff in Hr.
  destruct Hr as ([u v] & <- & Hin2). simpl. rewrite length_app.
  rewrite (Ha2 u (in_combine_l _ _ _ _ Hin2)), (Hb2 v (in_combine_r _ _ _ _ Hin2)).
  reflexivity.
Qed.

Lemma cat_last_Ok b t c (outs : list tensor3) :
  outs <> [] -> Forall (shape3 b t c) outs ->
  exists o, cat_last outs = Ok o /\ shape3 b t (c * length outs) o.
Proof.
  intros Hne H. induction H as [|o os Ho Hos IH]; [congruence|].
  destruct os as [|o2 os].
  - exists o. split; [reflexivity|]. simpl. rewrite Nat.mul_1_r. exact Ho.
  - destruct IH as (rest & Er & Hr); [discriminate|].
    exists (map2 (map2 (@app R)) o rest). split.
    + change (cat_last (o :: o2 :: os))
        with (rbind (cat_last (o2 :: os))
                (fun rest => if same_shape_BT o rest
                             then Ok (map2 (map2 (@app R)) o rest)
                             else Err RuntimeError)).
      rewrite Er. simpl. unfold same_shape_BT.
      rewrite (shape3_BT_lens Ho), (shape3_BT_lens Hr).
      replace (list_eqb _ _) with true; [reflexivity|].
      symmetry. apply list_eqb_eq. reflexivity.
    + replace (c * length (o :: o2 :: os)) with (c + c * length (o2 :: os))
        by (simpl; lia).
      apply shape3_cat2; assumption.
Qed.

(** ** The layers above the head return, with the shape of their input *)

Lemma Forall2_Forall_r {A B : Type} (Q : B -> Prop) (l : list A) (l' : list B) :
  Forall2 (fun _ b => Q b) l l' -> Forall Q l'.
Proof. intros H. induction H; constructor; assumption. Qed.

Lemma returns_Linear n_in n_out l B T x :
  wf_Linear n_in n_out l -> shape3 B T n_in x ->
  returns (lift (Linear_forward l x)) (shape3 B T n_out).
Proof.
  intros Hl Hx. destruct (Linear_forward_Ok Hl Hx) as [E Hs].
  eapply returns_lift; eassumption.
Qed.

Lemma returns_LayerNorm n ln B T x :
  wf_LayerNorm n ln -> shape3 B T n x ->
  returns (lift (LayerNorm_forward ln x)) (shape3 B T n).
Proof.
  intros Hl Hx. destruct (LayerNorm_forward_Ok Hl Hx) as [E Hs].
  eapply returns_lift; eassumption.
Qed.

Lemma returns_add3 B T C x y :
  shape3 B T C x -> shape3 B T C y -> returns (lift (add3 x y)) (shape3 B T C).
Proof.
  intros Hx Hy. destruct (add3_Ok Hx Hy) as [E Hs]. eapply returns_lift; eassumption.
Qed.

Lemma returns_Dropout training d B T C x :
  shape3 B T C x -> returns (Dropout_forward training d x) (shape3 B T C).
Proof.
  intros Hx. eapply returns_weaken; [apply Dropout_forward_returns; exact Hx|].
  intros y [Hy _]. exact Hy.
Qed.

Lemma MultiHeadAttention_forward_returns bs C hs training a B T x :
  wf_MultiHeadAttention bs C hs a -> shape3 B T C x -> T <= bs ->
  returns (MultiHeadAttention_forward training a x) (shape3 B T C).
Proof.
  intros (Hne & Hheads & Hproj) Hx HT. unfold MultiHeadAttention_forward.
  eapply returns_bind.
  { apply returns_mapM with (P := fun _ out => shape3 B T hs out).
    intros h Hin. rewrite Forall_forall in Hheads.
    eapply returns_weaken; [eapply Head_forward_returns; [apply Hheads; exact Hin|exact Hx|exact HT]|].
    intros out [Ho _]. exact Ho. }
  intros outs Houts.
  assert (Hlen : length outs = length (heads a)) by (symmetry; eapply Forall2_length; eassumption).
  destruct (@cat_last_Ok B T hs outs) as (o & Eo & Ho).
  { destruct outs; [|discriminate]. destruct (heads a); [congruence|discriminate]. }
  { eapply Forall2_Forall_r. exact Houts. }
  eapply returns_bind; [eapply returns_lift; [exact Eo|exact Ho]|].
  intros o' Ho'. rewrite Hlen in Ho'.
  eapply returns_bind; [eapply returns_Linear; eassumption|].
  intros y Hy. apply returns_Dropout. exact Hy.
Qed.

Lemma FeedForward_forward_returns C training f B T x :
  wf_FeedForward C f -> shape3 B T C x ->
  returns (FeedForward_forward training f x) (shape3 B T C).
Proof.
  intros [H0 H2] Hx. unfold FeedForward_forward.
  eapply returns_bind; [eapply returns_Linear; eassumption|].
  intros a Ha.
  eapply returns_bind; [eapply returns_Linear; [exact H2|]|].
  { unfold ReLU_forward. apply shape3_map_elems. exact Ha. }
  intros b Hb. apply returns_Dropout. exact Hb.
Qed.

Lemma Block_forward_returns bs C training b B T x :
  wf_Block bs C b -> shape3 B T C x -> T <= bs ->
  returns (Block_forward training b x) (shape3 B T C).
Proof.
  intros ((hs & Hsa) & Hff & H1 & H2) Hx HT. unfold Block_forward.
  eapply returns_bind; [eapply returns_LayerNorm; eassumption|].
  intros n1 Hn1.
  eapply returns_bind; [eapply MultiHeadAttention_forward_returns; eassumption|].
  intros a Ha.
  eapply returns_bind; [eapply returns_add3; eassumption|].
  intros x1 Hx1.
  eapply returns_bind; [eapply returns_LayerNorm; eassumption|].
  intros n2 Hn2.
  eapply returns_bind; [eapply FeedForward_forward_returns; eassumption|].
  intros f Hf. eapply returns_add3; eassumption.
Qed.

(** ** The embeddings *)

Lemma Embedding_lookup_lt e i :
  i < num_embeddings e -> Embedding_lookup e i = Ok (nth i (emb_weight e) []).
Proof.
  intros H. unfold Embedding_lookup.
  destruct (Nat.eqb_spec (num_embeddings e) 0); [lia|].
  destruct (Nat.ltb_spec i (num_embeddings e)); [reflexivity|lia].
Qed.

Lemma Embedding_lookup_ge e i :
  0 < num_embeddings e -> num_embeddings e <= i -> Embedding_lookup e i = Err IndexError.
Proof.
  intros H0 H. unfold Embedding_lookup.
  destruct (Nat.eqb_spec (num_embeddings e) 0); [lia|].
  destruct (Nat.ltb_spec i (num_embeddings e)); [lia|reflexivity].
Qed.

Lemma Embedding_lookup_empty e i :
  num_embeddings e = 0 -> Embedding_lookup e i = Err RuntimeError.
Proof. intros H. unfold Embedding_lookup. rewrite H. reflexivity. Qed.

Lemma Embedding_lookup_error e i err :
  0 < num_embeddings e -> Embedding_lookup e i = Err err -> err = IndexError.
Proof.
  intros H0. unfold Embedding_lookup.
  destruct (Nat.eqb_spec (num_embeddings e) 0); [lia|].
  destruct (i <? num_embeddings e); congruence.
Qed.

Lemma token_embedding_Ok V C e B T (toks : list (list nat)) :
  wf_Embedding V C e -> shape2 B T toks -> Forall (Forall (fun t => t < V)) toks ->
  mapR (mapR (Embedding_lookup e)) toks
    = Ok (map (map (fun t => nth t (emb_weight e) [])) toks)
  /\ shape3 B T C (map (map (fun t => nth t (emb_weight e) [])) toks).
Proof.
  intros (Hn & _ & Hw) [Hl Hr] Hv. rewrite Forall_forall in Hv, Hr. split.
  - apply mapR_Ok_map. intros row Hrow. apply mapR_Ok_map. intros t Ht.
    specialize (Hv row Hrow). rewrite Forall_forall in Hv.
    specialize (Hv t Ht). apply Embedding_lookup_lt. lia.
  - split; [rewrite length_map; exact Hl|].
    rewrite Forall_map, Forall_forall. intros row Hrow.
    split; [rewrite length_map; apply Hr; exact Hrow|].
    rewrite Forall_map, Forall_forall. intros t Ht.
    specialize (Hv row Hrow). rewrite Forall_forall in Hv. specialize (Hv t Ht).
    destruct Hw as [Hwl Hwr]. apply Forall_nth_in; [exact Hwr|lia].
Qed.

Lemma position_embedding_Ok bs C e T :
  wf_Embedding bs C e -> T <= bs ->
  mapR (Embedding_lookup e) (seq 0 T) = Ok (map (fun i => nth i (emb_weight e) []) (seq 0 T))
  /\ shape2 T C (map (fun i => nth i (emb_weight e) []) (seq 0 T)).
Proof.
  intros (Hn & _ & [Hwl Hwr]) HT. split.
  - apply mapR_Ok_map. intros i Hi. apply in_seq in Hi.
    apply Embedding_lookup_lt. lia.
  - split; [rewrite length_map, length_seq; reflexivity|].
    rewrite Forall_map, Forall_forall. intros i Hi. apply in_seq in Hi.
    apply Forall_nth_in; [exact Hwr|lia].
Qed.

Lemma mapR_only_error {A B : Type} (f : A -> result B) (e : error) l :
  (forall a, In a l -> forall e', f a = Err e' -> e' = e) ->
  forall e', mapR f l = Err e' -> e' = e.
Proof.
  induction l as [|a l IH]; intros H e' E; simpl in E; [discriminate|].
  destruct (f a) as [b|e1] eqn:Ea; simpl in E.
  - destruct (mapR f l) as [bs|e2] eqn:El; simpl in E; [discriminate|].
    inversion E; subst. apply IH; [intros; eapply H; [right|]; eassumption|reflexivity].
  - inversion E; subst. eapply H; [left; reflexivity|exact Ea].
Qed.

Lemma Forall2_In_l {A B : Type} (P : A -> B -> Prop) l l' a :
  Forall2 P l l' -> In a l -> exists b, P a b.
Proof.
  intros H. induction H as [|x y l l' Hxy _ IH]; intros Hin; [contradiction|].
  destruct Hin as [->|Hin]; [exists y; exact Hxy|apply IH; exact Hin].
Qed.

(** Past the end of a position table that has rows the lookup raises
    IndexError. *)
Lemma position_embedding_Err bs C e T :
  wf_Embedding bs C e -> 0 < bs -> bs < T ->
  mapR (Embedding_lookup e) (seq 0 T) = Err IndexError.
Proof.
  intros (Hn & _ & _) Hbs HT.
  destruct (mapR (Embedding_lookup e) (seq 0 T)) as [rows|e'] eqn:E.
  - apply mapR_Ok_inv in E.
    destruct (@Forall2_In_l _ _ _ _ _ bs E) as (b & Hb); [apply in_seq; lia|].
    rewrite Embedding_lookup_ge in Hb by lia. discriminate.
  - f_equal. eapply mapR_only_error; [|exact E].
    intros a _ e1. apply Embedding_lookup_error. lia.
Qed.

Lemma add_bcast_Ok B T C (x : tensor3) (p : mat) :
  shape3 B T C x -> shape2 T C p ->
  add_bcast x p = Ok (map (fun m => map2 vadd m p) x)
  /\ shape3 B T C (map (fun m => map2 vadd m p) x).
Proof.
  intros [Hl Hx] Hp. rewrite Forall_forall in Hx. split.
  - unfold add_bcast. apply mapR_Ok_map. intros m Hm.
    apply (add2_Ok (Hx m Hm) Hp).
  - split; [rewrite length_map; exact Hl|].
    rewrite Forall_map, Forall_forall. intros m Hm. apply (add2_Ok (Hx m Hm) Hp).
Qed.

(** ** The network with dropout off, one sequence at a time *)







Lemma Head_forward_eval bs C hs h B T x g :
  wf_Head bs C hs h -> shape3 B T C x -> T <= bs ->
  Head_forward false h x g = Ok (map (head_eval h) x, g)
  /\ shape3 B T hs (map (head_eval h) x).
Proof.
  intros Hh Hx HT.
  destruct (Head_forward_run false g Hh Hx HT) as (w & g' & Ed & _ & He & E & Hs).
  rewrite Dropout_forward_eval in Ed. inversion Ed; subst w g'.
  rewrite (map2_map_l (weighted_values h) (fun xb => map softmax (causal_scores h xb))) in E, Hs.
  split; assumption.
Qed.

Lemma heads_eval bs C hs (l : list Head) B T x g :
  Forall (wf_Head bs C hs) l -> shape3 B T C x -> T <= bs ->
  mapM (fun h => Head_forward false h x) l g
  = Ok (map (fun h => map (head_eval h) x) l, g).
Proof.
  intros Hl Hx HT. induction Hl as [|h l Hh _ IH]; [reflexivity|].
  simpl. unfold bind. rewrite (proj1 (Head_forward_eval g Hh Hx HT)).
  rewrite IH. reflexivity.
Qed.

Lemma cat_last_eval bs C hs (l : list Head) B T x :
  l <> [] -> Forall (wf_Head bs C hs) l -> shape3 B T C x -> T <= bs ->
  cat_last (map (fun h => map (head_eval h) x) l) = Ok (map (mha_cat l) x)
  /\ shape3 B T (hs * length l) (map (mha_cat l) x).
Proof.
  intros Hne Hl Hx HT. induction Hl as [|h l Hh Hl IH]; [congruence|].
  pose proof (proj2 (Head_forward_eval (fun _ => 0%R) Hh Hx HT)) as Hsh.
  destruct l as [|h2 l].
  - simpl. rewrite Nat.mul_1_r. split; [reflexivity|exact Hsh].
  - destruct IH as [Er Hr]; [discriminate|].
    assert (Ecat : map (mha_cat (h :: h2 :: l)) x
                   = map2 (map2 (@app R)) (map (head_eval h) x) (map (mha_cat (h2 :: l)) x)).
    { rewrite map2_map_same. reflexivity. }
    rewrite Ecat. split.
    + change (map (fun h0 => map (head_eval h0) x) (h :: h2 :: l))
        with (map (head_eval h) x :: map (fun h0 => map (head_eval h0) x) (h2 :: l)).
      remember (map (fun h0 => map (head_eval h0) x) (h2 :: l)) as rest eqn:Erest.
      destruct rest as [|r0 rest]; [discriminate|].
      change (cat_last (map (head_eval h) x :: r0 :: rest))
        with (rbind (cat_last (r0 :: rest))
                (fun rest' => if same_shape_BT (map (head_eval h) x) rest'
                              then Ok (map2 (map2 (@app R)) (map (head_eval h) x) rest')
                              else Err RuntimeError)).
      rewrite Er. unfold rbind, same_shape_BT.
      rewrite (shape3_BT_lens Hsh), (shape3_BT_lens Hr).
      replace (list_eqb _ _) with true; [reflexivity|].
      symmetry. apply list_eqb_eq. reflexivity.
    + replace (hs * length (h :: h2 :: l)) with (hs + hs * length (h2 :: l))
        by (simpl; lia).
      apply shape3_cat2; assumption.
Qed.

Lemma MultiHeadAttention_forward_eval bs C hs a B T x g :
  wf_MultiHeadAttention bs C hs a -> shape3 B T C x -> T <= bs ->
  MultiHeadAttention_forward false a x g = Ok (map (mha_eval a) x, g)
  /\ shape3 B T C (map (mha_eval a) x).
Proof.
  intros (Hne & Hheads & Hproj) Hx HT.
  destruct (cat_last_eval Hne Hheads Hx HT) as [Ec Hc].
  destruct (Linear_forward_Ok Hproj Hc) as [El Hl].
  rewrite map_map in El, Hl. split; [|exact Hl].
  unfold MultiHeadAttention_forward, bind.
  rewrite (heads_eval g Hheads Hx HT). simpl. rewrite Ec. simpl. rewrite El. reflexivity.
Qed.

Lemma FeedForward_forward_eval C f B T x g :
  wf_FeedForward C f -> shape3 B T C x ->
  FeedForward_forward false f x g = Ok (map (ffwd_eval f) x, g)
  /\ shape3 B T C (map (ffwd_eval f) x).
Proof.
  intros [H0 H2] Hx.
  destruct (Linear_forward_Ok H0 Hx) as [E0 Hs0].
  assert (Hr : shape3 B T (4 * C) (ReLU_forward (map (map (Linear_row (net0 f))) x)))
    by (apply shape3_map_elems; exact Hs0).
  destruct (Linear_forward_Ok H2 Hr) as [E2 Hs2].
  assert (Eform : map (map (Linear_row (net2 f))) (ReLU_forward (map (map (Linear_row (net0 f))) x))
                  = map (ffwd_eval f) x).
  { unfold ReLU_forward, ffwd_eval. rewrite !map_map. apply map_ext. intros xb.
    rewrite !map_map. reflexivity. }
  rewrite Eform in E2, Hs2. split; [|exact Hs2].
  unfold FeedForward_forward, bind. rewrite E0. simpl. rewrite E2. reflexivity.
Qed.

Lemma Block_forward_eval bs C b B T x g :
  wf_Block bs C b -> shape3 B T C x -> T <= bs ->
  Block_forward false b x g = Ok (map (block_eval b) x, g)
  /\ shape3 B T C (map (block_eval b) x).
Proof.
  intros ((hs & Hsa) & Hff & H1 & H2) Hx HT.
  destruct (LayerNorm_forward_Ok H1 Hx) as [E1 Hs1].
  destruct (MultiHeadAttention_forward_eval g Hsa Hs1 HT) as [Ea Hsa'].
  destruct (add3_Ok Hx Hsa') as [Eadd Hsadd].
  destruct (LayerNorm_forward_Ok H2 Hsadd) as [E2 Hs2].
  destruct (FeedForward_forward_eval g Hff Hs2) as [Ef Hsf].
  destruct (add3_Ok Hsadd Hsf) as [Eadd2 Hsadd2].
  assert (Eform : map2 (map2 vadd) (map2 (map2 vadd) x
                     (map (mha_eval (sa b)) (map (map (LayerNorm_row (ln1 b))) x)))
                   (map (ffwd_eval (ffwd b)) (map (map (LayerNorm_row (ln2 b)))
                     (map2 (map2 vadd) x
                        (map (mha_eval (sa b)) (map (map (LayerNorm_row (ln1 b))) x)))))
                  = map (block_eval b) x).
  { assert (Ex1 : map2 (map2 vadd) x
                    (map (mha_eval (sa b)) (map (map (LayerNorm_row (ln1 b))) x))
                  = map (fun xb => map2 vadd xb
                           (mha_eval (sa b) (map (LayerNorm_row (ln1 b)) xb))) x).
    { rewrite map_map. rewrite <- (map_id x) at 1. rewrite map2_map_same. reflexivity. }
    rewrite Ex1. rewrite !map_map. rewrite map2_map_same. reflexivity. }
  rewrite Eform in Eadd2, Hsadd2. split; [|exact Hsadd2].
  unfold Block_forward, bind. rewrite E1. simpl. rewrite Ea. rewrite Eadd. simpl.
  rewrite E2. simpl. rewrite Ef. rewrite Eadd2. reflexivity.
Qed.

Lemma blocks_eval bs C (bl : list Block) B T x g :
  Forall (wf_Block bs C) bl -> shape3 B T C x -> T <= bs ->
  foldM (fun x b => Block_forward false b x) bl x g
  = Ok (map (fun xb => fold_left (fun x b => block_eval b x) bl xb) x, g)
  /\ shape3 B T C (map (fun xb => fold_left (fun x b => block_eval b x) bl xb) x).
Proof.
  intros Hbl. revert x. induction Hbl as [|b bl Hb _ IH]; intros x Hx HT.
  - simpl. rewrite map_id. split; [reflexivity|exact Hx].
  - destruct (Block_forward_eval g Hb Hx HT) as [Eb Hsb].
    destruct (IH _ Hsb HT) as [Er Hsr]. rewrite map_map in Er, Hsr.
    split; [|exact Hsr]. simpl. unfold bind. rewrite Eb. exact Er.
Qed.

(** ** GPTLanguageModel.forward *)

Lemma embed_Ok bs C V m B T idx :
  wf_GPT bs C V m -> token_batch V B T idx -> T <= bs ->
  exists tok pos,
    mapR (mapR (Embedding_lookup (token_embedding m))) (elems idx) = Ok tok
    /\ mapR (Embedding_lookup (position_embedding_table m)) (seq 0 (size1 idx)) = Ok pos
    /\ add_bcast tok pos = Ok (map (embed m) (elems idx))
    /\ shape3 B T C (map (embed m) (elems idx)).
Proof.
  intros (Hte & Hpe & _) (H0 & H1 & Hsh & Hv) HT.
  destruct (token_embedding_Ok Hte Hsh Hv) as [Et Hst].
  destruct (position_embedding_Ok Hpe HT) as [Ep Hsp].
  destruct (add_bcast_Ok Hst Hsp) as [Ea Hsa].
  assert (Eform : map (fun mt => map2 vadd mt
                     (map (fun i => nth i (emb_weight (position_embedding_table m)) [])
                          (seq 0 T)))
                    (map (map (fun t => nth t (emb_weight (token_embedding m)) [])) (elems idx))
                  = map (embed m) (elems idx)).
  { rewrite map_map. apply map_ext_in. intros row Hrow. unfold embed.
    destruct Hsh as [_ Hr]. rewrite Forall_forall in Hr. rewrite (Hr row Hrow). reflexivity. }
  rewrite Eform in Ea, Hsa.
  eexists. eexists. rewrite H1. split; [exact Et|]. split; [exact Ep|]. split; assumption.
Qed.

Lemma shape3_concat {A : Type} B T C (x : list (list (list A))) :
  shape3 B T C x -> shape2 (B * T) C (concat x).
Proof.
  intros [Hl H]. subst B. induction H as [|m x [Hm1 Hm2] _ [IH1 IH2]]; simpl.
  - split; [reflexivity|constructor].
  - split; [rewrite length_app, IH1, Hm1; reflexivity|].
    apply Forall_app. split; assumption.
Qed.

Lemma exp_le_rsum t row : t < length row -> (exp (nth t row 0) <= rsum (map exp row))%R.
Proof.
  revert t. induction row as [|a row IH]; intros t Ht; simpl in *; [lia|].
  assert (Hn : (0 <= rsum (map exp row))%R).
  { apply rsum_nonneg. rewrite Forall_map, Forall_forall. intros; left; apply exp_pos. }
  destruct t as [|t].
  - lra.
  - pose proof (IH t ltac:(lia)). pose proof (exp_pos a). lra.
Qed.

Lemma nll_row_Ok row t :
  t < length row ->
  nll_row row t = Ok (ln (rsum (map exp row)) - nth t row 0)%R
  /\ (0 <= ln (rsum (map exp row)) - nth t row 0)%R.
Proof.
  intros Ht. split.
  - unfold nll_row. destruct (Nat.ltb_spec t (length row)); [reflexivity|lia].
  - pose proof (exp_le_rsum row Ht) as Hle.
    pose proof (exp_pos (nth t row 0%R)) as Hp.
    assert (ln (exp (nth t row 0)) <= ln (rsum (map exp row)))%R.
    { destruct Hle as [Hlt|Heq]; [left; apply ln_increasing; assumption|rewrite <- Heq; right; reflexivity]. }
    rewrite ln_exp in H. lra.
Qed.

(** The loss of a row is minus the log of the probability softmax gives the
    target. *)
Lemma nll_row_softmax row t :
  t < length row ->
  (ln (rsum (map exp row)) - nth t row 0 = - ln (nth t (softmax (map Finite row)) 0))%R.
Proof.
  intros Ht. rewrite softmax_nth, rsum_eexp_finite.
  rewrite (nth_indep _ NegInf (Finite 0)) by (rewrite length_map; exact Ht).
  rewrite (map_nth Finite). simpl.
  pose proof (exp_le_rsum row Ht). pose proof (exp_pos (nth t row 0%R)).
  unfold Rdiv. rewrite ln_mult; [|assumption|apply Rinv_0_lt_compat; lra].
  rewrite ln_Rinv by lra. rewrite ln_exp. lra.
Qed.

Lemma cross_entropy_Ok N V (input : mat) (target : list nat) :
  shape2 N V input -> length target = N -> Forall (fun t => t < V) target ->
  exists ls,
    ls = map2 (fun row t => (ln (rsum (map exp row)) - nth t row 0)%R) input target
    /\ length ls = N
    /\ Forall (fun a => (0 <= a)%R) ls
    /\ cross_entropy input target
       = Ok (match ls with [] => Snan | _ => Snum (rsum ls / INR (length ls)) end).
Proof.
  intros [Hl Hr] Ht Hv. eexists. split; [reflexivity|].
  split; [rewrite map2_length; lia|]. rewrite Forall_forall in Hr, Hv. split.
  - rewrite Forall_forall. intros a Ha. unfold map2 in Ha. apply in_map_iff in Ha.
    destruct Ha as ([row t] & <- & Hin). simpl. apply nll_row_Ok.
    rewrite (Hr row (in_combine_l _ _ _ _ Hin)). apply Hv. eapply in_combine_r; eassumption.
  - unfold cross_entropy.
    replace (length input =? length target) with true by (symmetry; apply Nat.eqb_eq; lia).
    rewrite (@mapR_combine_map2 _ _ _ _
               (fun row t => (ln (rsum (map exp row)) - nth t row 0)%R)); [reflexivity|].
    intros row t Hin. simpl. apply nll_row_Ok.
    rewrite (Hr row (in_combine_l _ _ _ _ Hin)). apply Hv. eapply in_combine_r; eassumption.
Qed.

Lemma Forall_concat {A : Type} (P : A -> Prop) (l : list (list A)) :
  Forall (Forall P) l -> Forall P (concat l).
Proof.
  intros H. induction H as [|x l Hx _ IH]; simpl; [constructor|].
  apply Forall_app. split; assumption.
Qed.

Lemma shape2_concat_length {A : Type} B T (l : list (list A)) :
  shape2 B T l -> length (concat l) = B * T.
Proof.
  intros [Hl H]. subst B. induction H as [|x l Hx _ IH]; simpl; [reflexivity|].
  rewrite length_app, IH, Hx. reflexivity.
Qed.

(** Up to the logits: every run with a valid batch no longer than the
    context window returns logits of shape (B, T, vocab_size). *)
Lemma GPT_logits_returns bs C V training m B T idx :
  wf_GPT bs C V m -> token_batch V B T idx -> T <= bs ->
  forall (K : Type) (k : tensor3 -> M K) (Q : K -> Prop),
    (forall logits, shape3 B T V logits -> returns (k logits) Q) ->
    returns (tok_emb <- lift (mapR (mapR (Embedding_lookup (token_embedding m))) (elems idx)) ;;
             pos_emb <- lift (mapR (Embedding_lookup (position_embedding_table m))
                                   (seq 0 (size1 idx))) ;;
             x <- lift (add_bcast tok_emb pos_emb) ;;
             x <- foldM (fun x b => Block_forward training b x) (blocks m) x ;;
             x <- lift (LayerNorm_forward (ln_f m) x) ;;
             logits <- lift (Linear_forward (lm_head m) x) ;;
             k logits)%gen Q.
Proof.
  intros Hm Hidx HT K k Q Hk.
  destruct (embed_Ok Hm Hidx HT) as (tok & pos & Et & Ep & Ea & Hs).
  destruct Hm as (_ & _ & Hbl & Hlnf & Hlm).
  intros g. unfold bind at 1. rewrite Et. simpl. unfold bind at 1. rewrite Ep. simpl.
  unfold bind at 1. rewrite Ea. simpl. revert g. fold (returns
    (x <- foldM (fun x b => Block_forward training b x) (blocks m) (map (embed m) (elems idx)) ;;
     x <- lift (LayerNorm_forward (ln_f m) x) ;;
     logits <- lift (Linear_forward (lm_head m) x) ;; k logits)%gen Q).
  eapply returns_bind.
  { apply returns_foldM with (I := shape3 B T C); [|exact Hs].
    intros x b Hin Hx. rewrite Forall_forall in Hbl.
    apply Block_forward_returns with (bs := bs); [apply Hbl; exact Hin|exact Hx|exact HT]. }
  intros x Hx. eapply returns_bind; [eapply returns_LayerNorm; eassumption|].
  intros y Hy. eapply returns_bind; [eapply returns_Linear; eassumption|].
  exact Hk.
Qed.

(** ** The concrete model is well formed *)

Lemma shape2_repeat {A : Type} r c (v : list A) : length v = c -> shape2 r c (repeat v r).
Proof.
  intros Hv. split; [apply repeat_length|].
  rewrite Forall_forall. intros u Hu. apply repeat_spec in Hu. subst u. exact Hv.
Qed.

Lemma zero_Linear_wf n_in n_out b : wf_Linear n_in n_out (zero_Linear n_in n_out b).
Proof.
  unfold wf_Linear, zero_Linear. simpl. repeat split.
  - apply repeat_length.
  - apply shape2_repeat. apply repeat_length.
  - destruct b; [apply repeat_length|exact I].
Qed.

Lemma LayerNorm_init_wf n : wf_LayerNorm n (LayerNorm_init n).
Proof. unfold wf_LayerNorm, LayerNorm_init. simpl. rewrite !repeat_length. auto. Qed.

Lemma zero_Embedding_wf num dim : wf_Embedding num dim (zero_Embedding num dim).
Proof.
  unfold wf_Embedding, zero_Embedding. simpl. repeat split.
  - apply repeat_length.
  - apply shape2_repeat. apply repeat_length.
Qed.

Lemma zero_Head_wf bs C hs : 0 < hs -> wf_Head bs C hs (zero_Head bs C hs).
Proof.
  intros Hhs. unfold wf_Head, zero_Head. simpl.
  repeat split; try apply zero_Linear_wf; try reflexivity; try exact Hhs.
Qed.

Lemma zero_Block_wf bs C nh : 0 < nh -> nh <= C -> wf_Block bs C (zero_Block bs C nh).
Proof.
  intros Hnh Hle. unfold wf_Block, zero_Block. simpl. split; [|split; [|split]].
  - exists (C / nh). unfold wf_MultiHeadAttention. simpl. split; [|split].
    + destruct nh; [lia|discriminate].
    + rewrite Forall_forall. intros h Hh. apply repeat_spec in Hh. subst h.
      apply zero_Head_wf. apply Nat.div_str_pos. lia.
    + rewrite repeat_length. apply zero_Linear_wf.
  - split; apply zero_Linear_wf.
  - apply LayerNorm_init_wf.
  - apply LayerNorm_init_wf.
Qed.

Lemma zero_GPT_wf bs C nh nl V :
  0 < nh -> nh <= C -> wf_GPT bs C V (zero_GPT bs C nh nl V).
Proof.
  intros Hnh Hle. unfold wf_GPT, zero_GPT. simpl.
  split; [apply zero_Embedding_wf|]. split; [apply zero_Embedding_wf|].
  split; [|split; [apply LayerNorm_init_wf|apply zero_Linear_wf]].
  rewrite Forall_forall. intros b Hb. apply repeat_spec in Hb. subst b.
  apply zero_Block_wf; assumption.
Qed.

Lemma script_model_wf : wf_GPT Hyper.block_size Hyper.n_embd 65 script_model.
Proof.
  apply zero_GPT_wf; unfold Hyper.n_head, Hyper.n_embd; lia.
Qed.

Lemma zero_batch_tokens V B T : 0 < V -> token_batch V B T (zero_batch B T).
Proof.
  intros HV. unfold token_batch, zero_batch. simpl.
  split; [reflexivity|]. split; [reflexivity|].
  split; [apply shape2_repeat; apply repeat_length|].
  rewrite Forall_forall. intros r Hr. apply repeat_spec in Hr. subst r.
  rewrite Forall_forall. intros t Ht. apply repeat_spec in Ht. subst t. exact HV.
Qed.

(** ** Causality of the network with dropout off *)


Lemma firstn_min_length {A : Type} n (l : list A) : firstn (Nat.min n (length l)) l = firstn n l.
Proof.
  destruct (Nat.le_gt_cases n (length l)) as [H|H].
  - rewrite Nat.min_l by lia. reflexivity.
  - rewrite Nat.min_r by lia. rewrite firstn_all. symmetry. apply firstn_all2. lia.
Qed.

Lemma col_firstn c n (m : mat) : firstn n (col c m) = col c (firstn n m).
Proof. unfold col. apply firstn_map. Qed.

Lemma head_eval_rows h xb :
  head_eval h xb
  = mapi (fun i qi => attn_row h qi (firstn (S i) (map (Linear_row (key h)) xb))
                               (firstn (S i) (map (Linear_row (value h)) xb)))
         (map (Linear_row (query h)) xb).
Proof.
  unfold head_eval, weighted_values, causal_scores.
  rewrite !map_mapi. apply mapi_ext_in with (d := []). intros i _.
  unfold attn_row. apply map_ext. intros c.
  rewrite mapi_threshold with (F := fun kj => Finite (dot (nth i (map (Linear_row (query h)) xb) []) kj * head_scale h)).
  rewrite softmax_app_neginf, dot_app_zeros.
  rewrite dot_firstn_r. rewrite softmax_length, length_map, length_firstn.
  rewrite col_firstn.
  replace (length (map (Linear_row (key h)) xb))
    with (length (map (Linear_row (value h)) xb)) by (rewrite !length_map; reflexivity).
  rewrite firstn_min_length. reflexivity.
Qed.

Lemma head_eval_causal h n xb : firstn n (head_eval h xb) = head_eval h (firstn n xb).
Proof.
  rewrite !head_eval_rows. rewrite mapi_firstn, !firstn_map.
  apply mapi_ext_in with (d := []). intros i Hi.
  rewrite length_map, length_firstn in Hi.
  rewrite <- !firstn_map. rewrite !firstn_firstn.
  replace (Nat.min (S i) n) with (S i) by lia. reflexivity.
Qed.

Lemma mha_cat_causal hs n xb : firstn n (mha_cat hs xb) = mha_cat hs (firstn n xb).
Proof.
  induction hs as [|h hs IH].
  - apply firstn_nil.
  - destruct hs as [|h2 hs].
    + apply head_eval_causal.
    + change (mha_cat (h :: h2 :: hs) xb)
        with (map2 (@app R) (head_eval h xb) (mha_cat (h2 :: hs) xb)).
      change (mha_cat (h :: h2 :: hs) (firstn n xb))
        with (map2 (@app R) (head_eval h (firstn n xb)) (mha_cat (h2 :: hs) (firstn n xb))).
      rewrite map2_firstn, head_eval_causal, IH. reflexivity.
Qed.

Lemma mha_eval_causal a n xb : firstn n (mha_eval a xb) = mha_eval a (firstn n xb).
Proof. unfold mha_eval. rewrite firstn_map, mha_cat_causal. reflexivity. Qed.

Lemma ffwd_eval_causal f n xb : firstn n (ffwd_eval f xb) = ffwd_eval f (firstn n xb).
Proof. unfold ffwd_eval. rewrite !firstn_map. reflexivity. Qed.

Lemma block_eval_causal b n xb : firstn n (block_eval b xb) = block_eval b (firstn n xb).
Proof.
  unfold block_eval. cbv zeta.
  rewrite map2_firstn, ffwd_eval_causal, firstn_map, map2_firstn, mha_eval_causal, firstn_map.
  reflexivity.
Qed.

Lemma blocks_eval_causal (bl : list Block) n xb :
  firstn n (fold_left (fun x b => block_eval b x) bl xb)
  = fold_left (fun x b => block_eval b x) bl (firstn n xb).
Proof.
  revert xb. induction bl as [|b bl IH]; intros xb; [reflexivity|].
  simpl. rewrite IH, block_eval_causal. reflexivity.
Qed.

Lemma firstn_seq_min n a len : firstn n (seq a len) = seq a (Nat.min n len).
Proof.
  revert a len. induction n as [|n IH]; intros a [|len]; simpl; try reflexivity.
  rewrite IH. reflexivity.
Qed.

Lemma embed_causal m n toks : firstn n (embed m toks) = embed m (firstn n toks).
Proof.
  unfold embed. rewrite map2_firstn, !firstn_map, firstn_seq_min, length_firstn.
  reflexivity.
Qed.

(** The logits of a prefix are the prefix of the logits. *)
Lemma gpt_eval_causal m n toks : firstn n (gpt_eval m toks) = gpt_eval m (firstn n toks).
Proof.
  unfold gpt_eval. rewrite !firstn_map, blocks_eval_causal, embed_causal. reflexivity.
Qed.

(** With dropout off, [forward] without targets is [gpt_eval] on every row,
    and it leaves the generator alone. *)
Lemma GPT_forward_eval bs C V m B T idx g :
  wf_GPT bs C V m -> token_batch V B T idx -> T <= bs ->
  GPT_forward false m idx None g = Ok ((Logits3 (map (gpt_eval m) (elems idx)), None), g)
  /\ shape3 B T V (map (gpt_eval m) (elems idx)).
Proof.
  intros Hm Hidx HT.
  destruct (embed_Ok Hm Hidx HT) as (tok & pos & Et & Ep & Ea & Hs).
  destruct Hm as (_ & _ & Hbl & Hlnf & Hlm).
  destruct (blocks_eval g Hbl Hs HT) as [Eb Hsb]. rewrite map_map in Eb, Hsb.
  destruct (LayerNorm_forward_Ok Hlnf Hsb) as [El Hsl]. rewrite map_map in El, Hsl.
  destruct (Linear_forward_Ok Hlm Hsl) as [Eh Hsh]. rewrite map_map in Eh, Hsh.
  split; [|exact Hsh].
  unfold GPT_forward, bind. rewrite Et. simpl. rewrite Ep. simpl. rewrite Ea. simpl.
  rewrite Eb. rewrite El. simpl. rewrite Eh. reflexivity.
Qed.

(** ** The integer parts of the script on small inputs *)

Example crop_keeps_the_last_tokens :
  crop 2 (mkLong 1 3 [[5; 6; 7]]) = mkStrided 1 2 3 1 [[6; 7]].
Proof. reflexivity. Qed.

Example crop_short_context_is_whole :
  crop 4 (mkLong 1 3 [[5; 6; 7]]) = mkLong 1 3 [[5; 6; 7]].
Proof. reflexivity. Qed.

Example cat1_appends_a_column :
  cat1 (mkLong 2 2 [[1; 2]; [3; 4]]) [9; 8] = Ok (mkLong 2 3 [[1; 2; 9]; [3; 4; 8]]).
Proof. reflexivity. Qed.

Example select_last_of_no_time_step :
  select_last 0 (Logits3 [[]]) = Err IndexError.
Proof. reflexivity. Qed.

Example floordiv_script_heads : floordiv Hyper.n_embd Hyper.n_head = Ok 64.
Proof. reflexivity. Qed.

Example floordiv_five_heads : floordiv Hyper.n_embd 5 = Ok 76.
Proof. reflexivity. Qed.

Example view1_wrong_count : view1 4 (mkLong 1 3 [[0; 1; 2]]) = Err RuntimeError.
Proof. reflexivity. Qed.

(** The transpose of a contiguous (3, 2) tensor has strides (1, 2): [view]
    refuses it; a column cut out of a (3, 5) tensor has strides (5, 1) and
    one element per row: [view] takes it. *)
Example view1_transposed :
  view1 6 (mkStrided 2 3 1 2 [[0; 2; 4]; [1; 3; 5]]) = Err RuntimeError.
Proof. reflexivity. Qed.

Example view1_column : view1 3 (mkStrided 3 1 5 1 [[0]; [1]; [2]]) = Ok [0; 1; 2].
Proof. reflexivity. Qed.

Example lookup_in_empty_table :
  Embedding_lookup (mkEmbedding 0 4 []) 0 = Err RuntimeError
  /\ Embedding_lookup (mkEmbedding 1 4 [[0; 0; 0; 0]%R]) 1 = Err IndexError.
Proof. split; reflexivity. Qed.

Example eval_due_first_and_last :
  eval_due Hyper.max_iters Hyper.eval_interval 0 = true
  /\ eval_due Hyper.max_iters Hyper.eval_interval 1 = false
  /\ eval_due Hyper.max_iters Hyper.eval_interval 4999 = true.
Proof. repeat split; vm_compute; reflexivity. Qed.

(* ================================================================== *)
(** * Part III: the properties of the specification *)
(* ================================================================== *)

(** ** C5: the context window is the boundary of [forward] *)

Lemma token_lookup_only_IndexError e (toks : list (list nat)) err :
  0 < num_embeddings e ->
  mapR (mapR (Embedding_lookup e)) toks = Err err -> err = IndexError.
Proof.
  intros H0. apply mapR_only_error. intros row _. apply mapR_only_error.
  intros t _ e'. apply Embedding_lookup_error. exact H0.
Qed.

(** Past the end of the position table the lookup raises, whatever the
    table. *)
Lemma position_embedding_raises bs C e T :
  wf_Embedding bs C e -> bs < T ->
  exists err, mapR (Embedding_lookup e) (seq 0 T) = Err err.
Proof.
  intros (Hn & _ & _) HT.
  destruct (mapR (Embedding_lookup e) (seq 0 T)) as [rows|e'] eqn:E; [|exists e'; reflexivity].
  apply mapR_Ok_inv in E.
  destruct (@Forall2_In_l _ _ _ _ _ bs E) as (b & Hb); [apply in_seq; lia|].
  unfold Embedding_lookup in Hb. rewrite Hn in Hb.
  destruct (bs =? 0); [discriminate|].
  destruct (Nat.ltb_spec bs bs); [lia|discriminate].
Qed.

(** C5.  On a well-formed model, [forward] on a batch [idx] of valid tokens of
    length exactly [block_size] returns (from every generator state, in
    either mode) logits of shape (B, block_size, vocab_size); on any batch
    [idx'] of length [block_size + 1] it raises, whatever the targets, at the
    position-embedding lookup or before it, so no logits are produced; when
    neither embedding table is empty ([block_size >= 1] and
    [vocab_size >= 1]) the error is IndexError. *)
Theorem forward_context_boundary :
  forall bs C V training m B idx idx' targets g,
    wf_GPT bs C V m ->
    token_batch V B bs idx ->
    size1 idx' = bs + 1 ->
    returns (GPT_forward training m idx None)
            (fun out => exists logits,
                 out = (Logits3 logits, None) /\ shape3 B bs V logits)
    /\ (exists e,
          mapR (Embedding_lookup (position_embedding_table m)) (seq 0 (size1 idx')) = Err e)
    /\ (exists e, GPT_forward training m idx' targets g = Err e)
    /\ (0 < bs -> 0 < V ->
          mapR (Embedding_lookup (position_embedding_table m)) (seq 0 (size1 idx'))
            = Err IndexError
          /\ GPT_forward training m idx' targets g = Err IndexError).
Proof.
  intros bs C V training m B idx idx' targets g Hm Hidx HT. split; [|split; [|split]].
  - unfold GPT_forward.
    apply (GPT_logits_returns training Hm Hidx (Nat.le_refl bs)).
    intros logits Hl. apply returns_ret. exists logits. split; [reflexivity|exact Hl].
  - destruct Hm as (_ & Hpe & _). apply (position_embedding_raises Hpe). lia.
  - destruct Hm as (_ & Hpe & _).
    destruct (@position_embedding_raises bs C _ (size1 idx') Hpe ltac:(lia)) as [e Hpos].
    unfold GPT_forward, bind at 1.
    destruct (mapR (mapR (Embedding_lookup (token_embedding m))) (elems idx')) as [tok|e'] eqn:Et.
    + exists e. simpl. unfold bind at 1. rewrite Hpos. reflexivity.
    + exists e'. reflexivity.
  - intros Hbs HV.
    assert (Hpos : mapR (Embedding_lookup (position_embedding_table m)) (seq 0 (size1 idx'))
                   = Err IndexError).
    { destruct Hm as (_ & Hpe & _). apply (position_embedding_Err Hpe); lia. }
    split; [exact Hpos|].
    unfold GPT_forward, bind at 1.
    destruct (mapR (mapR (Embedding_lookup (token_embedding m))) (elems idx')) as [tok|e] eqn:Et.
    + simpl. unfold bind at 1. rewrite Hpos. reflexivity.
    + simpl. f_equal. eapply token_lookup_only_IndexError; [|exact Et].
      destruct Hm as ((Hn & _) & _). rewrite Hn. exact HV.
Qed.

Lemma forward_context_boundary_witness :
  returns (GPT_forward true script_model (zero_batch 1 Hyper.block_size) None)
          (fun out => exists logits,
               out = (Logits3 logits, None) /\ shape3 1 Hyper.block_size 65 logits)
  /\ mapR (Embedding_lookup (position_embedding_table script_model))
          (seq 0 (size1 (zero_batch 1 (Hyper.block_size + 1))))
      = Err IndexError
  /\ GPT_forward true script_model (zero_batch 1 (Hyper.block_size + 1)) None zero_gen
      = Err IndexError.
Proof.
  destruct (@forward_context_boundary Hyper.block_size Hyper.n_embd 65 true script_model 1
              (zero_batch 1 Hyper.block_size) (zero_batch 1 (Hyper.block_size + 1)) None
              zero_gen script_model_wf)
    as (Hok & _ & _ & Herr).
  - apply zero_batch_tokens. lia.
  - reflexivity.
  - split; [exact Hok|]. apply Herr.
    + unfold Hyper.block_size. lia.
    + lia.
Defined.

(** ** C1: causality of the forward pass *)

Lemma nth_map_in {A B : Type} (f : A -> B) l i da db :
  i < length l -> nth i (map f l) db = f (nth i l da).
Proof.
  intros H. rewrite (nth_indep _ db (f da)) by (rewrite length_map; exact H).
  apply map_nth.
Qed.

Lemma firstn_agree {A : Type} n (a b : list A) d :
  length a = length b ->
  (forall j, j < n -> nth j a d = nth j b d) -> firstn n a = firstn n b.
Proof.
  intros Hl H. apply (nth_ext_eq _ _ d).
  - rewrite !length_firstn. lia.
  - intros j Hj. rewrite length_firstn in Hj. rewrite !nth_firstn.
    destruct (Nat.ltb_spec j n); [apply H; assumption|reflexivity].
Qed.

(** C1.  Two runs of [forward] with dropout off, on token batches of one
    shape (B, T) with [T <= block_size] that agree on the positions [0..i]
    and may differ at every position after [i]: both return, and the logits
    at position [i] are the same in every batch row. *)
Theorem forward_causal :
  forall bs C V m B T idx idx' i g g',
    wf_GPT bs C V m ->
    token_batch V B T idx -> token_batch V B T idx' ->
    T <= bs -> i < T ->
    (forall b j, b < B -> j <= i ->
       nth j (nth b (elems idx) []) 0 = nth j (nth b (elems idx') []) 0) ->
    exists logits logits',
      GPT_forward false m idx None g = Ok ((Logits3 logits, None), g)
      /\ GPT_forward false m idx' None g' = Ok ((Logits3 logits', None), g')
      /\ shape3 B T V logits /\ shape3 B T V logits'
      /\ forall b, b < B -> nth i (nth b logits []) [] = nth i (nth b logits' []) [].
Proof.
  intros bs C V m B T idx idx' i g g' Hm Hidx Hidx' HT Hi Hagree.
  destruct (GPT_forward_eval g Hm Hidx HT) as [E Hs].
  destruct (GPT_forward_eval g' Hm Hidx' HT) as [E' Hs'].
  exists (map (gpt_eval m) (elems idx)), (map (gpt_eval m) (elems idx')).
  repeat (split; [assumption|]).
  intros b Hb.
  destruct Hidx as (_ & _ & [Hl Hr] & _), Hidx' as (_ & _ & [Hl' Hr'] & _).
  rewrite (@nth_map_in _ _ (gpt_eval m) (elems idx) b [] []) by lia.
  rewrite (@nth_map_in _ _ (gpt_eval m) (elems idx') b [] []) by lia.
  assert (Hpre : forall toks, nth i (gpt_eval m toks) [] = nth i (gpt_eval m (firstn (S i) toks)) []).
  { intros toks. rewrite <- gpt_eval_causal, nth_firstn.
    destruct (Nat.ltb_spec i (S i)); [reflexivity|lia]. }
  rewrite (Hpre (nth b (elems idx) [])), (Hpre (nth b (elems idx') [])).
  f_equal. f_equal. apply firstn_agree with (d := 0).
  - transitivity T; [|symmetry]; apply Forall_nth_in; (assumption || lia).
  - intros j Hj. apply Hagree; lia.
Qed.

Lemma forward_causal_witness :
  exists logits logits',
    GPT_forward false script_model (zero_batch 1 4) None zero_gen
      = Ok ((Logits3 logits, None), zero_gen)
    /\ GPT_forward false script_model (mkLong 1 4 [[0; 0; 1; 2]]) None zero_gen
       = Ok ((Logits3 logits', None), zero_gen)
    /\ shape3 1 4 65 logits /\ shape3 1 4 65 logits'
    /\ forall b, b < 1 -> nth 1 (nth b logits []) [] = nth 1 (nth b logits' []) [].
Proof.
  apply (@forward_causal Hyper.block_size Hyper.n_embd 65 script_model 1 4
           (zero_batch 1 4) (mkLong 1 4 [[0; 0; 1; 2]]) 1 zero_gen zero_gen).
  - exact script_model_wf.
  - apply zero_batch_tokens. lia.
  - unfold token_batch, shape2. simpl. repeat split; repeat constructor; lia.
  - unfold Hyper.block_size. lia.
  - lia.
  - intros b j Hb Hj. destruct b as [|b]; [|lia].
    destruct j as [|[|j]]; [reflexivity|reflexivity|lia].
Defined.

(** ** The rows of the masked scores *)


Lemma causal_scores_nth h xb i :
  i < length xb -> nth i (causal_scores h xb) [] = masked_row h xb i.
Proof.
  intros Hi. unfold causal_scores, masked_row.
  rewrite (@mapi_nth _ _ _ (map (Linear_row (query h)) xb) i [] [])
    by (rewrite length_map; exact Hi).
  reflexivity.
Qed.

Lemma masked_row_length h xb i : length (masked_row h xb i) = length xb.
Proof. unfold masked_row. rewrite mapi_length, length_map. reflexivity. Qed.

Lemma masked_row_nth h xb i j :
  j < length xb ->
  nth j (masked_row h xb i) NegInf
  = if j <=? i
    then Finite (dot (nth i (map (Linear_row (query h)) xb) [])
                     (nth j (map (Linear_row (key h)) xb) []) * head_scale h)
    else NegInf.
Proof.
  intros Hj. unfold masked_row.
  rewrite (@mapi_nth _ _ _ (map (Linear_row (key h)) xb) j [] NegInf)
    by (rewrite length_map; exact Hj).
  reflexivity.
Qed.

Lemma masked_row_defined h xb i : i < length xb -> softmax_defined (masked_row h xb i).
Proof.
  intros Hi. exists i. eexists.
  rewrite (nth_error_nth' _ NegInf) by (rewrite masked_row_length; exact Hi).
  rewrite masked_row_nth by exact Hi. rewrite Nat.leb_refl. reflexivity.
Qed.

(** ** C10: the softmax of the head is never taken over an all -inf row *)

(** C10.  On a well-formed head and an input of shape (B, T, n_embd) with
    [1 <= T <= block_size]: the stored mask has a one on its diagonal, the
    masked scores are computed, and in every row [i] of every batch entry
    the diagonal entry [j = i] is finite; so the row has a finite entry and
    the denominator of its softmax is positive. *)
Theorem masked_rows_keep_diagonal :
  forall bs C hs h B T x,
    wf_Head bs C hs h -> shape3 B T C x -> 1 <= T -> T <= bs ->
    (forall i, i < bs -> at2 (tril h) i i = 1%R)
    /\ exists ms,
        Head_masked h x = Ok ms /\ shape3 B T T ms
        /\ forall b i, b < B -> i < T ->
             (exists r, nth_error (nth i (nth b ms []) []) i = Some (Finite r))
             /\ softmax_defined (nth i (nth b ms []) [])
             /\ (0 < rsum (map eexp (nth i (nth b ms []) [])))%R.
Proof.
  intros bs C hs h B T x Hh Hx H1 HT. split.
  - intros i Hi. destruct Hh as (_ & _ & _ & _ & _ & _ & -> & _).
    unfold at2. rewrite tril_ones_nth by exact Hi. rewrite Nat.leb_refl. reflexivity.
  - destruct (Head_masked_Ok Hh Hx HT) as [E Hs].
    exists (map (causal_scores h) x). split; [exact E|]. split; [exact Hs|].
    intros b i Hb Hi. destruct Hx as [Hl Hr].
    rewrite (@nth_map_in _ _ (causal_scores h) x b [] []) by lia.
    assert (Hlen : length (nth b x []) = T).
    { assert (Hsh : shape2 T C (nth b x [])) by (apply Forall_nth_in; [exact Hr|lia]).
      apply Hsh. }
    rewrite causal_scores_nth by lia.
    assert (Hd : softmax_defined (masked_row h (nth b x []) i))
      by (apply masked_row_defined; lia).
    split; [|split; [exact Hd|apply rsum_eexp_pos; exact Hd]].
    eexists. rewrite (nth_error_nth' _ NegInf) by (rewrite masked_row_length; lia).
    rewrite masked_row_nth by lia. rewrite Nat.leb_refl. reflexivity.
Qed.

Lemma masked_rows_keep_diagonal_witness :
  (forall i, i < Hyper.block_size ->
     at2 (tril (zero_Head Hyper.block_size Hyper.n_embd 64)) i i = 1%R)
  /\ exists ms,
      Head_masked (zero_Head Hyper.block_size Hyper.n_embd 64)
                  [repeat (repeat 0%R Hyper.n_embd) 3] = Ok ms
      /\ shape3 1 3 3 ms
      /\ forall b i, b < 1 -> i < 3 ->
           (exists r, nth_error (nth i (nth b ms []) []) i = Some (Finite r))
           /\ softmax_defined (nth i (nth b ms []) [])
           /\ (0 < rsum (map eexp (nth i (nth b ms []) [])))%R.
Proof.
  apply (@masked_rows_keep_diagonal Hyper.block_size Hyper.n_embd 64
           (zero_Head Hyper.block_size Hyper.n_embd 64) 1 3
           [repeat (repeat 0%R Hyper.n_embd) 3]).
  - apply zero_Head_wf. lia.
  - split; [reflexivity|]. constructor; [|constructor].
    apply shape2_repeat. apply repeat_length.
  - lia.
  - unfold Hyper.block_size. lia.
Defined.

(** ** C7: every row of attention weights is a distribution over the past *)

(** C7.  On a well-formed head and an input of shape (B, T, n_embd) with
    [T <= block_size], the weights of line 79 are computed, have shape
    (B, T, T), every row sums to 1, and the weight of every future position
    [j > i] is exactly 0. *)
Theorem attention_rows_sum_to_one :
  forall bs C hs h B T x,
    wf_Head bs C hs h -> shape3 B T C x -> T <= bs ->
    exists wei,
      Head_wei h x = Ok wei /\ shape3 B T T wei
      /\ forall b i, b < B -> i < T ->
           rsum (nth i (nth b wei []) []) = 1%R
           /\ forall j, i < j -> j < T -> at3 wei b i j = 0%R.
Proof.
  intros bs C hs h B T x Hh Hx HT.
  destruct (Head_wei_Ok Hh Hx HT) as [E Hs].
  exists (map (fun xb => map softmax (causal_scores h xb)) x).
  split; [exact E|]. split; [exact Hs|].
  intros b i Hb Hi. destruct Hx as [Hl Hr].
  assert (Hlen : length (nth b x []) = T).
  { assert (Hsh : shape2 T C (nth b x [])) by (apply Forall_nth_in; [exact Hr|lia]).
    apply Hsh. }
  assert (Erow : nth i (nth b (map (fun xb => map softmax (causal_scores h xb)) x) []) []
                 = softmax (masked_row h (nth b x []) i)).
  { rewrite (@nth_map_in _ _ (fun xb => map softmax (causal_scores h xb)) x b [] []) by lia.
    rewrite (@nth_map_in _ _ softmax (causal_scores h (nth b x [])) i [] [])
      by (unfold causal_scores; rewrite mapi_length, length_map; lia).
    rewrite causal_scores_nth by lia. reflexivity. }
  split.
  - rewrite Erow. apply softmax_sum_one. apply masked_row_defined. lia.
  - intros j Hij Hj. unfold at3, at2. rewrite Erow, softmax_nth.
    rewrite masked_row_nth by lia.
    destruct (Nat.leb_spec j i); [lia|]. simpl. unfold Rdiv. apply Rmult_0_l.
Qed.

Lemma attention_rows_sum_to_one_witness :
  exists wei,
    Head_wei (zero_Head Hyper.block_size Hyper.n_embd 64)
             [repeat (repeat 0%R Hyper.n_embd) 3] = Ok wei
    /\ shape3 1 3 3 wei
    /\ forall b i, b < 1 -> i < 3 ->
         rsum (nth i (nth b wei []) []) = 1%R
         /\ forall j, i < j -> j < 3 -> at3 wei b i j = 0%R.
Proof.
  apply (@attention_rows_sum_to_one Hyper.block_size Hyper.n_embd 64
           (zero_Head Hyper.block_size Hyper.n_embd 64) 1 3
           [repeat (repeat 0%R Hyper.n_embd) 3]).
  - apply zero_Head_wf. lia.
  - split; [reflexivity|]. constructor; [|constructor].
    apply shape2_repeat. apply repeat_length.
  - unfold Hyper.block_size. lia.
Defined.

(** ** C3: the head computes scaled, causally masked dot-product attention *)

Lemma rsum_map_bigsum {A : Type} (f : A -> R) l d :
  rsum (map f l) = bigsum (length l) (fun j => f (nth j l d)).
Proof. unfold bigsum. rewrite map_seq_nth. reflexivity. Qed.

Lemma bigsum_ext n f g : (forall j, j < n -> f j = g j) -> bigsum n f = bigsum n g.
Proof.
  intros H. unfold bigsum. f_equal. apply map_ext_in. intros j Hj.
  apply in_seq in Hj. apply H. lia.
Qed.

Lemma project_nth n_in n_out l (xb : mat) i c :
  wf_Linear n_in n_out l -> bias l = None ->
  length (nth i xb []) = n_in -> c < n_out ->
  nth c (Linear_row l (nth i xb [])) 0%R = project_spec l xb i c.
Proof.
  intros (Hin & Hout & [Hwl Hwr] & _) Hb Hv Hc.
  unfold Linear_row, project_spec. rewrite Hb, Hin.
  rewrite (@nth_map_in _ _ (fun w => dot w (nth i xb [])) (weight l) c [] 0%R) by lia.
  apply dot_bigsum; [|exact Hv].
  apply Forall_nth_in; [exact Hwr|lia].
Qed.

(** C3.  On a well-formed head and an input of shape (B, T, n_embd) with
    [1 <= T <= block_size], in either mode and from every generator state:
    the three projections have no bias; the mask used is the stored
    block_size x block_size buffer cut to T x T, one on and below the
    diagonal and zero above; the masked scores are
    query . key^T / sqrt(head_size) with -infinity exactly at [j > i]
    ([score_spec]); the weights are their softmax over the last axis
    ([weight_spec]); they go through the dropout layer (the identity when
    dropout is off); and the output, of shape (B, T, head_size), is the sum
    over [j] of the resulting weights times the value vectors. *)
Theorem head_is_causal_attention :
  forall bs C hs training h B T x g,
    wf_Head bs C hs h -> shape3 B T C x -> 1 <= T -> T <= bs ->
    exists ms wei w out g',
      bias (key h) = None /\ bias (query h) = None /\ bias (value h) = None
      /\ shape2 bs bs (tril h) /\ shape2 T T (slice2 T T (tril h))
      /\ (forall i j, i < T -> j < T ->
            at2 (slice2 T T (tril h)) i j = if j <=? i then 1%R else 0%R)
      /\ Head_masked h x = Ok ms
      /\ Head_wei h x = Ok wei
      /\ Dropout_forward training (Head_dropout h) wei g = Ok (w, g')
      /\ (training = false -> w = wei)
      /\ Head_forward training h x g = Ok (out, g')
      /\ shape3 B T hs out
      /\ forall b i, b < B -> i < T ->
           (forall j, j < T ->
              nth j (nth i (nth b ms []) []) NegInf = score_spec h (nth b x []) i j
              /\ (nth j (nth i (nth b ms []) []) NegInf = NegInf <-> i < j)
              /\ at3 wei b i j = weight_spec h (nth b x []) T i j)
           /\ (forall c, c < hs ->
                 at3 out b i c
                 = bigsum T (fun j => (at3 w b i j * project_spec (value h) (nth b x []) j c)%R)).
Proof.
  intros bs C hs training h B T x g Hh Hx H1 HT.
  destruct (Head_masked_Ok Hh Hx HT) as [Em Hsm].
  destruct (Head_wei_Ok Hh Hx HT) as [Ew Hsw].
  destruct (Head_forward_run training g Hh Hx HT) as (w & g' & Ed & Hsd & He & Ef & Hso).
  exists (map (causal_scores h) x), (map (fun xb => map softmax (causal_scores h xb)) x),
         w, (map2 (weighted_values h) w x), g'.
  pose proof Hh as (Hk & Hbk & Hq & Hbq & Hv & Hbv & Htril & Hhs).
  split; [exact Hbk|]. split; [exact Hbq|]. split; [exact Hbv|].
  split; [rewrite Htril; apply tril_ones_shape|].
  split; [rewrite Htril; eapply slice2_shape; [apply tril_ones_shape|lia|lia]|].
  split.
  { intros i j Hi Hj. unfold at2. rewrite Htril, slice2_nth by assumption.
    apply tril_ones_nth; lia. }
  split; [exact Em|]. split; [exact Ew|]. split; [exact Ed|]. split; [exact He|].
  split; [exact Ef|]. split; [exact Hso|].
  intros b i Hb Hi. destruct Hx as [Hl Hr].
  assert (Hxb : shape2 T C (nth b x [])) by (apply Forall_nth_in; [exact Hr|lia]).
  destruct Hxb as [Hlen Hrows].
  assert (Hrow : forall t, t < T -> length (nth t (nth b x []) []) = C).
  { intros t Ht. apply Forall_nth_in; [exact Hrows|lia]. }
  assert (Eout : out_features (key h) = hs) by apply Hk.
  assert (Escore : forall j, j < T ->
            nth j (masked_row h (nth b x []) i) NegInf = score_spec h (nth b x []) i j).
  { intros j Hj. rewrite masked_row_nth by lia. unfold score_spec.
    destruct (Nat.leb_spec j i) as [Hle|Hgt]; destruct (Nat.ltb_spec i j); try lia;
      [|reflexivity].
    f_equal. unfold head_scale. f_equal. rewrite Eout.
    rewrite (@nth_map_in _ _ (Linear_row (query h)) (nth b x []) i [] []) by lia.
    rewrite (@nth_map_in _ _ (Linear_row (key h)) (nth b x []) j [] []) by lia.
    rewrite (@dot_bigsum hs) by (eapply Linear_row_length; eassumption).
    apply bigsum_ext. intros c Hc.
    rewrite (project_nth _ _ Hq Hbq) by (auto; lia).
    rewrite (project_nth _ _ Hk Hbk) by (auto; lia). reflexivity. }
  assert (Ems : nth i (nth b (map (causal_scores h) x) []) [] = masked_row h (nth b x []) i).
  { rewrite (@nth_map_in _ _ (causal_scores h) x b [] []) by lia.
    apply causal_scores_nth. lia. }
  assert (Ewei : nth i (nth b (map (fun xb => map softmax (causal_scores h xb)) x) []) []
                 = softmax (masked_row h (nth b x []) i)).
  { rewrite (@nth_map_in _ _ (fun xb => map softmax (causal_scores h xb)) x b [] []) by lia.
    rewrite (@nth_map_in _ _ softmax (causal_scores h (nth b x [])) i [] [])
      by (unfold causal_scores; rewrite mapi_length, length_map; lia).
    rewrite causal_scores_nth by lia. reflexivity. }
  split.
  - intros j Hj. rewrite Ems. split; [apply Escore; exact Hj|]. split.
    + rewrite masked_row_nth by lia.
      destruct (Nat.leb_spec j i) as [Hle|Hgt]; split; intros Hinf;
        try lia; try discriminate; reflexivity.
    + unfold at3, at2. rewrite Ewei, softmax_nth. unfold weight_spec.
      rewrite (Escore j Hj). f_equal.
      rewrite (rsum_map_bigsum eexp _ NegInf), masked_row_length, Hlen.
      apply bigsum_ext. intros j' Hj'. rewrite Escore by exact Hj'. reflexivity.
  - intros c Hc. destruct Hsd as [Hwl Hwr].
    assert (Hwb : shape2 T T (nth b w [])) by (apply Forall_nth_in; [exact Hwr|lia]).
    unfold at3 at 1. unfold at2 at 1.
    rewrite (@map2_nth _ _ _ (weighted_values h) w x b [] [] []) by lia.
    unfold weighted_values.
    rewrite (@nth_map_in _ _ _ (nth b w []) i [] []) by (destruct Hwb; lia).
    assert (Eov : out_features (value h) = hs) by apply Hv.
    rewrite Eov.
    rewrite (@nth_map_in _ _ _ (seq 0 hs) c 0 0%R) by (rewrite length_seq; exact Hc).
    rewrite seq_nth by exact Hc. simpl.
    rewrite (@dot_bigsum T);
      [|apply Forall_nth_in; [apply Hwb|destruct Hwb; lia]
       |rewrite col_length, length_map; exact Hlen].
    apply bigsum_ext. intros j Hj. unfold at3, at2. f_equal.
    rewrite nth_col.
    rewrite (@nth_map_in _ _ (Linear_row (value h)) (nth b x []) j [] []) by lia.
    apply (project_nth _ _ Hv Hbv); auto.
Qed.

Lemma head_is_causal_attention_witness :
  let h := zero_Head Hyper.block_size Hyper.n_embd 64 in
  let x := [repeat (repeat 0%R Hyper.n_embd) 3] in
  exists ms wei w out g',
    bias (key h) = None /\ bias (query h) = None /\ bias (value h) = None
    /\ shape2 Hyper.block_size Hyper.block_size (tril h) /\ shape2 3 3 (slice2 3 3 (tril h))
    /\ (forall i j, i < 3 -> j < 3 ->
          at2 (slice2 3 3 (tril h)) i j = if j <=? i then 1%R else 0%R)
    /\ Head_masked h x = Ok ms
    /\ Head_wei h x = Ok wei
    /\ Dropout_forward true (Head_dropout h) wei zero_gen = Ok (w, g')
    /\ (true = false -> w = wei)
    /\ Head_forward true h x zero_gen = Ok (out, g')
    /\ shape3 1 3 64 out
    /\ forall b i, b < 1 -> i < 3 ->
         (forall j, j < 3 ->
            nth j (nth i (nth b ms []) []) NegInf = score_spec h (nth b x []) i j
            /\ (nth j (nth i (nth b ms []) []) NegInf = NegInf <-> i < j)
            /\ at3 wei b i j = weight_spec h (nth b x []) 3 i j)
         /\ (forall c, c < 64 ->
               at3 out b i c
               = bigsum 3 (fun j => (at3 w b i j * project_spec (value h) (nth b x []) j c)%R)).
Proof.
  intros h x.
  apply (@head_is_causal_attention Hyper.block_size Hyper.n_embd 64 true h 1 3 x zero_gen).
  - apply zero_Head_wf. lia.
  - split; [reflexivity|]. constructor; [|constructor].
    apply shape2_repeat. apply repeat_length.
  - lia.
  - unfold Hyper.block_size. lia.
Defined.

(** ** C4: the block is two pre-norm residual steps *)

Lemma shape2_of_row_lens r c (m : mat) : row_lens m = repeat c r -> shape2 r c m.
Proof.
  unfold row_lens. revert r. induction m as [|v m IH]; intros [|r] H; simpl in H;
    try discriminate.
  - split; [reflexivity|constructor].
  - injection H as Hv Hm. destruct (IH r Hm) as [Hl Hr].
    split; [simpl; rewrite Hl; reflexivity|].
    constructor; assumption.
Qed.

Lemma add2_inv r c a b z :
  shape2 r c a -> add2 a b = Ok z -> shape2 r c b /\ z = map2 vadd a b.
Proof.
  intros Ha. unfold add2, same_shape2.
  destruct (list_eqb (row_lens a) (row_lens b)) eqn:E; [|discriminate].
  intros Hz. inversion Hz. split; [|reflexivity].
  apply list_eqb_eq in E. apply shape2_of_row_lens.
  rewrite <- E. apply row_lens_shape2. exact Ha.
Qed.

Lemma add3_inv B T C x y z :
  shape3 B T C x -> add3 x y = Ok z -> shape3 B T C y /\ z = map2 (map2 vadd) x y.
Proof.
  intros [Hl Hx]. unfold add3.
  destruct (Nat.eqb_spec (length x) (length y)) as [Hlen|]; [|discriminate].
  subst B. revert y z Hlen. induction Hx as [|a x Ha _ IH]; intros [|b y] z Hlen Hz;
    simpl in *; try discriminate.
  - inversion Hz. split; [split; [reflexivity|constructor]|reflexivity].
  - apply rbind_Ok in Hz. destruct Hz as (zb & Ezb & Hz).
    apply rbind_Ok in Hz. destruct Hz as (zs & Ezs & Hz). inversion Hz; subst z.
    destruct (@add2_inv _ _ _ _ _ Ha Ezb) as [Hb ->].
    destruct (IH y zs ltac:(lia) Ezs) as [[Hly Hy] ->].
    split; [|reflexivity]. split; [simpl; lia|]. constructor; assumption.
Qed.

Lemma add3_at B T C x y b t c :
  shape3 B T C x -> shape3 B T C y -> b < B -> t < T -> c < C ->
  at3 (map2 (map2 vadd) x y) b t c = (at3 x b t c + at3 y b t c)%R.
Proof.
  intros [Hlx Hx] [Hly Hy] Hb Ht Hc. unfold at3, at2.
  assert (Hxb : shape2 T C (nth b x [])) by (apply Forall_nth_in; [exact Hx|lia]).
  assert (Hyb : shape2 T C (nth b y [])) by (apply Forall_nth_in; [exact Hy|lia]).
  destruct Hxb as [Hxl Hxr], Hyb as [Hyl Hyr].
  assert (Hxt : length (nth t (nth b x []) []) = C) by (apply Forall_nth_in; [exact Hxr|lia]).
  assert (Hyt : length (nth t (nth b y []) []) = C) by (apply Forall_nth_in; [exact Hyr|lia]).
  rewrite (@map2_nth _ _ _ (map2 vadd) x y b [] [] []) by lia.
  rewrite (@map2_nth _ _ _ vadd (nth b x []) (nth b y []) t [] [] []) by lia.
  unfold vadd. rewrite (@map2_nth _ _ _ Rplus _ _ c 0%R 0%R 0%R) by lia. reflexivity.
Qed.

(** C4.  On a well-formed block and an input [x] of shape (B, T, n_embd), in
    either mode: whenever [Block.forward] returns [y], it has computed
    [a = sa(ln1(x))], [x' = x + a], [f = ffwd(ln2(x'))] and [y = x' + f], the
    sums being elementwise on tensors of the shape of [x] (both normalisations
    precede their sub-layer, both residual additions are present); and it
    does return whenever [T <= block_size]. *)
Theorem block_is_prenorm_residual :
  forall bs C training b B T x g,
    wf_Block bs C b -> shape3 B T C x ->
    (forall y g',
        Block_forward training b x g = Ok (y, g') ->
        exists n1 a x' n2 f g1,
          LayerNorm_forward (ln1 b) x = Ok n1
          /\ MultiHeadAttention_forward training (sa b) n1 g = Ok (a, g1)
          /\ LayerNorm_forward (ln2 b) x' = Ok n2
          /\ FeedForward_forward training (ffwd b) n2 g1 = Ok (f, g')
          /\ shape3 B T C x' /\ shape3 B T C y
          /\ forall bi t c, bi < B -> t < T -> c < C ->
               at3 x' bi t c = (at3 x bi t c + at3 a bi t c)%R
               /\ at3 y bi t c = (at3 x' bi t c + at3 f bi t c)%R)
    /\ (T <= bs -> exists y g', Block_forward training b x g = Ok (y, g')).
Proof.
  intros bs C training b B T x g Hb Hx. split.
  - intros y g' E. unfold Block_forward in E.
    apply bind_Ok in E. destruct E as (n1 & g0 & E1 & E).
    apply lift_Ok in E1. destruct E1 as [E1 ->].
    apply bind_Ok in E. destruct E as (a & g1 & Ea & E).
    apply bind_Ok in E. destruct E as (x' & g2 & Ex' & E).
    apply lift_Ok in Ex'. destruct Ex' as [Ex' ->].
    apply bind_Ok in E. destruct E as (n2 & g3 & E2 & E).
    apply lift_Ok in E2. destruct E2 as [E2 ->].
    apply bind_Ok in E. destruct E as (f & g4 & Ef & E).
    apply lift_Ok in E. destruct E as [Ey ->].
    destruct (@add3_inv _ _ _ _ _ _ Hx Ex') as [Hsa ->].
    pose proof (proj2 (add3_Ok Hx Hsa)) as Hsx'.
    destruct (@add3_inv _ _ _ _ _ _ Hsx' Ey) as [Hsf ->].
    pose proof (proj2 (add3_Ok Hsx' Hsf)) as Hsy.
    exists n1, a, (map2 (map2 vadd) x a), n2, f, g1.
    repeat (split; [assumption|]).
    intros bi t c Hbi Ht Hc. split; apply (@add3_at B T C); assumption.
  - intros HT. destruct (Block_forward_returns training Hb Hx HT g) as (y & g' & E & _).
    exists y, g'. exact E.
Qed.

Lemma block_is_prenorm_residual_witness :
  let b := zero_Block Hyper.block_size Hyper.n_embd Hyper.n_head in
  let x := [repeat (repeat 0%R Hyper.n_embd) 3] in
  (forall y g',
      Block_forward true b x zero_gen = Ok (y, g') ->
      exists n1 a x' n2 f g1,
        LayerNorm_forward (ln1 b) x = Ok n1
        /\ MultiHeadAttention_forward true (sa b) n1 zero_gen = Ok (a, g1)
        /\ LayerNorm_forward (ln2 b) x' = Ok n2
        /\ FeedForward_forward true (ffwd b) n2 g1 = Ok (f, g')
        /\ shape3 1 3 Hyper.n_embd x' /\ shape3 1 3 Hyper.n_embd y
        /\ forall bi t c, bi < 1 -> t < 3 -> c < Hyper.n_embd ->
             at3 x' bi t c = (at3 x bi t c + at3 a bi t c)%R
             /\ at3 y bi t c = (at3 x' bi t c + at3 f bi t c)%R)
  /\ (3 <= Hyper.block_size -> exists y g', Block_forward true b x zero_gen = Ok (y, g')).
Proof.
  intros b x.
  apply (@block_is_prenorm_residual Hyper.block_size Hyper.n_embd true b 1 3 x zero_gen).
  - apply zero_Block_wf; unfold Hyper.n_head, Hyper.n_embd; lia.
  - split; [reflexivity|]. constructor; [|constructor].
    apply shape2_repeat. apply repeat_length.
Defined.

(** ** C8: what [forward] returns *)

Lemma map2_ext_in {A B C : Type} (f g : A -> B -> C) a b :
  (forall x y, In (x, y) (combine a b) -> f x y = g x y) -> map2 f a b = map2 g a b.
Proof.
  intros H. unfold map2. apply map_ext_in. intros [x y] Hin. apply H. exact Hin.
Qed.

Lemma cross_entropy_is_spec N V (input : mat) (target : list nat) :
  shape2 N V input -> length target = N -> Forall (fun t => t < V) target ->
  cross_entropy input target = Ok (cross_entropy_spec input target)
  /\ (0 < N -> exists r, cross_entropy_spec input target = Snum r /\ (0 <= r)%R).
Proof.
  intros Hin Hlen Hv.
  destruct (cross_entropy_Ok Hin Hlen Hv) as (ls & Els & Hll & Hnn & E).
  assert (Espec : ls = map2 (fun row t => (- ln (nth t (softmax (map Finite row)) 0))%R)
                            input target).
  { rewrite Els. apply map2_ext_in. intros row t Hrt. apply nll_row_softmax.
    destruct Hin as [_ Hr]. rewrite Forall_forall in Hr, Hv.
    rewrite (Hr row (in_combine_l _ _ _ _ Hrt)). apply Hv. eapply in_combine_r; eassumption. }
  assert (Eform : match ls with [] => Snan | _ => Snum (rsum ls / INR (length ls)) end
                  = cross_entropy_spec input target).
  { unfold cross_entropy_spec. rewrite <- Espec, Hlen, <- Hll.
    destruct ls; reflexivity. }
  rewrite Eform in E. split; [exact E|].
  intros HN. rewrite <- Eform. destruct ls as [|a ls]; [simpl in Hll; lia|].
  eexists. split; [reflexivity|].
  apply Rmult_le_pos; [apply rsum_nonneg; exact Hnn|].
  left. apply Rinv_0_lt_compat. apply lt_0_INR. simpl. lia.
Qed.

(** The forward pass up to the logits, on any continuation. *)
Lemma GPT_logits_split bs C V training m B T idx g :
  wf_GPT bs C V m -> token_batch V B T idx -> T <= bs ->
  exists logits g',
    shape3 B T V logits
    /\ forall (K : Type) (k : tensor3 -> M K),
         (tok_emb <- lift (mapR (mapR (Embedding_lookup (token_embedding m))) (elems idx)) ;;
          pos_emb <- lift (mapR (Embedding_lookup (position_embedding_table m))
                                (seq 0 (size1 idx))) ;;
          x <- lift (add_bcast tok_emb pos_emb) ;;
          x <- foldM (fun x b => Block_forward training b x) (blocks m) x ;;
          x <- lift (LayerNorm_forward (ln_f m) x) ;;
          logits <- lift (Linear_forward (lm_head m) x) ;;
          k logits)%gen g = k logits g'.
Proof.
  intros Hm Hidx HT.
  destruct (embed_Ok Hm Hidx HT) as (tok & pos & Et & Ep & Ea & Hs).
  destruct Hm as (_ & _ & Hbl & Hlnf & Hlm).
  assert (Hf : returns (foldM (fun x b => Block_forward training b x) (blocks m)
                          (map (embed m) (elems idx))) (shape3 B T C)).
  { apply returns_foldM with (I := shape3 B T C); [|exact Hs].
    intros x b Hin Hx. rewrite Forall_forall in Hbl.
    apply Block_forward_returns with (bs := bs); [apply Hbl; exact Hin|exact Hx|exact HT]. }
  destruct (Hf g) as (x & g' & Ef & Hx).
  destruct (LayerNorm_forward_Ok Hlnf Hx) as [Eln Hy].
  destruct (Linear_forward_Ok Hlm Hy) as [Elm Hl].
  exists (map (map (Linear_row (lm_head m))) (map (map (LayerNorm_row (ln_f m))) x)), g'.
  split; [exact Hl|].
  intros K k. unfold bind at 1. rewrite Et. simpl. unfold bind at 1. rewrite Ep. simpl.
  unfold bind at 1. rewrite Ea. simpl. unfold bind at 1. rewrite Ef.
  unfold bind at 1. rewrite Eln. simpl. unfold bind at 1. rewrite Elm. reflexivity.
Qed.

(** Row [b * T + t] of the flattened tensor is row [t] of entry [b]. *)
Lemma concat_nth {A : Type} T (l : list (list A)) b t d :
  Forall (fun r => length r = T) l -> b < length l -> t < T ->
  nth (b * T + t) (concat l) d = nth t (nth b l []) d.
Proof.
  intros H. revert b. induction H as [|r l Hr _ IH]; intros b Hb Ht; simpl in Hb; [lia|].
  destruct b as [|b]; simpl.
  - apply app_nth1. lia.
  - rewrite app_nth2 by lia. rewrite Hr.
    replace (T + b * T + t - T) with (b * T + t) by lia. apply IH; lia.
Qed.

Lemma viewable_mkLong B T rows : viewable (mkLong B T rows) = true.
Proof.
  unfold viewable, mkLong. simpl. destruct T as [|T].
  - rewrite Nat.mul_0_r. reflexivity.
  - replace (Nat.max (S T) 1) with (S T) by lia.
    rewrite Nat.mul_1_r, Nat.eqb_refl. apply orb_true_r.
Qed.

(** Both calls of [forward] from one generator state: the call with targets
    returns the logits of the call without, flattened, and their
    cross-entropy against the flattened targets. *)
Lemma forward_with_targets_run :
  forall bs C V training m B T idx targets g,
    wf_GPT bs C V m -> token_batch V B T idx -> token_batch V B T targets ->
    viewable targets = true -> T <= bs ->
    exists logits g',
      GPT_forward training m idx None g = Ok ((Logits3 logits, None), g')
      /\ shape3 B T V logits
      /\ GPT_forward training m idx (Some targets) g
         = Ok ((Logits2 (concat logits),
                Some (cross_entropy_spec (concat logits) (concat (elems targets)))), g')
      /\ shape2 (B * T) V (concat logits)
      /\ (forall b t, b < B -> t < T ->
            nth (b * T + t) (concat logits) [] = nth t (nth b logits []) []
            /\ nth (b * T + t) (concat (elems targets)) 0 = nth t (nth b (elems targets) []) 0)
      /\ (0 < B * T ->
            exists r, cross_entropy_spec (concat logits) (concat (elems targets)) = Snum r
                      /\ (0 <= r)%R).
Proof.
  intros bs C V training m B T idx targets g Hm Hidx (Ht0 & Ht1 & Htsh & Htv) Hview HT.
  destruct (GPT_logits_split training g Hm Hidx HT) as (logits & g' & Hl & Erun).
  destruct Hidx as (Hi0 & Hi1 & _).
  exists logits, g'.
  destruct (@cross_entropy_is_spec (B * T) V (concat logits) (concat (elems targets)))
    as [Ece Hnn].
  { apply shape3_concat. exact Hl. }
  { apply shape2_concat_length. exact Htsh. }
  { apply Forall_concat. exact Htv. }
  split; [unfold GPT_forward; rewrite Erun; reflexivity|].
  split; [exact Hl|]. split.
  - unfold GPT_forward. cbv beta zeta iota. rewrite Erun.
    unfold view1. rewrite Ht0, Ht1, Hi0, Hi1, Nat.eqb_refl, Hview.
    unfold bind at 1. simpl. unfold bind at 1. rewrite Ece. reflexivity.
  - split; [apply shape3_concat; exact Hl|]. split; [|exact Hnn].
    intros b t Hb Ht. split.
    + destruct Hl as [Hll Hlr]. apply concat_nth with (T := T); [|lia|exact Ht].
      eapply Forall_impl; [|exact Hlr]. intros mt [Hmt _]. exact Hmt.
    + destruct Htsh as [Htl Htr]. apply concat_nth with (T := T); [exact Htr|lia|exact Ht].
Qed.

(** The same, as statements over every generator state. *)
Lemma forward_run_with_targets :
  forall bs C V training m B T idx targets,
    wf_GPT bs C V m -> token_batch V B T idx -> token_batch V B T targets ->
    viewable targets = true -> T <= bs ->
    returns (GPT_forward training m idx None)
            (fun out => exists logits,
                 out = (Logits3 logits, None) /\ shape3 B T V logits)
    /\ returns (GPT_forward training m idx (Some targets))
               (fun out => exists logits loss,
                    out = (Logits2 logits, Some loss)
                    /\ shape2 (B * T) V logits
                    /\ loss = cross_entropy_spec logits (concat (elems targets))
                    /\ (0 < B * T -> exists r, loss = Snum r /\ (0 <= r)%R)).
Proof.
  intros bs C V training m B T idx targets Hm Hidx Htg Hview HT. split; intros g;
    destruct (forward_with_targets_run training g Hm Hidx Htg Hview HT)
      as (logits & g' & E0 & Hl & E1 & Hs & _ & Hnn).
  - exists (Logits3 logits, None), g'. split; [exact E0|]. exists logits. auto.
  - eexists. exists g'. split; [exact E1|]. eexists. eexists.
    split; [reflexivity|]. split; [exact Hs|]. split; [reflexivity|exact Hnn].
Qed.

(** C8 (amended).  On a well-formed model and a token batch [idx] of shape
    (B, T) with [T <= block_size], in either mode and from every generator
    state [g]: without targets [forward] returns logits of shape
    (B, T, vocab_size) and None; with targets of shape (B, T) that [view]
    can flatten (as the contiguous batches of [get_batch] are) it returns,
    from the same state [g], those same logits flattened to shape
    (B*T, vocab_size), row [b * T + t] being the logits of sequence [b] at
    position [t], and a loss that is not None: the categorical cross-entropy
    of the flattened logits against the targets flattened in the same order,
    a non-negative number when the batch is not empty. *)
Theorem forward_return_contract :
  forall bs C V training m B T idx targets g,
    wf_GPT bs C V m -> token_batch V B T idx -> token_batch V B T targets ->
    viewable targets = true -> T <= bs ->
    exists logits g',
      GPT_forward training m idx None g = Ok ((Logits3 logits, None), g')
      /\ shape3 B T V logits
      /\ GPT_forward training m idx (Some targets) g
         = Ok ((Logits2 (concat logits),
                Some (cross_entropy_spec (concat logits) (concat (elems targets)))), g')
      /\ shape2 (B * T) V (concat logits)
      /\ (forall b t, b < B -> t < T ->
            nth (b * T + t) (concat logits) [] = nth t (nth b logits []) []
            /\ nth (b * T + t) (concat (elems targets)) 0 = nth t (nth b (elems targets) []) 0)
      /\ (0 < B * T ->
            exists r, cross_entropy_spec (concat logits) (concat (elems targets)) = Snum r
                      /\ (0 <= r)%R).
Proof.
  intros bs C V training m B T idx targets g Hm Hidx Htg Hview HT.
  exact (forward_with_targets_run training g Hm Hidx Htg Hview HT).
Qed.

Lemma forward_return_contract_witness :
  let m := zero_GPT Hyper.block_size Hyper.n_embd Hyper.n_head Hyper.n_layer 10 in
  let idx := zero_batch 2 8 in
  let targets := zero_batch 2 8 in
  exists logits g',
    GPT_forward true m idx None zero_gen = Ok ((Logits3 logits, None), g')
    /\ shape3 2 8 10 logits
    /\ GPT_forward true m idx (Some targets) zero_gen
       = Ok ((Logits2 (concat logits),
              Some (cross_entropy_spec (concat logits) (concat (elems targets)))), g')
    /\ shape2 (2 * 8) 10 (concat logits)
    /\ (forall b t, b < 2 -> t < 8 ->
          nth (b * 8 + t) (concat logits) [] = nth t (nth b logits []) []
          /\ nth (b * 8 + t) (concat (elems targets)) 0 = nth t (nth b (elems targets) []) 0)
    /\ (0 < 2 * 8 ->
          exists r, cross_entropy_spec (concat logits) (concat (elems targets)) = Snum r
                    /\ (0 <= r)%R).
Proof.
  intros m idx targets.
  apply (@forward_return_contract Hyper.block_size Hyper.n_embd 10 true m 2 8
           idx targets zero_gen).
  - apply zero_GPT_wf; unfold Hyper.n_head, Hyper.n_embd; lia.
  - apply zero_batch_tokens. lia.
  - apply zero_batch_tokens. lia.
  - reflexivity.
  - unfold Hyper.block_size. lia.
Defined.

(** With targets, the first value [forward] returns is the rank-two
    [view(B*T, C)] of the logits: on a (2, 8) batch with a vocabulary of 10
    it has shape (16, 10), so it is not a tensor of shape (2, 8, 10). *)
Lemma forward_with_targets_flattens_logits :
  let m := zero_GPT Hyper.block_size Hyper.n_embd Hyper.n_head Hyper.n_layer 10 in
  (exists logits loss g',
      GPT_forward false m (zero_batch 2 8) (Some (zero_batch 2 8)) zero_gen
        = Ok ((Logits2 logits, Some loss), g')
      /\ shape2 16 10 logits)
  /\ ~ returns (GPT_forward false m (zero_batch 2 8) (Some (zero_batch 2 8)))
               (fun out => exists logits, fst out = Logits3 logits /\ shape3 2 8 10 logits).
Proof.
  intros m.
  assert (Hm : wf_GPT Hyper.block_size Hyper.n_embd 10 m)
    by (apply zero_GPT_wf; unfold Hyper.n_head, Hyper.n_embd; lia).
  assert (Hb : token_batch 10 2 8 (zero_batch 2 8)) by (apply zero_batch_tokens; lia).
  assert (HT : 8 <= Hyper.block_size) by (unfold Hyper.block_size; lia).
  destruct (proj2 (@forward_run_with_targets Hyper.block_size Hyper.n_embd 10 false m 2 8
                     (zero_batch 2 8) (zero_batch 2 8) Hm Hb Hb eq_refl HT) zero_gen)
    as (out & g' & E & logits & loss & -> & Hs & _).
  split.
  - exists logits, loss, g'. split; [exact E|exact Hs].
  - intros Hr. destruct (Hr zero_gen) as (out' & g'' & E' & l3 & Hl3 & _).
    rewrite E in E'. inversion E'; subst out'. simpl in Hl3. discriminate.
Qed.

(** ** C2: the sampling loop *)

Lemma Forall_skipn {A : Type} (P : A -> Prop) n l : Forall P l -> Forall P (skipn n l).
Proof.
  intros H. rewrite <- (firstn_skipn n l) in H. apply Forall_app in H. apply H.
Qed.

Lemma crop_is_truncate V B T bs idx :
  0 < bs -> token_batch V B T idx ->
  crop bs idx = truncate bs idx
  /\ token_batch V B (Nat.min T bs) (truncate bs idx).
Proof.
  intros Hbs (H0 & H1 & [Hl Hr] & Hv). split.
  - unfold crop, truncate. destruct (Nat.eqb_spec bs 0); [lia|]. f_equal.
    apply map_ext_in. intros r Hin. unfold last_tokens.
    rewrite Forall_forall in Hr. rewrite (Hr r Hin), H1. reflexivity.
  - unfold truncate, token_batch. simpl. rewrite H0, H1.
    split; [reflexivity|]. split; [reflexivity|]. split.
    + split; [rewrite length_map; exact Hl|].
      rewrite Forall_map. eapply Forall_impl; [|exact Hr].
      intros r Hlen. unfold last_tokens. rewrite length_skipn, Hlen. lia.
    + rewrite Forall_map. eapply Forall_impl; [|exact Hv].
      intros r Hrv. unfold last_tokens. apply Forall_skipn. exact Hrv.
Qed.

Lemma select_last_Ok B T V (l : tensor3) :
  0 < T -> shape3 B T V l ->
  select_last T (Logits3 l) = Ok (map (fun mt => nth (T - 1) mt []) l)
  /\ shape2 B V (map (fun mt => nth (T - 1) mt []) l).
Proof.
  intros HT [Hl Hr]. rewrite Forall_forall in Hr. split.
  - unfold select_last. destruct (Nat.eqb_spec T 0); [lia|].
    apply mapR_Ok_map. intros mt Hin. destruct (Hr mt Hin) as [Hm _].
    rewrite (nth_error_nth' mt []) by lia. reflexivity.
  - split; [rewrite length_map; exact Hl|].
    rewrite Forall_map, Forall_forall. intros mt Hin. destruct (Hr mt Hin) as [Hm Hrows].
    apply Forall_nth_in; [exact Hrows|lia].
Qed.

Lemma argmax_lt (row : vec) : row <> [] -> argmax row < length row.
Proof.
  induction row as [|a rest IH]; intros Hne; [congruence|].
  destruct rest as [|b rest']; [simpl; lia|].
  change (argmax (a :: b :: rest'))
    with (if Rle_dec (nth (argmax (b :: rest')) (b :: rest') 0%R) a
          then 0 else S (argmax (b :: rest'))).
  destruct (Rle_dec _ a); [simpl; lia|].
  specialize (IH ltac:(discriminate)). simpl in *. lia.
Qed.

Lemma softmax_valid_probs (l : vec) :
  l <> [] -> valid_probs (softmax (map Finite l)) = true.
Proof.
  intros Hne. pose proof (softmax_finite_pos Hne) as Hpos.
  unfold valid_probs. rewrite softmax_length, length_map.
  assert (E0 : (length l =? 0) = false) by (destruct l; [congruence|reflexivity]).
  rewrite E0. apply andb_true_iff. split; [apply andb_true_iff; split; [reflexivity|]|].
  - apply forallb_forall. intros x Hx. rewrite Forall_forall in Hpos.
    specialize (Hpos x Hx). destruct (Rle_dec 0 x); [reflexivity|lra].
  - destruct (Rlt_dec 0 (rsum (softmax (map Finite l)))) as [|Hn]; [reflexivity|].
    exfalso. apply Hn. apply rsum_pos; [|exact Hpos].
    intros E. apply (f_equal (@length R)) in E. rewrite softmax_length, length_map in E.
    destruct l; [congruence|discriminate].
Qed.

Lemma argmax_in_support (l q : vec) :
  l <> [] -> length q = length l ->
  in_support (softmax (map Finite l)) (argmax (map2 Rdiv (softmax (map Finite l)) q)).
Proof.
  intros Hne Hq. pose proof (softmax_finite_pos Hne) as Hpos.
  assert (Hlen : length (map2 Rdiv (softmax (map Finite l)) q)
                 = length (softmax (map Finite l))).
  { rewrite map2_length, softmax_length, length_map. lia. }
  assert (Hlt : argmax (map2 Rdiv (softmax (map Finite l)) q)
                < length (softmax (map Finite l))).
  { rewrite <- Hlen. apply argmax_lt. intros E. rewrite E in Hlen.
    rewrite softmax_length, length_map in Hlen. destruct l; [congruence|discriminate]. }
  split; [exact Hlt|]. apply Forall_nth_in; assumption.
Qed.

Lemma multinomial_returns B V (last : mat) :
  0 < V -> shape2 B V last ->
  returns (multinomial (map (fun l => softmax (map Finite l)) last))
          (fun nxt => Forall2 (fun l t => in_support (softmax (map Finite l)) t) last nxt).
Proof.
  intros HV [Hl Hr]. unfold multinomial.
  assert (Hne : forall l, In l last -> l <> []).
  { intros l Hin. rewrite Forall_forall in Hr. specialize (Hr l Hin).
    destruct l; [simpl in Hr; lia|discriminate]. }
  assert (Hvalid : forallb valid_probs (map (fun l => softmax (map Finite l)) last) = true).
  { apply forallb_forall. intros p Hp. apply in_map_iff in Hp.
    destruct Hp as (l & <- & Hin). apply softmax_valid_probs. apply Hne. exact Hin. }
  rewrite Hvalid.
  eapply returns_bind.
  { apply returns_mapM with (P := fun (p q : vec) => length q = length p).
    intros p _. eapply returns_weaken.
    - apply returns_mapM with (P := fun _ _ : R => True). intros a _ g.
      unfold exponential_, bind, draw, ret. eexists. eexists. split; [reflexivity|exact I].
    - intros q Hq. symmetry. eapply Forall2_length. exact Hq. }
  intros q Hq. apply returns_ret. clear Hvalid Hl Hr.
  revert q Hq. induction last as [|l last IH]; intros q Hq;
    inversion Hq as [|p e ps es Hpe Hrest]; subst.
  - constructor.
  - unfold map2. simpl. constructor.
    + apply argmax_in_support; [apply Hne; left; reflexivity|].
      rewrite softmax_length, length_map in Hpe. exact Hpe.
    + apply IH; [intros l0 Hin; apply Hne; right; exact Hin|exact Hrest].
Qed.

Lemma token_batch_vocab_pos V B T idx : token_batch V B T idx -> 0 < B -> 0 < T -> 0 < V.
Proof.
  intros (_ & _ & [Hl Hr] & Hv) HB HT.
  destruct (elems idx) as [|r rs]; [simpl in Hl; lia|].
  pose proof (Forall_inv Hr) as Hlen. pose proof (Forall_inv Hv) as Hrv.
  destruct r as [|t r]; [simpl in Hlen; lia|].
  pose proof (Forall_inv Hrv) as Ht. simpl in Ht. lia.
Qed.

Lemma Forall2_map_l {A B C : Type} (P : B -> C -> Prop) (f : A -> B) l l' :
  Forall2 P (map f l) l' -> Forall2 (fun a c => P (f a) c) l l'.
Proof.
  revert l'. induction l as [|a l IH]; intros l' H; inversion H; subst; constructor; auto.
Qed.

Lemma Forall2_impl_in {A B : Type} (P Q : A -> B -> Prop) l l' :
  (forall a b, In a l -> In b l' -> P a b -> Q a b) -> Forall2 P l l' -> Forall2 Q l l'.
Proof.
  intros H HP. induction HP as [|a b l l' Hab _ IH]; constructor.
  - apply H; [left; reflexivity|left; reflexivity|exact Hab].
  - apply IH. intros x y Hx Hy. apply H; right; assumption.
Qed.

Lemma Forall2_compose {A B C : Type} (P : A -> B -> Prop) (Q : B -> C -> Prop) a b c :
  Forall2 P a b -> Forall2 Q b c -> Forall2 (fun x z => exists y, P x y /\ Q y z) a c.
Proof.
  intros HP. revert c. induction HP as [|x y a b Hxy _ IH]; intros c HQ;
    inversion HQ; subst; constructor; eauto.
Qed.

Lemma Forall2_map2_l {A B C : Type} (P : A -> C -> Prop) (f : A -> B -> C) a b :
  length a = length b ->
  (forall x y, In x a -> In y b -> P x (f x y)) -> Forall2 P a (map2 f a b).
Proof.
  revert b. induction a as [|x a IH]; intros [|y b] Hl H; simpl in Hl; try discriminate.
  - constructor.
  - unfold map2. simpl. constructor; [apply H; left; reflexivity|].
    apply IH; [lia|]. intros; apply H; right; assumption.
Qed.

(** One round of the loop on a batch of [T >= 1] valid tokens: it returns,
    and what it returns is the batch with one token appended to every row, a
    token of the support of the softmax of the final-step logits of the
    forward pass on the truncated context. *)
Lemma generate_step_returns bs C V training m B T idx :
  wf_GPT bs C V m -> 0 < bs -> token_batch V B T idx -> 1 <= T ->
  returns (generate_step bs training m idx)
    (fun idx1 => exists logits nxt g g',
         GPT_forward training m (truncate bs idx) None g = Ok ((Logits3 logits, None), g')
         /\ Forall2 (fun lb t => exists row,
                         nth_error lb (length lb - 1) = Some row
                         /\ in_support (softmax (map Finite row)) t) logits nxt
         /\ idx1 = append_tokens idx nxt
         /\ token_batch V B (S T) idx1
         /\ Forall2 (fun r r' => firstn T r' = r) (elems idx) (elems idx1)).
Proof.
  intros Hm Hbs Hidx HT g.
  destruct (crop_is_truncate Hbs Hidx) as [Ecrop Htr].
  assert (HT' : Nat.min T bs <= bs) by lia.
  assert (Hfwd : returns (GPT_forward training m (truncate bs idx) None)
                   (fun out => exists logits, out = (Logits3 logits, None)
                                              /\ shape3 B (Nat.min T bs) V logits)).
  { unfold GPT_forward. apply (GPT_logits_returns training Hm Htr HT').
    intros logits Hl. apply returns_ret. exists logits. split; [reflexivity|exact Hl]. }
  destruct (Hfwd g) as (out & g1 & Eout & logits & -> & Hlog).
  destruct (@select_last_Ok B (Nat.min T bs) V logits ltac:(lia) Hlog) as [Esel Hlast].
  assert (Hmul : returns (multinomial (map (fun l => softmax (map Finite l))
                            (map (fun mt => nth (Nat.min T bs - 1) mt []) logits)))
                   (fun nxt => Forall2 (fun l t => in_support (softmax (map Finite l)) t)
                                 (map (fun mt => nth (Nat.min T bs - 1) mt []) logits) nxt)).
  { destruct (Nat.eq_dec B 0) as [EB|NB].
    - destruct Hlog as [Hl0 _]. rewrite EB in Hl0.
      destruct logits; [|discriminate]. simpl. apply returns_ret. constructor.
    - apply (@multinomial_returns B V); [|exact Hlast].
      apply (token_batch_vocab_pos Hidx); lia. }
  destruct (Hmul g1) as (nxt & g2 & Enxt & Hsup).
  destruct Hidx as (H0 & H1 & [Hl Hr] & Hv).
  assert (Hlen : length nxt = B).
  { rewrite <- (Forall2_length Hsup), length_map. apply Hlog. }
  assert (HnV : Forall (fun t => t < V) nxt).
  { apply Forall2_Forall_r with (l := map (fun mt => nth (Nat.min T bs - 1) mt []) logits).
    eapply Forall2_impl_in; [|exact Hsup]. intros l t Hin _ [Hlt _].
    rewrite softmax_length, length_map in Hlt.
    destruct Hlast as [_ Hrows]. rewrite Forall_forall in Hrows.
    rewrite (Hrows l Hin) in Hlt. exact Hlt. }
  exists (append_tokens idx nxt), g2. split.
  - unfold generate_step, bind. rewrite Ecrop, Eout. simpl fst.
    replace (size1 (truncate bs idx)) with (Nat.min T bs) by (simpl; rewrite H1; reflexivity).
    rewrite Esel. simpl. rewrite Enxt. unfold cat1, append_tokens.
    rewrite H0, Hlen, Nat.eqb_refl. reflexivity.
  - exists logits, nxt, g, g1. split; [exact Eout|]. split.
    + apply Forall2_map_l in Hsup. eapply Forall2_impl_in; [|exact Hsup].
      intros lb t Hin _ Hs. exists (nth (Nat.min T bs - 1) lb []). split; [|exact Hs].
      destruct Hlog as [_ Hlr]. rewrite Forall_forall in Hlr.
      destruct (Hlr lb Hin) as [Hlb _]. rewrite Hlb.
      apply nth_error_nth'. lia.
    + split; [reflexivity|]. rewrite Forall_forall in Hr, Hv, HnV. split.
      * unfold token_batch, append_tokens. simpl.
        split; [exact H0|]. split; [rewrite H1; reflexivity|]. split.
        -- split; [rewrite map2_length; lia|].
           rewrite Forall_forall. intros r' Hr'. unfold map2 in Hr'.
           apply in_map_iff in Hr'. destruct Hr' as ([r t] & <- & Hin). simpl.
           rewrite length_app, (Hr r (in_combine_l _ _ _ _ Hin)). simpl. lia.
        -- rewrite Forall_forall. intros r' Hr'. unfold map2 in Hr'.
           apply in_map_iff in Hr'. destruct Hr' as ([r t] & <- & Hin). simpl.
           apply Forall_app. split; [apply Hv; eapply in_combine_l; eassumption|].
           constructor; [apply HnV; eapply in_combine_r; eassumption|constructor].
      * unfold append_tokens. simpl. apply Forall2_map2_l; [lia|].
        intros r t Hin _. rewrite <- (Hr r Hin).
        rewrite firstn_app, Nat.sub_diag, firstn_all. simpl. apply app_nil_r.
Qed.

Lemma generate_returns bs C V training m B :
  wf_GPT bs C V m -> 0 < bs ->
  forall n T idx,
    token_batch V B T idx -> 1 <= T ->
    returns (generate bs training m idx n)
      (fun out => generates bs training m idx n out
                  /\ token_batch V B (T + n) out
                  /\ Forall2 (fun r r' => firstn T r' = r) (elems idx) (elems out)).
Proof.
  intros Hm Hbs. induction n as [|n IH]; intros T idx Hidx HT.
  - simpl. apply returns_ret. split; [constructor|]. split.
    + rewrite Nat.add_0_r. exact Hidx.
    + destruct Hidx as (_ & _ & [_ Hr] & _). clear -Hr.
      induction Hr as [|r rs Hlen _ IHr]; constructor; [|exact IHr].
      rewrite <- Hlen. apply firstn_all.
  - simpl. eapply returns_bind; [apply (generate_step_returns training Hm Hbs Hidx HT)|].
    intros idx1 (logits & nxt & g & g' & Efwd & Hsup & -> & Htb & Hpre).
    eapply returns_weaken; [apply (IH (S T) _ Htb); lia|].
    intros out (Hgen & Hout & Hpre2). split; [|split].
    + econstructor; eassumption.
    + replace (T + S n) with (S T + n) by lia. exact Hout.
    + eapply Forall2_impl_in; [|exact (Forall2_compose Hpre Hpre2)].
      intros r r'' _ _ (r' & H1 & H2). rewrite <- H1, <- H2.
      rewrite firstn_firstn. f_equal. lia.
Qed.





(** ** C6: construction does not validate the head count *)

Lemma returns_draw_map (f : R -> R) : returns (u <- draw ;; ret (f u))%gen (fun _ => True).
Proof. intros g. unfold bind, draw, ret. eexists. eexists. split; [reflexivity|exact I]. Qed.

Lemma returns_fillM {A : Type} n (m : M A) (P : A -> Prop) :
  returns m P -> returns (fillM n m) (fun l => length l = n /\ Forall P l).
Proof.
  intros Hm. unfold fillM. eapply returns_weaken.
  - apply returns_mapM with (P := fun _ a => P a). intros _ _. exact Hm.
  - intros l Hl. split.
    + rewrite <- (Forall2_length Hl). apply length_seq.
    + eapply Forall2_Forall_r. exact Hl.
Qed.

Lemma returns_matrix r c (m : M R) :
  returns m (fun _ => True) -> returns (fillM r (fillM c m)) (shape2 r c).
Proof.
  intros Hm. eapply returns_weaken; [apply returns_fillM; apply returns_fillM; exact Hm|].
  intros w [Hl Hr]. split; [exact Hl|]. eapply Forall_impl; [|exact Hr].
  intros v [Hv _]. exact Hv.
Qed.

Lemma Linear_init_returns n_in n_out with_bias :
  returns (Linear_init n_in n_out with_bias)
          (fun l => wf_Linear n_in n_out l /\ (with_bias = false -> bias l = None)).
Proof.
  unfold Linear_init.
  eapply returns_bind; [apply returns_matrix; apply returns_draw_map|].
  intros w Hw. destruct with_bias.
  - eapply returns_bind.
    + eapply returns_bind; [apply returns_fillM; apply returns_draw_map|].
      intros b Hb. apply returns_ret with (P := fun ob => exists b', ob = Some b' /\ length b' = n_out).
      exists b. split; [reflexivity|apply Hb].
    + intros ob (b & -> & Hb). apply returns_ret. split; [|discriminate].
      unfold wf_Linear. simpl. auto.
  - eapply returns_bind; [apply returns_ret with (P := fun ob => ob = @None vec); reflexivity|].
    intros ob ->. apply returns_ret. split; [|reflexivity].
    unfold wf_Linear. simpl. auto.
Qed.

Lemma init_matrix_returns r c w : shape2 r c w -> returns (init_matrix w) (shape2 r c).
Proof.
  intros [Hl Hr]. unfold init_matrix. eapply returns_weaken.
  - apply returns_mapM with (P := fun (v v' : vec) => length v' = length v).
    intros v _. eapply returns_weaken.
    + apply returns_mapM with (P := fun _ _ : R => True). intros a _. apply returns_draw_map.
    + intros v' Hv'. symmetry. eapply Forall2_length. exact Hv'.
  - intros w' Hw'. split; [rewrite <- (Forall2_length Hw'); exact Hl|].
    clear Hl. induction Hw' as [|v v' w w' Hvv _ IH]; [constructor|].
    constructor; [rewrite Hvv; exact (Forall_inv Hr)|apply IH; exact (Forall_inv_tail Hr)].
Qed.

Lemma init_Linear_returns n_in n_out l :
  wf_Linear n_in n_out l ->
  returns (init_Linear l)
          (fun l' => wf_Linear n_in n_out l' /\ (bias l = None -> bias l' = None)).
Proof.
  intros (Hin & Hout & Hw & Hb). unfold init_Linear.
  eapply returns_bind; [apply init_matrix_returns; exact Hw|].
  intros w Hw'. apply returns_ret. split.
  - unfold wf_Linear. simpl. repeat split; try assumption; try apply Hw'.
    destruct (bias l); simpl; [rewrite length_map; exact Hb|exact I].
  - simpl. intros ->. reflexivity.
Qed.

Lemma Embedding_init_returns num dim :
  returns (Embedding_init num dim) (wf_Embedding num dim).
Proof.
  unfold Embedding_init.
  eapply returns_bind; [apply returns_matrix; apply returns_draw_map|].
  intros w Hw. apply returns_ret. unfold wf_Embedding. simpl. auto.
Qed.

Lemma init_Embedding_returns num dim e :
  wf_Embedding num dim e -> returns (init_Embedding e) (wf_Embedding num dim).
Proof.
  intros (Hn & Hd & Hw). unfold init_Embedding.
  eapply returns_bind; [apply init_matrix_returns; exact Hw|].
  intros w Hw'. apply returns_ret. unfold wf_Embedding. simpl. auto.
Qed.

Lemma Head_init_returns bs C dropout hs :
  returns (Head_init bs C dropout hs) (Head_built bs C hs).
Proof.
  unfold Head_init.
  eapply returns_bind; [apply Linear_init_returns|]. intros k [Hk Hbk].
  eapply returns_bind; [apply Linear_init_returns|]. intros q [Hq Hbq].
  eapply returns_bind; [apply Linear_init_returns|]. intros v [Hv Hbv].
  apply returns_ret. unfold Head_built. simpl. auto 10.
Qed.

Lemma init_Head_returns bs C hs h :
  Head_built bs C hs h -> returns (init_Head h) (Head_built bs C hs).
Proof.
  intros (Hk & Hbk & Hq & Hbq & Hv & Hbv & Ht). unfold init_Head.
  eapply returns_bind; [apply init_Linear_returns; exact Hk|]. intros k [Hk' Hbk'].
  eapply returns_bind; [apply init_Linear_returns; exact Hq|]. intros q [Hq' Hbq'].
  eapply returns_bind; [apply init_Linear_returns; exact Hv|]. intros v [Hv' Hbv'].
  apply returns_ret. unfold Head_built. simpl. auto 10.
Qed.

Lemma returns_mapM_Forall {A B : Type} (f : A -> M B) (P : A -> Prop) (Q : B -> Prop) l :
  Forall P l -> (forall a, P a -> returns (f a) Q) ->
  returns (mapM f l) (fun l' => length l' = length l /\ Forall Q l').
Proof.
  intros Hl Hf. eapply returns_weaken.
  - apply returns_mapM with (P := fun _ b => Q b). intros a Hin.
    rewrite Forall_forall in Hl. apply Hf. apply Hl. exact Hin.
  - intros l' H. split; [symmetry; eapply Forall2_length; exact H|].
    eapply Forall2_Forall_r. exact H.
Qed.

Lemma MultiHeadAttention_init_returns bs C dropout nh hs :
  returns (MultiHeadAttention_init bs C dropout nh hs)
          (fun a => length (heads a) = nh /\ Forall (Head_built bs C hs) (heads a)
                    /\ wf_Linear (hs * nh) C (proj a)).
Proof.
  unfold MultiHeadAttention_init.
  eapply returns_bind; [apply returns_fillM; apply Head_init_returns|]. intros hl [Hl Hh].
  eapply returns_bind; [apply Linear_init_returns|]. intros p [Hp _].
  apply returns_ret. simpl. auto.
Qed.

Lemma FeedForward_init_returns dropout C :
  returns (FeedForward_init dropout C) (wf_FeedForward C).
Proof.
  unfold FeedForward_init.
  eapply returns_bind; [apply Linear_init_returns|]. intros a [Ha _].
  eapply returns_bind; [apply Linear_init_returns|]. intros b [Hb _].
  apply returns_ret. split; assumption.
Qed.

Lemma Block_init_returns bs C dropout nh :
  0 < nh -> returns (Block_init bs C dropout C nh) (Block_built bs C nh).
Proof.
  intros Hnh. unfold Block_init.
  apply returns_bind with (P := fun hs => hs = C / nh).
  { eapply returns_lift; [|reflexivity]. unfold floordiv.
    destruct (Nat.eqb_spec nh 0); [lia|reflexivity]. }
  intros hs ->.
  eapply returns_bind; [apply MultiHeadAttention_init_returns|]. intros a (Hl & Hh & Hp).
  eapply returns_bind; [apply FeedForward_init_returns|]. intros f Hf.
  apply returns_ret. unfold Block_built. simpl.
  split; [exact Hl|]. split; [exact Hh|]. split; [exact Hp|]. split; [exact Hf|].
  split; apply LayerNorm_init_wf.
Qed.

Lemma init_Block_returns bs C nh b :
  Block_built bs C nh b -> returns (init_Block b) (Block_built bs C nh).
Proof.
  intros (Hl & Hh & Hp & [Hf0 Hf2] & H1 & H2). unfold init_Block, init_MultiHeadAttention.
  eapply returns_bind.
  { eapply returns_bind.
    - apply returns_mapM_Forall
        with (P := Head_built bs C (C / nh)) (Q := Head_built bs C (C / nh));
        [exact Hh|]. intros h Hb. apply init_Head_returns. exact Hb.
    - intros hs' [Hl' Hh']. eapply returns_bind; [apply init_Linear_returns; exact Hp|].
      intros p [Hp' _].
      apply returns_ret
        with (P := fun a => length (heads a) = nh
                            /\ Forall (Head_built bs C (C / nh)) (heads a)
                            /\ wf_Linear (C / nh * nh) C (proj a)).
      simpl. split; [lia|]. split; assumption. }
  intros a (Hal & Hah & Hap). unfold init_FeedForward.
  eapply returns_bind.
  { eapply returns_bind; [apply init_Linear_returns; exact Hf0|]. intros f0 [Hf0' _].
    eapply returns_bind; [apply init_Linear_returns; exact Hf2|]. intros f2 [Hf2' _].
    apply returns_ret with (P := wf_FeedForward C). split; assumption. }
  intros f Hf. apply returns_ret. unfold Block_built. simpl. auto 10.
Qed.

Lemma GPTLanguageModel_init_returns bs C nh nl V dropout :
  0 < nh ->
  returns (GPTLanguageModel_init bs C nh nl V dropout) (GPT_built bs C nh nl V).
Proof.
  intros Hnh. unfold GPTLanguageModel_init.
  eapply returns_bind; [apply Embedding_init_returns|]. intros te Hte.
  eapply returns_bind; [apply Embedding_init_returns|]. intros pe Hpe.
  eapply returns_bind; [apply returns_fillM; apply Block_init_returns; exact Hnh|].
  intros bl [Hbl Hbb].
  eapply returns_bind; [apply Linear_init_returns|]. intros lh [Hlh _].
  eapply returns_bind; [apply init_Embedding_returns; exact Hte|]. intros te' Hte'.
  eapply returns_bind; [apply init_Embedding_returns; exact Hpe|]. intros pe' Hpe'.
  eapply returns_bind.
  { apply returns_mapM_Forall
      with (P := Block_built bs C nh) (Q := Block_built bs C nh); [exact Hbb|].
    intros b Hb. apply init_Block_returns. exact Hb. }
  intros bl' [Hbl' Hbb'].
  eapply returns_bind; [apply init_Linear_returns; exact Hlh|]. intros lh' [Hlh' _].
  apply returns_ret. unfold GPT_built. simpl.
  split; [exact Hte'|]. split; [exact Hpe'|]. split; [lia|]. split; [exact Hbb'|].
  split; [apply LayerNorm_init_wf|exact Hlh'].
Qed.

Lemma Block_built_wf bs C nh b : 0 < nh -> nh <= C -> Block_built bs C nh b -> wf_Block bs C b.
Proof.
  intros Hnh Hle (Hl & Hh & Hp & Hf & H1 & H2). unfold wf_Block.
  split; [|auto]. exists (C / nh). unfold wf_MultiHeadAttention.
  split; [destruct (heads (sa b)); [simpl in Hl; lia|discriminate]|].
  split; [|rewrite Hl; exact Hp].
  eapply Forall_impl; [|exact Hh]. intros h (A1 & A2 & A3 & A4 & A5 & A6 & A7).
  unfold wf_Head. split; [exact A1|]. split; [exact A2|]. split; [exact A3|].
  split; [exact A4|]. split; [exact A5|]. split; [exact A6|]. split; [exact A7|].
  apply Nat.div_str_pos. lia.
Qed.

Lemma GPT_built_wf bs C nh nl V m :
  0 < nh -> nh <= C -> GPT_built bs C nh nl V m -> wf_GPT bs C V m.
Proof.
  intros Hnh Hle (Hte & Hpe & _ & Hb & Hln & Hlm). unfold wf_GPT.
  split; [exact Hte|]. split; [exact Hpe|]. split; [|split; assumption].
  eapply Forall_impl; [|exact Hb]. intros b. apply Block_built_wf; assumption.
Qed.

Lemma GPTLanguageModel_init_zero_heads bs C nl V dropout g :
  0 < nl -> GPTLanguageModel_init bs C 0 nl V dropout g = Err ZeroDivisionError.
Proof.
  intros Hnl. unfold GPTLanguageModel_init.
  destruct (Embedding_init_returns V C g) as (te & g1 & E1 & _).
  destruct (Embedding_init_returns bs C g1) as (pe & g2 & E2 & _).
  unfold bind at 1. rewrite E1. unfold bind at 1. rewrite E2.
  unfold bind at 1. destruct nl as [|nl]; [lia|].
  assert (E : fillM (S nl) (Block_init bs C dropout C 0) g2 = Err ZeroDivisionError)
    by reflexivity.
  rewrite E. reflexivity.
Qed.

(** C6 (amended).  Construction does not compare [n_embd] with a multiple of
    [n_head]: for every configuration with [n_head >= 1], divisible or not,
    it returns (from every generator state) a model of [n_layer] blocks,
    each with [n_head] heads of size [n_embd // n_head] and an output
    projection reading [(n_embd // n_head) * n_head] features; and when
    moreover [n_head <= n_embd] that model is well formed, so its forward
    pass runs.  The one configuration error construction raises is
    ZeroDivisionError, for [n_head = 0] with at least one layer. *)
Theorem construction_accepts_any_head_count :
  forall bs C nh nl V dropout,
    0 < nh ->
    returns (GPTLanguageModel_init bs C nh nl V dropout)
            (fun m => GPT_built bs C nh nl V m /\ (nh <= C -> wf_GPT bs C V m))
    /\ (0 < nl -> forall g,
          GPTLanguageModel_init bs C 0 nl V dropout g = Err ZeroDivisionError).
Proof.
  intros bs C nh nl V dropout Hnh. split.
  - eapply returns_weaken; [apply GPTLanguageModel_init_returns; exact Hnh|].
    intros m Hm. split; [exact Hm|]. intros Hle. eapply GPT_built_wf; eassumption.
  - intros Hnl g. apply GPTLanguageModel_init_zero_heads. exact Hnl.
Qed.

Lemma construction_accepts_any_head_count_witness :
  returns (GPTLanguageModel_init Hyper.block_size Hyper.n_embd 5 Hyper.n_layer 65 Hyper.dropout)
          (fun m => GPT_built Hyper.block_size Hyper.n_embd 5 Hyper.n_layer 65 m
                    /\ (5 <= Hyper.n_embd -> wf_GPT Hyper.block_size Hyper.n_embd 65 m))
  /\ (0 < Hyper.n_layer -> forall g,
        GPTLanguageModel_init Hyper.block_size Hyper.n_embd 0 Hyper.n_layer 65 Hyper.dropout g
        = Err ZeroDivisionError).
Proof.
  apply (@construction_accepts_any_head_count Hyper.block_size Hyper.n_embd 5
           Hyper.n_layer 65 Hyper.dropout).
  lia.
Defined.

(** 384 is not a multiple of 5, and the model is built all the same: six
    blocks of five heads of size 76, on which the forward pass runs. *)
Lemma construction_with_indivisible_width :
  Hyper.n_embd mod 5 <> 0
  /\ returns (GPTLanguageModel_init Hyper.block_size Hyper.n_embd 5 Hyper.n_layer 65
                Hyper.dropout)
             (fun m => GPT_built Hyper.block_size Hyper.n_embd 5 Hyper.n_layer 65 m
                       /\ wf_GPT Hyper.block_size Hyper.n_embd 65 m
                       /\ returns (GPT_forward false m (zero_batch 1 8) None)
                                  (fun out => exists logits,
                                       out = (Logits3 logits, None)
                                       /\ shape3 1 8 65 logits)).
Proof.
  split; [vm_compute; discriminate|].
  eapply returns_weaken; [apply GPTLanguageModel_init_returns; lia|].
  intros m Hm.
  assert (Hwf : wf_GPT Hyper.block_size Hyper.n_embd 65 m).
  { eapply GPT_built_wf; [| |exact Hm]; unfold Hyper.n_embd; lia. }
  split; [exact Hm|]. split; [exact Hwf|].
  unfold GPT_forward.
  apply (@GPT_logits_returns Hyper.block_size Hyper.n_embd 65 false m 1 8 (zero_batch 1 8) Hwf).
  - apply zero_batch_tokens. lia.
  - unfold Hyper.block_size. lia.
  - intros logits Hl. apply returns_ret. exists logits. split; [reflexivity|exact Hl].
Qed.

(** ** C9: where the training loop steps the optimizer *)

Lemma foldM_app {A B : Type} (f : A -> B -> M A) l1 l2 a g :
  foldM f (l1 ++ l2) a g = bind (foldM f l1 a) (foldM f l2) g.
Proof.
  revert a g. induction l1 as [|b l1 IH]; intros a g; simpl.
  - reflexivity.
  - unfold bind. destruct (f a b g) as [[a' g']|e]; [|reflexivity].
    rewrite IH. reflexivity.
Qed.

Section TrainingLoop.

Variables batch_size block_size max_iters eval_interval eval_eters : nat.
Variables train_data val_data : list nat.
Variable OptState : Type.
Variable backward_and_step :
  GPTLanguageModel -> OptState -> LongTensor -> LongTensor -> generator ->
  GPTLanguageModel * OptState.

Local Abbreviation iter_body :=
  (train_iter batch_size block_size max_iters eval_interval eval_eters
              train_data val_data backward_and_step).
Local Abbreviation loop_prefix :=
  (train_prefix batch_size block_size max_iters eval_interval eval_eters
                train_data val_data backward_and_step).
Local Abbreviation whole_loop :=
  (train_loop batch_size block_size max_iters eval_interval eval_eters
              train_data val_data backward_and_step).
Local Abbreviation due := (eval_due max_iters eval_interval).


Lemma estimate_loss_state (st : TrainState OptState) g r g' :
  estimate_loss batch_size block_size eval_eters train_data val_data st g = Ok (r, g') ->
  snd r = set_mode true (set_mode false st).
Proof.
  unfold estimate_loss. intros E.
  apply bind_Ok in E. destruct E as (tl & g1 & _ & E).
  apply bind_Ok in E. destruct E as (vl & g2 & _ & E).
  unfold ret in E. inversion E. reflexivity.
Qed.

Lemma train_iter_skips (st : TrainState OptState) iter g :
  eval_interval <> 0 -> due iter = false -> iter_body st iter g = Ok (st, g).
Proof.
  intros Hne Hdue. unfold train_iter, bind at 1, pymod.
  destruct (Nat.eqb_spec eval_interval 0); [contradiction|]. simpl.
  unfold eval_due in Hdue. rewrite Hdue. reflexivity.
Qed.

Lemma train_iter_Ok (st st' : TrainState OptState) iter g g' :
  iter_body st iter g = Ok (st', g') ->
  eval_interval <> 0
  /\ steps st' = steps st ++ (if due iter then [iter] else [])
  /\ printed st' = printed st ++ (if due iter then [iter] else [])
  /\ (due iter = false -> st' = st /\ g' = g).
Proof.
  unfold train_iter. intros E.
  apply bind_Ok in E. destruct E as (r & g0 & Er & E).
  apply lift_Ok in Er. destruct Er as [Er ->]. unfold pymod in Er.
  destruct (Nat.eqb_spec eval_interval 0) as [|Hne]; [discriminate|].
  inversion Er; subst r. split; [exact Hne|].
  unfold eval_due.
  destruct ((iter mod eval_interval =? 0) || (iter =? max_iters - 1)).
  - apply bind_Ok in E. destruct E as (ls & g1 & Els & E).
    apply bind_Ok in E. destruct E as (xy & g2 & _ & E).
    apply bind_Ok in E. destruct E as (gg & g3 & _ & E).
    apply bind_Ok in E. destruct E as (out & g4 & _ & E).
    unfold ret in E. inversion E; subst st' g'. clear E.
    apply estimate_loss_state in Els. rewrite Els. unfold printed. simpl.
    rewrite map_app. simpl. split; [reflexivity|]. split; [reflexivity|]. discriminate.
  - unfold ret in E. inversion E; subst. rewrite !app_nil_r. auto.
Qed.

Lemma train_prefix_Ok n : forall (st st' : TrainState OptState) g g',
  loop_prefix n st g = Ok (st', g') ->
  steps st' = steps st ++ filter due (seq 0 n)
  /\ printed st' = printed st ++ filter due (seq 0 n)
  /\ (forall iter, In iter (filter due (seq 0 n)) <-> iter < n /\ due iter = true).
Proof.
  induction n as [|n IH]; intros st st' g g' E.
  - unfold train_prefix in E. simpl in E. unfold ret in E. inversion E; subst.
    rewrite !app_nil_r. split; [reflexivity|]. split; [reflexivity|].
    intros iter. simpl. split; [contradiction|intros [Hlt _]; lia].
  - unfold train_prefix in E. rewrite seq_S, foldM_app in E.
    apply bind_Ok in E. destruct E as (st1 & g1 & E1 & E2).
    destruct (IH _ _ _ _ E1) as (Hs & Hp & _).
    simpl in E2. apply bind_Ok in E2. destruct E2 as (st2 & g2 & E2 & E3).
    unfold ret in E3. inversion E3; subst st2 g2.
    destruct (train_iter_Ok _ _ _ E2) as (_ & Hs2 & Hp2 & _).
    split; [|split].
    + rewrite seq_S, filter_app. simpl filter.
      rewrite Hs2, Hs, <- app_assoc. destruct (due n); reflexivity.
    + rewrite seq_S, filter_app. simpl filter.
      rewrite Hp2, Hp, <- app_assoc. destruct (due n); reflexivity.
    + intros iter. rewrite filter_In, in_seq.
      split; intros [H1 H2]; split; auto; lia.
Qed.

(** C9.  In the training loop (with [eval_interval] not zero): an iteration
    that fails the test [iter % eval_interval == 0 or iter == max_iters - 1]
    changes nothing, neither parameters nor optimizer state nor generator;
    an iteration that returns has stepped the optimizer exactly when it has
    printed the estimated losses, namely when the test holds; and after any
    number [n] of iterations, and so after the whole loop, the optimizer has
    stepped at exactly the iterations that pass the test, the same ones whose
    losses were printed. *)
Theorem optimizer_steps_only_when_evaluating :
  forall (st : TrainState OptState) iter g,
    eval_interval <> 0 ->
    (due iter = false -> iter_body st iter g = Ok (st, g))
    /\ (forall st' g',
          iter_body st iter g = Ok (st', g') ->
          steps st' = steps st ++ (if due iter then [iter] else [])
          /\ printed st' = printed st ++ (if due iter then [iter] else [])
          /\ (due iter = false -> model st' = model st /\ opt st' = opt st))
    /\ (forall n st' g',
          loop_prefix n st g = Ok (st', g') ->
          steps st' = steps st ++ filter due (seq 0 n)
          /\ printed st' = printed st ++ filter due (seq 0 n)
          /\ (forall i, In i (filter due (seq 0 n)) <-> i < n /\ due i = true))
    /\ (forall st' g',
          whole_loop st g = Ok (st', g') ->
          steps st' = steps st ++ filter due (seq 0 max_iters)
          /\ printed st' = printed st ++ filter due (seq 0 max_iters)).
Proof.
  intros st iter g Hne. split; [|split; [|split]].
  - intros Hdue. apply train_iter_skips; assumption.
  - intros st' g' E. destruct (train_iter_Ok _ _ _ E) as (_ & Hs & Hp & Hsame).
    split; [exact Hs|]. split; [exact Hp|].
    intros Hdue. destruct (Hsame Hdue) as [-> _]. split; reflexivity.
  - intros n st' g' E. exact (train_prefix_Ok _ _ _ E).
  - intros st' g' E. destruct (train_prefix_Ok max_iters _ _ E) as (Hs & Hp & _).
    split; assumption.
Qed.

End TrainingLoop.

(** With the script's constants the test passes at 11 of the 5000
    iterations. *)
Example script_eval_due_iterations :
  filter (eval_due Hyper.max_iters Hyper.eval_interval) (seq 0 Hyper.max_iters)
  = [0; 500; 1000; 1500; 2000; 2500; 3000; 3500; 4000; 4500; 4999].
Proof. vm_compute. reflexivity. Qed.

(* ================================================================== *)
(** * Part IV: the rest of the script

    The vocabulary and the split of the corpus, the batches, what the
    modules refuse, construction and the parameter count, loss estimation,
    the training loop run to its end, and the sample the script prints. *)
(* ================================================================== *)

(** ** The vocabulary *)

Lemma insert_sorted_In c a l : In c (insert_sorted a l) <-> c = a \/ In c l.
Proof.
  induction l as [|d l IH]; simpl.
  - intuition.
  - destruct (a <=? d); simpl; rewrite ?IH; intuition.
Qed.

Lemma sorted_In c l : In c (sorted l) <-> In c l.
Proof.
  induction l as [|a l IH]; simpl; [tauto|].
  rewrite insert_sorted_In, IH. intuition.
Qed.

Lemma insert_sorted_increasing a l :
  StronglySorted lt l -> ~ In a l -> StronglySorted lt (insert_sorted a l).
Proof.
  induction l as [|d l IH]; intros Hs Hn; simpl.
  - constructor; constructor.
  - apply StronglySorted_inv in Hs. destruct Hs as [Hs Hd].
    destruct (a <=? d) eqn:E.
    + apply Nat.leb_le in E.
      assert (a < d) by (assert (a <> d) by (intros ->; apply Hn; left; reflexivity); lia).
      constructor; [constructor; assumption|].
      constructor; [assumption|].
      eapply Forall_impl; [|exact Hd]. simpl. intros; lia.
    + apply Nat.leb_gt in E.
      constructor.
      * apply IH; [exact Hs|]. intros Hin. apply Hn. right. exact Hin.
      * apply Forall_forall. intros c Hc. apply insert_sorted_In in Hc.
        destruct Hc as [->|Hc]; [exact E|].
        rewrite Forall_forall in Hd. apply Hd. exact Hc.
Qed.

Lemma sorted_increasing l : NoDup l -> StronglySorted lt (sorted l).
Proof.
  induction 1 as [|a l Hn _ IH]; simpl; [constructor|].
  apply insert_sorted_increasing; [exact IH|]. rewrite sorted_In. exact Hn.
Qed.

Lemma chars_In text c : In c (chars text) <-> In c text.
Proof. unfold chars. rewrite sorted_In. apply nodup_In. Qed.

Lemma chars_increasing text : StronglySorted lt (chars text).
Proof. apply sorted_increasing. apply NoDup_nodup. Qed.

Lemma increasing_nth l : StronglySorted lt l ->
  forall i j a b, i < j -> nth_error l i = Some a -> nth_error l j = Some b -> a < b.
Proof.
  induction 1 as [|x l _ IH Hx]; intros i j a b Hij Ea Eb.
  - destruct i; discriminate.
  - destruct j as [|j]; [lia|]. simpl in Eb. destruct i as [|i]; simpl in Ea.
    + injection Ea as <-. rewrite Forall_forall in Hx. apply Hx.
      eapply nth_error_In. exact Eb.
    + eapply IH; [|exact Ea|exact Eb]. lia.
Qed.

Lemma increasing_NoDup l : StronglySorted lt l -> NoDup l.
Proof.
  induction 1 as [|x l _ IH Hx]; constructor; [|exact IH].
  intros Hin. rewrite Forall_forall in Hx. specialize (Hx _ Hin). lia.
Qed.

Lemma chars_NoDup text : NoDup (chars text).
Proof. apply increasing_NoDup, chars_increasing. Qed.

(** *** Dicts *)

Lemma dict_get_In {V : Type} (d : list (nat * V)) k v : dict_get d k = Some v -> In (k, v) d.
Proof.
  induction d as [|[k' v'] d IH]; simpl; [discriminate|].
  destruct (k =? k') eqn:E.
  - apply Nat.eqb_eq in E. intros [= ->]. left. congruence.
  - intros H. right. apply IH. exact H.
Qed.

Lemma In_dict_get {V : Type} (d : list (nat * V)) k v :
  NoDup (map fst d) -> In (k, v) d -> dict_get d k = Some v.
Proof.
  induction d as [|[k' v'] d IH]; simpl; intros Hn Hin; [contradiction|].
  inversion Hn as [|? ? Hk Hd]; subst.
  destruct Hin as [E|Hin].
  - injection E as -> ->. rewrite Nat.eqb_refl. reflexivity.
  - destruct (k =? k') eqn:E.
    + apply Nat.eqb_eq in E. subst k'. exfalso. apply Hk.
      change k with (fst (k, v)). apply in_map. exact Hin.
    + apply IH; assumption.
Qed.

Lemma dict_get_None {V : Type} (d : list (nat * V)) k :
  dict_get d k = None <-> ~ In k (map fst d).
Proof.
  induction d as [|[k' v'] d IH]; simpl; [tauto|].
  destruct (k =? k') eqn:E.
  - apply Nat.eqb_eq in E. split; [discriminate|]. intros H. exfalso. apply H. left. congruence.
  - apply Nat.eqb_neq in E. rewrite IH. intuition.
Qed.

Lemma fst_combine_eq {A B : Type} (a : list A) (b : list B) :
  length a = length b -> map fst (combine a b) = a.
Proof.
  revert b. induction a as [|x a IH]; intros [|y b] H; simpl in *; try discriminate; [reflexivity|].
  f_equal. apply IH. lia.
Qed.

Lemma snd_combine_eq {A B : Type} (a : list A) (b : list B) :
  length a = length b -> map snd (combine a b) = b.
Proof.
  revert b. induction a as [|x a IH]; intros [|y b] H; simpl in *; try discriminate; [reflexivity|].
  f_equal. apply IH. lia.
Qed.

Lemma In_combine_seq {A : Type} (l : list A) s i c :
  In (i, c) (combine (seq s (length l)) l) <-> s <= i /\ nth_error l (i - s) = Some c.
Proof.
  revert s. induction l as [|a l IH]; intros s; simpl.
  - split; [contradiction|]. intros [_ H]. destruct (i - s); discriminate.
  - rewrite IH. split.
    + intros [E|[Hle Hn]].
      * injection E as -> ->. rewrite Nat.sub_diag. split; [lia|reflexivity].
      * split; [lia|]. replace (i - s) with (S (i - S s)) by lia. exact Hn.
    + intros [Hle Hn]. destruct (i - s) as [|k] eqn:E.
      * left. injection Hn as ->. f_equal. lia.
      * right. split; [lia|]. replace (i - S s) with k by lia. exact Hn.
Qed.

Lemma In_enumerate {A : Type} (l : list A) i c :
  In (i, c) (enumerate l) <-> nth_error l i = Some c.
Proof.
  unfold enumerate. rewrite In_combine_seq, Nat.sub_0_r. intuition lia.
Qed.

Lemma itos_get text i c :
  dict_get (itos text) i = Some c <-> nth_error (chars text) i = Some c.
Proof.
  unfold itos, dict_of. rewrite <- In_enumerate. split.
  - intros H. apply in_rev. apply dict_get_In. exact H.
  - intros H. apply In_dict_get; [|apply in_rev in H; exact H].
    rewrite map_rev. apply NoDup_rev. unfold enumerate.
    rewrite fst_combine_eq by apply length_seq. apply seq_NoDup.
Qed.

Lemma stoi_get text c i :
  dict_get (stoi text) c = Some i <-> nth_error (chars text) i = Some c.
Proof.
  unfold stoi, dict_of. rewrite <- In_enumerate. split.
  - intros H. apply dict_get_In, in_rev in H. apply in_map_iff in H.
    destruct H as ([i' c'] & E & H). simpl in E. injection E as -> ->. exact H.
  - intros H. apply In_dict_get.
    + rewrite map_rev, map_map. simpl. apply NoDup_rev. unfold enumerate.
      rewrite snd_combine_eq by apply length_seq. apply chars_NoDup.
    + apply in_rev. rewrite rev_involutive. apply in_map_iff. exists (i, c). split; [reflexivity|exact H].
Qed.

Lemma stoi_In text c : In c text -> exists i, dict_get (stoi text) c = Some i /\ i < vocab_size text.
Proof.
  intros H. apply chars_In in H. apply In_nth_error in H. destruct H as [i Hi].
  exists i. split; [apply stoi_get; exact Hi|].
  unfold vocab_size. apply nth_error_Some. congruence.
Qed.

Lemma itos_lt text i :
  i < vocab_size text -> exists c, dict_get (itos text) i = Some c /\ In c text.
Proof.
  intros H. unfold vocab_size in H. destruct (nth_error (chars text) i) as [c|] eqn:E.
  - exists c. split; [apply itos_get; exact E|]. apply chars_In. eapply nth_error_In. exact E.
  - apply nth_error_None in E. lia.
Qed.

Lemma stoi_None text c : dict_get (stoi text) c = None <-> ~ In c text.
Proof.
  split.
  - intros H Hin. destruct (stoi_In _ _ Hin) as (i & E & _). congruence.
  - intros H. destruct (dict_get (stoi text) c) as [i|] eqn:E; [|reflexivity].
    exfalso. apply H. apply chars_In. apply stoi_get in E. eapply nth_error_In. exact E.
Qed.

Lemma itos_None text i : dict_get (itos text) i = None <-> vocab_size text <= i.
Proof.
  split.
  - intros H. destruct (Nat.lt_ge_cases i (vocab_size text)) as [Hlt|Hge]; [|exact Hge].
    destruct (itos_lt _ Hlt) as (c & E & _). congruence.
  - intros H. destruct (dict_get (itos text) i) as [c|] eqn:E; [|reflexivity].
    apply itos_get in E. assert (i < length (chars text)) by (apply nth_error_Some; congruence).
    unfold vocab_size in H. lia.
Qed.

Lemma mapO_None {A B : Type} (f : A -> option B) l :
  mapO f l = None <-> exists a, In a l /\ f a = None.
Proof.
  induction l as [|a l IH]; simpl.
  - split; [discriminate|]. intros (a & [] & _).
  - destruct (f a) as [b|] eqn:E.
    + destruct (mapO f l) as [bs|].
      * split; [discriminate|]. intros (a' & [->|Hin] & E'); [congruence|].
        destruct IH as [_ IH]. discriminate IH. exists a'. split; assumption.
      * split; [|reflexivity]. intros _. destruct IH as [IH _].
        destruct (IH eq_refl) as (a' & Hin & E'). exists a'. split; [right; exact Hin|exact E'].
    + split; [|reflexivity]. intros _. exists a. split; [left; reflexivity|exact E].
Qed.

Lemma encode_then_decode text s :
  Forall (fun c => In c text) s ->
  exists l, encode text s = Some l
            /\ length l = length s
            /\ Forall (fun i => i < vocab_size text) l
            /\ decode text l = Some s.
Proof.
  unfold encode, decode.
  induction 1 as [|c s Hc _ IH]; simpl.
  - exists []. repeat split. constructor.
  - destruct (stoi_In _ _ Hc) as (i & Ei & Hi). destruct IH as (l & El & Hlen & Hl & Dl).
    exists (i :: l). rewrite Ei, El. simpl.
    assert (Ec : dict_get (itos text) i = Some c) by (apply itos_get, stoi_get; exact Ei).
    rewrite Ec, Dl. repeat split; [lia|constructor; assumption].
Qed.

(** X1.  Encoding then decoding gives the string back: for a string [s]
    whose characters all occur in the corpus, [encode(s)] is a list of ids
    below [vocab_size], one per character, and [decode(encode(s))] is [s]. *)
Theorem decode_encode_round_trip :
  forall text s,
    Forall (fun c => In c text) s ->
    exists l, encode text s = Some l
              /\ length l = length s
              /\ Forall (fun i => i < vocab_size text) l
              /\ decode text l = Some s.
Proof.
  intros text s H. apply encode_then_decode. exact H.
Qed.

Lemma decode_encode_round_trip_witness :
  exists l, encode [104; 101; 108; 108; 111] [104; 101; 108; 108] = Some l
            /\ length l = length [104; 101; 108; 108]
            /\ Forall (fun i => i < vocab_size [104; 101; 108; 108; 111]) l
            /\ decode [104; 101; 108; 108; 111] l = Some [104; 101; 108; 108].
Proof.
  apply decode_encode_round_trip.
  repeat constructor; simpl; tauto.
Defined.

Lemma decode_then_encode text l :
  Forall (fun i => i < vocab_size text) l ->
  exists s, decode text l = Some s
            /\ length s = length l
            /\ Forall (fun c => In c text) s
            /\ encode text s = Some l.
Proof.
  unfold encode, decode.
  induction 1 as [|i l Hi _ IH]; simpl.
  - exists []. repeat split. constructor.
  - destruct (itos_lt _ Hi) as (c & Ec & Hc). destruct IH as (s & Ds & Hlen & Hs & Es).
    exists (c :: s). rewrite Ec, Ds. simpl.
    assert (Ei : dict_get (stoi text) c = Some i) by (apply stoi_get, itos_get; exact Ec).
    rewrite Ei, Es. repeat split; [lia|constructor; assumption].
Qed.

(** X2.  Decoding then encoding gives the ids back: for a list [l] of ids
    below [vocab_size], [decode(l)] is a string over the characters of the
    corpus and [encode(decode(l))] is [l]. *)
Theorem encode_decode_round_trip :
  forall text l,
    Forall (fun i => i < vocab_size text) l ->
    exists s, decode text l = Some s
              /\ length s = length l
              /\ Forall (fun c => In c text) s
              /\ encode text s = Some l.
Proof.
  intros text l H. apply decode_then_encode. exact H.
Qed.

Lemma encode_decode_round_trip_witness :
  exists s, decode [104; 101; 108; 108; 111] [3; 0; 1] = Some s
            /\ length s = length [3; 0; 1]
            /\ Forall (fun c => In c [104; 101; 108; 108; 111]) s
            /\ encode [104; 101; 108; 108; 111] s = Some [3; 0; 1].
Proof.
  apply encode_decode_round_trip.
  repeat constructor.
Defined.

(** X3.  The codec raises KeyError exactly on what is outside the
    vocabulary: [encode(s)] fails if and only if [s] has a character that
    does not occur in the corpus, and [decode(l)] fails if and only if [l]
    has an id that is not below [vocab_size]. *)
Theorem codec_KeyError :
  forall text s l,
    (encode text s = None <-> exists c, In c s /\ ~ In c text)
    /\ (decode text l = None <-> exists i, In i l /\ vocab_size text <= i).
Proof.
  intros text s l. unfold encode, decode. rewrite !mapO_None. split.
  - split; intros (c & Hin & H); exists c; (split; [exact Hin|]); apply stoi_None; exact H.
  - split; intros (i & Hin & H); exists i; (split; [exact Hin|]); apply itos_None; exact H.
Qed.

(** X4.  The ids follow the order of the characters: two characters of the
    corpus have ids, and the smaller code point has the smaller id; in
    particular distinct characters have distinct ids. *)
Theorem stoi_follows_character_order :
  forall text c1 c2,
    In c1 text -> In c2 text ->
    exists i1 i2, dict_get (stoi text) c1 = Some i1
                  /\ dict_get (stoi text) c2 = Some i2
                  /\ (c1 < c2 <-> i1 < i2)
                  /\ (c1 = c2 <-> i1 = i2).
Proof.
  intros text c1 c2 H1 H2.
  destruct (stoi_In _ _ H1) as (i1 & E1 & _). destruct (stoi_In _ _ H2) as (i2 & E2 & _).
  exists i1, i2. split; [exact E1|]. split; [exact E2|].
  apply stoi_get in E1, E2. pose proof (chars_increasing text) as Hs.
  assert (Hlt : forall i j a b, i < j -> nth_error (chars text) i = Some a ->
                  nth_error (chars text) j = Some b -> a < b)
    by (intros; eapply increasing_nth; eassumption).
  destruct (Nat.lt_trichotomy i1 i2) as [L|[L|L]].
  - specialize (Hlt _ _ _ _ L E1 E2). split; split; intros; lia.
  - subst i2. assert (c1 = c2) by congruence. split; split; intros; lia.
  - specialize (Hlt _ _ _ _ L E2 E1). split; split; intros; lia.
Qed.

Lemma stoi_follows_character_order_witness :
  exists i1 i2, dict_get (stoi [104; 101; 108; 108; 111]) 101 = Some i1
                /\ dict_get (stoi [104; 101; 108; 108; 111]) 111 = Some i2
                /\ (101 < 111 <-> i1 < i2)
                /\ (101 = 111 <-> i1 = i2).
Proof.
  apply stoi_follows_character_order; simpl; tauto.
Defined.

(** ** The corpus and its split *)

Lemma split_point_div len : split_point len = 9 * len / 10.
Proof.
  unfold split_point.
  assert (E : Z.of_nat (9 * len / 10) = Int_part (9 / 10 * INR len)).
  { apply Int_part_spec. rewrite <- INR_IZR_INZ.
    pose proof (Nat.div_mod_eq (9 * len) 10) as Hd.
    pose proof (Nat.mod_upper_bound (9 * len) 10 ltac:(discriminate)) as Hm.
    assert (H1 : 10 * (9 * len / 10) <= 9 * len) by lia.
    assert (H2 : 9 * len < 10 * (9 * len / 10) + 10) by lia.
    apply le_INR in H1. apply lt_INR in H2.
    rewrite !mult_INR in H1. rewrite plus_INR, !mult_INR in H2.
    assert (E10 : INR 10 = 10%R) by (simpl; lra).
    assert (E9 : INR 9 = 9%R) by (simpl; lra).
    rewrite E10, E9 in *. split; lra. }
  rewrite <- E. lia.
Qed.

Lemma corpus_run text :
  exists train_data val_data,
    corpus text = Some (train_data, val_data)
    /\ encode text text = Some (train_data ++ val_data)
    /\ length train_data = 9 * length text / 10
    /\ length train_data + length val_data = length text
    /\ Forall (fun t => t < vocab_size text) (train_data ++ val_data)
    /\ (text <> [] -> val_data <> []).
Proof.
  assert (Ht : Forall (fun c => In c text) text) by (apply Forall_forall; auto).
  destruct (@encode_then_decode text text Ht) as (data & E & Hlen & Hv & _).
  unfold corpus. rewrite E. rewrite split_point_div, Hlen.
  exists (firstn (9 * length text / 10) data), (skipn (9 * length text / 10) data).
  rewrite firstn_skipn, length_firstn, length_skipn, Hlen.
  pose proof (Nat.div_mod_eq (9 * length text) 10) as Hd.
  pose proof (Nat.mod_upper_bound (9 * length text) 10 ltac:(discriminate)) as Hm.
  repeat split; try assumption; try lia.
  intros Hne Hnil. apply (f_equal (@length nat)) in Hnil.
  rewrite length_skipn, Hlen in Hnil. change (length (@nil nat)) with 0 in Hnil.
  assert (0 < length text) by (destruct text; [congruence|simpl; lia]). lia.
Qed.

(** X5.  The corpus always encodes, into ids below [vocab_size], and is cut
    in two in order: the training part is its first [9 * len / 10] tokens
    (rounded down) and the validation part the rest, which is not empty
    unless the corpus is. *)
Theorem corpus_split :
  forall text,
    exists train_data val_data,
      corpus text = Some (train_data, val_data)
      /\ encode text text = Some (train_data ++ val_data)
      /\ length train_data = 9 * length text / 10
      /\ length train_data + length val_data = length text
      /\ Forall (fun t => t < vocab_size text) (train_data ++ val_data)
      /\ (text <> [] -> val_data <> []).
Proof.
  exact corpus_run.
Qed.

(** ** Computations that only draw *)

Lemma later_refl g : later g g.
Proof. exists 0. reflexivity. Qed.

Lemma later_trans g1 g2 g3 : later g1 g2 -> later g2 g3 -> later g1 g3.
Proof.
  intros [k1 H1] [k2 H2]. exists (k1 + k2). intros n. rewrite H2, H1. f_equal. lia.
Qed.

Lemma later_unit_draws g g' : later g g' -> unit_draws g -> unit_draws g'.
Proof. intros [k H] Hg n. rewrite H. apply Hg. Qed.

Lemma advances_ret {A : Type} (a : A) : advances (ret a).
Proof. intros g a' g' [= _ <-]. apply later_refl. Qed.

Lemma advances_lift {A : Type} (r : result A) : advances (lift r).
Proof. intros g a g'. unfold lift. destruct r; [|discriminate]. intros [= _ <-]. apply later_refl. Qed.

Lemma advances_draw : advances draw.
Proof. intros g a g' [= _ <-]. exists 1. reflexivity. Qed.

Lemma advances_get_generator : advances get_generator.
Proof. intros g a g' [= _ <-]. apply later_refl. Qed.

Lemma advances_bind {A B : Type} (m : M A) (f : A -> M B) :
  advances m -> (forall a, advances (f a)) -> advances (bind m f).
Proof.
  intros Hm Hf g b g'. unfold bind. destruct (m g) as [[a g1]|e] eqn:E; [|discriminate].
  intros H. eapply later_trans; [eapply Hm; exact E|eapply Hf; exact H].
Qed.

Lemma advances_mapM {A B : Type} (f : A -> M B) l :
  (forall a, advances (f a)) -> advances (mapM f l).
Proof.
  intros Hf. induction l as [|a l IH]; simpl.
  - apply advances_ret.
  - apply advances_bind; [apply Hf|]. intros b.
    apply advances_bind; [exact IH|]. intros bs. apply advances_ret.
Qed.

Lemma advances_foldM {A B : Type} (f : A -> B -> M A) l :
  (forall a b, advances (f a b)) -> forall a, advances (foldM f l a).
Proof.
  intros Hf. induction l as [|b l IH]; intros a; simpl.
  - apply advances_ret.
  - apply advances_bind; [apply Hf|]. exact IH.
Qed.

Lemma advances_Dropout training d x : advances (Dropout_forward training d x).
Proof.
  unfold Dropout_forward. destruct training; [|apply advances_ret].
  repeat (apply advances_mapM; intros ?).
  unfold dropout1. apply advances_bind; [apply advances_draw|]. intros u. apply advances_ret.
Qed.

Ltac advance :=
  repeat first
    [ apply advances_ret | apply advances_lift | apply advances_draw
    | apply advances_get_generator | apply advances_Dropout
    | apply advances_bind; [|intros ?]
    | apply advances_mapM; intros ?
    | apply advances_foldM; intros ? ?
    | assumption ].

Lemma advances_Head training h x : advances (Head_forward training h x).
Proof. unfold Head_forward. advance. Qed.

Lemma advances_MultiHeadAttention training a x :
  advances (MultiHeadAttention_forward training a x).
Proof. unfold MultiHeadAttention_forward. advance. Qed.

Lemma advances_FeedForward training f x : advances (FeedForward_forward training f x).
Proof. unfold FeedForward_forward. advance. Qed.

Lemma advances_Block training b x : advances (Block_forward training b x).
Proof. unfold Block_forward. advance. Qed.

Lemma advances_GPT_forward training m idx targets :
  advances (GPT_forward training m idx targets).
Proof. unfold GPT_forward. advance. destruct targets; advance. Qed.

(** ** Computations on uniform draws *)

Lemma samples_ret {A : Type} (a : A) (P : A -> Prop) : P a -> samples (ret a) P.
Proof. intros H g Hg. exists a, g. auto. Qed.

Lemma samples_bind {A B : Type} (m : M A) (f : A -> M B) (P : A -> Prop) (Q : B -> Prop) :
  samples m P -> (forall a, P a -> samples (f a) Q) -> samples (bind m f) Q.
Proof.
  intros Hm Hf g Hg. destruct (Hm g Hg) as (a & g1 & E & Ha & Hg1).
  destruct (Hf a Ha g1 Hg1) as (b & g2 & E2 & Hb & Hg2).
  exists b, g2. unfold bind. rewrite E. auto.
Qed.

Lemma samples_lift {A : Type} (r : result A) (a : A) (P : A -> Prop) :
  r = Ok a -> P a -> samples (lift r) P.
Proof. intros -> H g Hg. exists a, g. auto. Qed.

Lemma samples_weaken {A : Type} (m : M A) (P Q : A -> Prop) :
  samples m P -> (forall a, P a -> Q a) -> samples m Q.
Proof.
  intros Hm HPQ g Hg. destruct (Hm g Hg) as (a & g' & E & Ha & Hg'). exists a, g'. auto.
Qed.

Lemma samples_returns {A : Type} (m : M A) (P : A -> Prop) :
  returns m P -> advances m -> samples m P.
Proof.
  intros Hr Ha g Hg. destruct (Hr g) as (a & g' & E & HP). exists a, g'.
  split; [exact E|]. split; [exact HP|].
  eapply later_unit_draws; [eapply Ha; exact E|exact Hg].
Qed.

Lemma samples_fillM {A : Type} n (m : M A) (P : A -> Prop) :
  samples m P -> samples (fillM n m) (fun l => length l = n /\ Forall P l).
Proof.
  intros Hm. unfold fillM. generalize 0 as s.
  induction n as [|n IH]; intros s; simpl.
  - apply samples_ret. split; [reflexivity|constructor].
  - eapply samples_bind; [exact Hm|]. intros a Ha.
    eapply samples_bind; [apply IH|]. intros l [Hl HP].
    apply samples_ret. simpl. split; [lia|constructor; assumption].
Qed.

Lemma samples_foldM {A B : Type} (f : A -> B -> M A) (I : A -> Prop) (l : list B) :
  (forall a b, In b l -> I a -> samples (f a b) I) ->
  forall a, I a -> samples (foldM f l a) I.
Proof.
  induction l as [|b l IH]; intros Hf a Ha; simpl.
  - apply samples_ret. exact Ha.
  - eapply samples_bind; [apply Hf; [left; reflexivity|exact Ha]|].
    intros a' Ha'. apply IH; [|exact Ha']. intros; apply Hf; [right|]; assumption.
Qed.

(** ** [get_batch] *)

Lemma randint_samples high :
  0 < high -> samples (randint high) (fun i => i < high).
Proof.
  intros Hh g Hg. unfold randint. destruct (high =? 0) eqn:E; [apply Nat.eqb_eq in E; lia|].
  exists (Z.to_nat (Int_part (g 0%nat * INR high)%R)), (fun n => g (S n)).
  split; [reflexivity|]. split; [|intros n; apply Hg].
  destruct (Hg 0) as [H0 H1]. pose proof (lt_INR _ _ Hh) as HhR. simpl in HhR.
  destruct (base_Int_part (g 0%nat * INR high)%R) as [Hle _].
  assert (Hlt : (IZR (Int_part (g 0%nat * INR high)%R) < IZR (Z.of_nat high))%R).
  { rewrite <- INR_IZR_INZ. eapply Rle_lt_trans; [exact Hle|]. nra. }
  apply lt_IZR in Hlt. lia.
Qed.

Lemma pyslice_length {A : Type} i n (data : list A) :
  i + n <= length data -> length (pyslice i (i + n) data) = n.
Proof.
  intros H. unfold pyslice. rewrite length_firstn, length_skipn. lia.
Qed.

Lemma pyslice_nth {A : Type} i n (data : list A) t d :
  t < n -> nth t (pyslice i (i + n) data) d = nth (i + t) data d.
Proof.
  intros H. unfold pyslice. rewrite nth_firstn, nth_skipn.
  replace (t <? i + n - i) with true; [reflexivity|].
  symmetry. apply Nat.ltb_lt. lia.
Qed.

Lemma pyslice_Forall {A : Type} (P : A -> Prop) i j (data : list A) :
  Forall P data -> Forall P (pyslice i j data).
Proof.
  intros H. unfold pyslice. apply Forall_forall. intros a Ha.
  rewrite Forall_forall in H. apply H.
  apply In_firstn in Ha. rewrite <- (firstn_skipn i data). apply in_or_app. right. exact Ha.
Qed.

Lemma stack_Ok n (rows : list (list nat)) :
  rows <> [] -> Forall (fun r => length r = n) rows ->
  stack rows = Ok (mkLong (length rows) n rows).
Proof.
  intros Hne Hr. unfold stack. destruct rows as [|r rows']; [congruence|].
  assert (Hn : length r = n) by exact (Forall_inv Hr). rewrite Hn.
  replace (all_len n (r :: rows')) with true; [reflexivity|].
  symmetry. apply all_len_iff. exact Hr.
Qed.

Section GetBatch.

Variables batch_size block_size : nat.
Variables train_data val_data : list nat.

Local Abbreviation batch := (get_batch batch_size block_size train_data val_data).
Local Abbreviation data_of s := (match s with train => train_data | val => val_data end).

(** The windows of a batch, from their offsets. *)
Lemma get_batch_samples s :
  0 < batch_size -> block_size < length (data_of s) ->
  samples (batch s)
    (fun xy => exists ix,
         length ix = batch_size
         /\ Forall (fun i => i + block_size < length (data_of s)) ix
         /\ fst xy = mkLong batch_size block_size
                       (map (fun i => pyslice i (i + block_size) (data_of s)) ix)
         /\ snd xy = mkLong batch_size block_size
                       (map (fun i => pyslice (i + 1) (i + 1 + block_size) (data_of s)) ix)).
Proof.
  intros HB Hlen. unfold get_batch.
  eapply samples_bind.
  { apply samples_fillM. apply randint_samples. lia. }
  intros ix [Hix Hr]. simpl in Hr.
  assert (Hne : ix <> []) by (destruct ix; [simpl in Hix; lia|discriminate]).
  assert (Hw : Forall (fun i => i + block_size < length (data_of s)) ix)
    by (eapply Forall_impl; [|exact Hr]; simpl; intros; lia).
  assert (Sx : stack (map (fun i => pyslice i (i + block_size) (data_of s)) ix)
               = Ok (mkLong batch_size block_size
                       (map (fun i => pyslice i (i + block_size) (data_of s)) ix))).
  { rewrite <- Hix at 1. rewrite <- (length_map (fun i => pyslice i (i + block_size) (data_of s)) ix).
    apply stack_Ok.
    - destruct ix; [congruence|discriminate].
    - apply Forall_map. eapply Forall_impl; [|exact Hw]. simpl.
      intros i Hi. apply pyslice_length. lia. }
  assert (Sy : stack (map (fun i => pyslice (i + 1) (i + 1 + block_size) (data_of s)) ix)
               = Ok (mkLong batch_size block_size
                       (map (fun i => pyslice (i + 1) (i + 1 + block_size) (data_of s)) ix))).
  { rewrite <- Hix at 1.
    rewrite <- (length_map (fun i => pyslice (i + 1) (i + 1 + block_size) (data_of s)) ix).
    apply stack_Ok.
    - destruct ix; [congruence|discriminate].
    - apply Forall_map. eapply Forall_impl; [|exact Hw]. simpl.
      intros i Hi. apply pyslice_length. lia. }
  rewrite Sx, Sy.
  apply samples_bind with (P := fun x => x = mkLong batch_size block_size
                       (map (fun i => pyslice i (i + block_size) (data_of s)) ix)).
  { eapply samples_lift; reflexivity. }
  intros x ->.
  apply samples_bind with (P := fun y => y = mkLong batch_size block_size
                       (map (fun i => pyslice (i + 1) (i + 1 + block_size) (data_of s)) ix)).
  { eapply samples_lift; reflexivity. }
  intros y ->.
  apply samples_ret. exists ix. auto.
Qed.

Lemma get_batch_tokens s V :
  0 < batch_size -> block_size < length (data_of s) -> Forall (fun t => t < V) (data_of s) ->
  samples (batch s)
    (fun xy => token_batch V batch_size block_size (fst xy)
               /\ token_batch V batch_size block_size (snd xy)
               /\ viewable (snd xy) = true).
Proof.
  intros HB Hlen HV. eapply samples_weaken; [apply get_batch_samples; assumption|].
  intros [x y] (ix & Hix & Hw & Ex & Ey). simpl in Ex, Ey. subst x y.
  unfold fst, snd.
  assert (Hx : forall f : nat -> list nat,
             (forall i, i + block_size < length (data_of s) ->
                        length (f i) = block_size /\ Forall (fun t => t < V) (f i)) ->
             token_batch V batch_size block_size (mkLong batch_size block_size (map f ix))).
  { intros f Hf. unfold token_batch, mkLong. simpl.
    split; [reflexivity|]. split; [reflexivity|]. split; [split|].
    - rewrite length_map. exact Hix.
    - apply Forall_map. eapply Forall_impl; [|exact Hw]. simpl. intros i Hi. apply Hf. exact Hi.
    - apply Forall_map. eapply Forall_impl; [|exact Hw]. simpl. intros i Hi. apply Hf. exact Hi. }
  split; [|split].
  - apply Hx. intros i Hi. split; [apply pyslice_length; lia|apply pyslice_Forall; exact HV].
  - apply Hx. intros i Hi. split; [apply pyslice_length; lia|apply pyslice_Forall; exact HV].
  - apply viewable_mkLong.
Qed.

End GetBatch.

(** X6.  From a generator of uniform numbers, with a positive batch size
    and data longer than [block_size], [get_batch] returns inputs and targets
    of shape (batch_size, block_size): row [b] of the inputs is the window of
    the data at an offset [i] with [i + block_size < len(data)], row [b] of
    the targets is the window one token later, so the target at position [t]
    is the input at position [t + 1], and the tokens are those of the data. *)
Theorem get_batch_windows :
  forall batch_size block_size train_data val_data s g,
    0 < batch_size ->
    block_size < length (match s with train => train_data | val => val_data end) ->
    unit_draws g ->
    exists x y ix g',
      let data := match s with train => train_data | val => val_data end in
      get_batch batch_size block_size train_data val_data s g = Ok ((x, y), g')
      /\ unit_draws g'
      /\ size0 x = batch_size /\ size1 x = block_size
      /\ size0 y = batch_size /\ size1 y = block_size
      /\ length ix = batch_size
      /\ elems x = map (fun i => pyslice i (i + block_size) data) ix
      /\ elems y = map (fun i => pyslice (i + 1) (i + 1 + block_size) data) ix
      /\ (forall b, b < batch_size ->
            nth b ix 0 + block_size < length data
            /\ length (nth b (elems x) []) = block_size
            /\ length (nth b (elems y) []) = block_size
            /\ (forall t, t < block_size ->
                  nth t (nth b (elems x) []) 0 = nth (nth b ix 0 + t) data 0
                  /\ nth t (nth b (elems y) []) 0 = nth (nth b ix 0 + t + 1) data 0)
            /\ (forall t, t + 1 < block_size ->
                  nth t (nth b (elems y) []) 0 = nth (t + 1) (nth b (elems x) []) 0))
      /\ (forall V, Forall (fun t => t < V) data ->
            token_batch V batch_size block_size x /\ token_batch V batch_size block_size y).
Proof.
  intros batch_size block_size train_data val_data s g HB Hlen Hg.
  destruct (@get_batch_samples batch_size block_size train_data val_data s HB Hlen g Hg)
    as ([x y] & g' & E & (ix & Hix & Hw & Ex & Ey) & Hg').
  simpl in Ex, Ey. subst x y.
  exists (mkLong batch_size block_size
            (map (fun i => pyslice i (i + block_size)
                    (match s with train => train_data | val => val_data end)) ix)),
         (mkLong batch_size block_size
            (map (fun i => pyslice (i + 1) (i + 1 + block_size)
                    (match s with train => train_data | val => val_data end)) ix)),
         ix, g'.
  cbv zeta. simpl size0. simpl size1. simpl elems.
  split; [exact E|]. split; [exact Hg'|].
  do 7 (split; [reflexivity || exact Hix|]).
  split.
  - intros b Hb.
    assert (Hi : nth b ix 0 + block_size
                 < length (match s with train => train_data | val => val_data end)).
    { rewrite Forall_forall in Hw. apply Hw. apply nth_In. lia. }
    set (data := match s with train => train_data | val => val_data end) in *.
    assert (Ex : nth b (map (fun i => pyslice i (i + block_size) data) ix) []
                 = pyslice (nth b ix 0) (nth b ix 0 + block_size) data).
    { rewrite (nth_indep _ [] ((fun i => pyslice i (i + block_size) data) 0))
        by (rewrite length_map; lia).
      apply (map_nth (fun i => pyslice i (i + block_size) data)). }
    assert (Ey : nth b (map (fun i => pyslice (i + 1) (i + 1 + block_size) data) ix) []
                 = pyslice (nth b ix 0 + 1) (nth b ix 0 + 1 + block_size) data).
    { rewrite (nth_indep _ [] ((fun i => pyslice (i + 1) (i + 1 + block_size) data) 0))
        by (rewrite length_map; lia).
      apply (map_nth (fun i => pyslice (i + 1) (i + 1 + block_size) data)). }
    rewrite Ex, Ey. split; [exact Hi|].
    split; [apply pyslice_length; lia|]. split; [apply pyslice_length; lia|].
    split.
    + intros t Ht. rewrite !pyslice_nth by exact Ht. split; [reflexivity|f_equal; lia].
    + intros t Ht. rewrite !pyslice_nth by lia. f_equal. lia.
  - intros V HV.
    destruct (@get_batch_tokens batch_size block_size train_data val_data s V HB Hlen HV g Hg)
      as (xy & g2 & E2 & (Hx & Hy & _) & _).
    rewrite E in E2. injection E2 as <- _. split; assumption.
Qed.

Lemma get_batch_windows_witness :
  exists x y ix g',
    let data := [0; 1; 2; 3; 4; 5] in
    get_batch 2 3 [0; 1; 2; 3; 4; 5] [] train zero_gen = Ok ((x, y), g')
    /\ unit_draws g'
    /\ size0 x = 2 /\ size1 x = 3
    /\ size0 y = 2 /\ size1 y = 3
    /\ length ix = 2
    /\ elems x = map (fun i => pyslice i (i + 3) data) ix
    /\ elems y = map (fun i => pyslice (i + 1) (i + 1 + 3) data) ix
    /\ (forall b, b < 2 ->
          nth b ix 0 + 3 < length data
          /\ length (nth b (elems x) []) = 3
          /\ length (nth b (elems y) []) = 3
          /\ (forall t, t < 3 ->
                nth t (nth b (elems x) []) 0 = nth (nth b ix 0 + t) data 0
                /\ nth t (nth b (elems y) []) 0 = nth (nth b ix 0 + t + 1) data 0)
          /\ (forall t, t + 1 < 3 ->
                nth t (nth b (elems y) []) 0 = nth (t + 1) (nth b (elems x) []) 0))
    /\ (forall V, Forall (fun t => t < V) data ->
          token_batch V 2 3 x /\ token_batch V 2 3 y).
Proof.
  apply (@get_batch_windows 2 3 [0; 1; 2; 3; 4; 5] [] train zero_gen).
  - lia.
  - simpl. lia.
  - intros n. unfold zero_gen. lra.
Defined.

Lemma get_batch_raises_when batch_size block_size train_data val_data s g :
  batch_size = 0
  \/ length (match s with train => train_data | val => val_data end) <= block_size ->
  get_batch batch_size block_size train_data val_data s g = Err RuntimeError.
Proof.
  intros H. unfold get_batch.
  destruct batch_size as [|n].
  - reflexivity.
  - destruct H as [H|H]; [discriminate|].
    unfold fillM. simpl. unfold bind at 1. unfold bind at 1. unfold randint.
    replace (length (match s with train => train_data | val => val_data end) - block_size)
      with 0 by lia.
    reflexivity.
Qed.

(** X7.  [get_batch] raises RuntimeError, whatever the generator, when the
    batch size is zero ([torch.stack] of no rows) or when the data is not
    longer than [block_size] ([torch.randint] over an empty range). *)
Theorem get_batch_raises :
  forall batch_size block_size train_data val_data s g,
    batch_size = 0
    \/ length (match s with train => train_data | val => val_data end) <= block_size ->
    get_batch batch_size block_size train_data val_data s g = Err RuntimeError.
Proof.
  intros batch_size block_size train_data val_data s g H.
  apply get_batch_raises_when. exact H.
Qed.

Lemma get_batch_raises_witness :
  get_batch Hyper.batch_size Hyper.block_size (repeat 0 256) [] train zero_gen
  = Err RuntimeError.
Proof.
  apply get_batch_raises. right. rewrite repeat_length. unfold Hyper.block_size. lia.
Defined.

(** X8.  With a positive [block_size], both parts of the corpus are long
    enough for [get_batch] exactly when the corpus has more than
    [10 * block_size] characters; on a corpus that is not, [get_batch('val')]
    raises RuntimeError whatever the generator. *)
Theorem corpus_long_enough :
  forall text batch_size block_size,
    0 < block_size ->
    exists train_data val_data,
      corpus text = Some (train_data, val_data)
      /\ (block_size < length train_data /\ block_size < length val_data
            <-> 10 * block_size < length text)
      /\ (length text <= 10 * block_size ->
            forall g, get_batch batch_size block_size train_data val_data val g
                      = Err RuntimeError).
Proof.
  intros text batch_size block_size Hbs.
  destruct (corpus_run text) as (tr & va & E & _ & Htr & Hsum & _).
  exists tr, va. split; [exact E|].
  pose proof (Nat.div_mod_eq (9 * length text) 10) as Hd.
  pose proof (Nat.mod_upper_bound (9 * length text) 10 ltac:(discriminate)) as Hm.
  split; [lia|].
  intros Hshort g. apply get_batch_raises_when. right. lia.
Qed.

Lemma corpus_long_enough_witness :
  exists train_data val_data,
    corpus (repeat 7 2560) = Some (train_data, val_data)
    /\ (Hyper.block_size < length train_data /\ Hyper.block_size < length val_data
          <-> 10 * Hyper.block_size < length (repeat 7 2560))
    /\ (length (repeat 7 2560) <= 10 * Hyper.block_size ->
          forall g, get_batch Hyper.batch_size Hyper.block_size train_data val_data val g
                    = Err RuntimeError).
Proof.
  apply corpus_long_enough. unfold Hyper.block_size. lia.
Defined.

(** ** Contexts longer than the mask *)








(** ** The multi-head layer and the feed-forward network *)

(** X10.  On a context no longer than [block_size], the multi-head layer
    returns a tensor of the shape of its input, (B, T, n_embd), in both
    modes; with dropout off it leaves the generator alone and its output is
    the projection of the heads' outputs concatenated along the channels,
    which are [head_size * num_heads] wide. *)
Theorem multi_head_attention_output :
  forall bs C hs training a B T x,
    wf_MultiHeadAttention bs C hs a -> shape3 B T C x -> T <= bs ->
    returns (MultiHeadAttention_forward training a x) (shape3 B T C)
    /\ shape3 B T (hs * length (heads a)) (map (mha_cat (heads a)) x)
    /\ (forall g,
          MultiHeadAttention_forward false a x g
          = Ok (map (fun xb => map (Linear_row (proj a)) (mha_cat (heads a) xb)) x, g)).
Proof.
  intros bs C hs training a B T x Ha Hx HT. split; [|split].
  - eapply MultiHeadAttention_forward_returns; eassumption.
  - destruct Ha as (Hne & Hh & _). eapply cat_last_eval; eassumption.
  - intros g. destruct (MultiHeadAttention_forward_eval g Ha Hx HT) as [E _]. exact E.
Qed.

Lemma multi_head_attention_output_witness :
  let a := mkMHA (repeat (zero_Head 8 64 16) 4) (zero_Linear (16 * 4) 64 true)
                 (mkDropout Hyper.dropout) in
  let x := repeat (repeat (repeat 0%R 64) 8) 2 in
  returns (MultiHeadAttention_forward true a x) (shape3 2 8 64)
  /\ shape3 2 8 (16 * length (heads a)) (map (mha_cat (heads a)) x)
  /\ (forall g,
        MultiHeadAttention_forward false a x g
        = Ok (map (fun xb => map (Linear_row (proj a)) (mha_cat (heads a) xb)) x, g)).
Proof.
  apply (@multi_head_attention_output 8 64 16).
  - split; [discriminate|]. split.
    + apply Forall_forall. intros h Hh. apply repeat_spec in Hh. subst h.
      apply zero_Head_wf. lia.
    + apply zero_Linear_wf.
  - split; [reflexivity|]. apply Forall_forall. intros m Hm. apply repeat_spec in Hm. subst m.
    apply shape2_repeat. apply repeat_length.
  - lia.
Defined.

Lemma Linear_forward_mismatch l (xb : mat) (x : tensor3) v :
  In v xb -> length v <> in_features l -> Linear_forward l (xb :: x) = Err RuntimeError.
Proof.
  intros Hin Hv. unfold Linear_forward.
  replace (forallb (all_len (in_features l)) (xb :: x)) with false; [reflexivity|].
  symmetry. simpl. apply andb_false_iff. left.
  destruct (all_len (in_features l) xb) eqn:E; [|reflexivity].
  apply all_len_iff in E. rewrite Forall_forall in E. specialize (E v Hin). contradiction.
Qed.

(** X11.  The feed-forward network works on every position separately: on
    an input of shape (B, T, n_embd) it returns that shape in both modes, and
    with dropout off the output at a position is [ffwd_row] of the input at
    that position (expansion to [4 * n_embd], ReLU, contraction), the
    generator untouched.  A non-empty input of another width raises
    RuntimeError at the first layer. *)
Theorem feed_forward_is_position_wise :
  forall C training f B T x,
    wf_FeedForward C f -> shape3 B T C x ->
    returns (FeedForward_forward training f x) (shape3 B T C)
    /\ (forall g, FeedForward_forward false f x g = Ok (map (map (ffwd_row f)) x, g))
    /\ (forall v, length v = C ->
          length (Linear_row (net0 f) v) = 4 * C /\ length (ffwd_row f v) = C)
    /\ (forall C' x' g,
          shape3 B T C' x' -> C' <> C -> 0 < B -> 0 < T ->
          FeedForward_forward training f x' g = Err RuntimeError).
Proof.
  intros C training f B T x Hf Hx. split; [|split; [|split]].
  - eapply FeedForward_forward_returns; eassumption.
  - intros g. destruct (FeedForward_forward_eval g Hf Hx) as [E _]. rewrite E.
    f_equal. f_equal. apply map_ext. intros xb. unfold ffwd_eval, ffwd_row.
    rewrite !map_map. reflexivity.
  - intros v Hv. destruct Hf as [H0 H2]. unfold ffwd_row. split.
    + eapply Linear_row_length. exact H0.
    + eapply Linear_row_length. exact H2.
  - intros C' x' g [Hl Hx'] HC HB HT. unfold FeedForward_forward.
    destruct x' as [|xb x']; [simpl in Hl; lia|].
    apply Forall_inv in Hx'. destruct Hx' as [Hlb Hxb].
    destruct xb as [|v xb]; [simpl in Hlb; lia|].
    unfold bind. rewrite (@Linear_forward_mismatch (net0 f) (v :: xb) x' v).
    + reflexivity.
    + left. reflexivity.
    + apply Forall_inv in Hxb. destruct Hf as [(Hin & _) _]. rewrite Hin, Hxb. exact HC.
Qed.

Lemma feed_forward_is_position_wise_witness :
  let f := mkFeedForward (zero_Linear 64 (4 * 64) true) (zero_Linear (4 * 64) 64 true)
                         (mkDropout Hyper.dropout) in
  let x := repeat (repeat (repeat 0%R 64) 8) 2 in
  returns (FeedForward_forward true f x) (shape3 2 8 64)
  /\ (forall g, FeedForward_forward false f x g = Ok (map (map (ffwd_row f)) x, g))
  /\ (forall v, length v = 64 ->
        length (Linear_row (net0 f) v) = 4 * 64 /\ length (ffwd_row f v) = 64)
  /\ (forall C' x' g,
        shape3 2 8 C' x' -> C' <> 64 -> 0 < 2 -> 0 < 8 ->
        FeedForward_forward true f x' g = Err RuntimeError).
Proof.
  apply (@feed_forward_is_position_wise 64 true).
  - split; apply zero_Linear_wf.
  - split; [reflexivity|]. apply Forall_forall. intros m Hm. apply repeat_spec in Hm. subst m.
    apply shape2_repeat. apply repeat_length.
Defined.

(** ** What [forward] refuses *)

Lemma mapR_Err {A B : Type} (f : A -> result B) e l :
  (exists a, In a l /\ f a = Err e) ->
  (forall a, In a l -> forall e', f a = Err e' -> e' = e) ->
  mapR f l = Err e.
Proof.
  intros (a & Hin & Ea) Honly. destruct (mapR f l) as [bs|e'] eqn:E.
  - apply mapR_Ok_inv in E. destruct (@Forall2_In_l _ _ _ _ _ a E Hin) as [b Hb]. congruence.
  - f_equal. eapply mapR_only_error; [exact Honly|exact E].
Qed.

Lemma In_combine_r_exists {A B : Type} (a : list A) (b : list B) y :
  length a = length b -> In y b -> exists x, In (x, y) (combine a b).
Proof.
  revert b. induction a as [|x a IH]; intros [|y' b] Hl Hin; simpl in *; try discriminate;
    [contradiction|].
  destruct Hin as [->|Hin].
  - exists x. left. reflexivity.
  - destruct (IH b ltac:(lia) Hin) as [x' Hx']. exists x'. right. exact Hx'.
Qed.

(** X12.  [forward] looks every token up before anything else: a batch
    holding an id that is not below [vocab_size] raises IndexError, with or
    without targets, in both modes and from every generator state; when the
    vocabulary is empty ([vocab_size = 0], a token table without rows) the
    lookup raises RuntimeError instead. *)
Theorem forward_rejects_unknown_token :
  forall bs C V m idx row t training targets g,
    wf_GPT bs C V m ->
    In row (elems idx) -> In t row -> V <= t ->
    GPT_forward training m idx targets g
    = Err (if V =? 0 then RuntimeError else IndexError).
Proof.
  intros bs C V m idx row t training targets g (Hte & _) Hrow Ht HV.
  destruct Hte as [Hn _].
  assert (E : mapR (mapR (Embedding_lookup (token_embedding m))) (elems idx)
              = Err (if V =? 0 then RuntimeError else IndexError)).
  { destruct (Nat.eqb_spec V 0) as [E0|E0].
    - apply mapR_Err.
      + exists row. split; [exact Hrow|]. apply mapR_Err.
        * exists t. split; [exact Ht|]. apply Embedding_lookup_empty. lia.
        * intros a _ e' Ea. rewrite Embedding_lookup_empty in Ea by lia. congruence.
      + intros r _ e' Er. eapply mapR_only_error; [|exact Er].
        intros a _ e'' Ea. rewrite Embedding_lookup_empty in Ea by lia. congruence.
    - apply mapR_Err.
      + exists row. split; [exact Hrow|]. apply mapR_Err.
        * exists t. split; [exact Ht|]. apply Embedding_lookup_ge; lia.
        * intros a _ e'. apply Embedding_lookup_error. lia.
      + intros r _ e' Er. eapply mapR_only_error; [|exact Er].
        intros a _ e''. apply Embedding_lookup_error. lia. }
  unfold GPT_forward. unfold bind at 1. rewrite E. reflexivity.
Qed.

Lemma forward_rejects_unknown_token_witness :
  GPT_forward true script_model (mkLong 1 2 [[0; 65]]) None zero_gen = Err IndexError
  /\ GPT_forward true (zero_GPT 4 4 2 1 0) (mkLong 1 1 [[0]]) None zero_gen
     = Err RuntimeError.
Proof.
  split.
  - apply (@forward_rejects_unknown_token Hyper.block_size Hyper.n_embd 65 script_model
             (mkLong 1 2 [[0; 65]]) [0; 65] 65).
    + exact script_model_wf.
    + left. reflexivity.
    + right. left. reflexivity.
    + lia.
  - apply (@forward_rejects_unknown_token 4 4 0 (zero_GPT 4 4 2 1 0)
             (mkLong 1 1 [[0]]) [0] 0).
    + apply zero_GPT_wf; lia.
    + left. reflexivity.
    + left. reflexivity.
    + lia.
Defined.

(** X13.  Of the targets [forward] checks the number of elements, the
    layout and the ids, not the shape.  For a valid batch of shape (B, T) with
    [T <= block_size], whose logits without targets from the generator state
    [g] are [logits], and a well-formed targets tensor: another element count
    than [B * T] raises RuntimeError, and so do strides that [view] cannot
    flatten; with the right count and such strides, an id that is not below
    [vocab_size] raises IndexError (in [cross_entropy]), and valid ids, in
    whatever shape, return [logits] flattened and their cross-entropy against
    the targets read in row-major order. *)
Theorem forward_checks_targets_by_count :
  forall bs C V training m B T idx targets g,
    wf_GPT bs C V m -> token_batch V B T idx -> T <= bs ->
    shape2 (size0 targets) (size1 targets) (elems targets) ->
    exists logits g',
      GPT_forward training m idx None g = Ok ((Logits3 logits, None), g')
      /\ shape3 B T V logits
      /\ (size0 targets * size1 targets <> B * T ->
            GPT_forward training m idx (Some targets) g = Err RuntimeError)
      /\ (viewable targets = false ->
            GPT_forward training m idx (Some targets) g = Err RuntimeError)
      /\ (size0 targets * size1 targets = B * T -> viewable targets = true ->
          (exists t, In t (concat (elems targets)) /\ V <= t) ->
          GPT_forward training m idx (Some targets) g = Err IndexError)
      /\ (size0 targets * size1 targets = B * T -> viewable targets = true ->
          Forall (fun t => t < V) (concat (elems targets)) ->
          GPT_forward training m idx (Some targets) g
          = Ok ((Logits2 (concat logits),
                 Some (cross_entropy_spec (concat logits) (concat (elems targets)))), g')).
Proof.
  intros bs C V training m B T idx targets g Hm Hidx HT Htg.
  destruct (GPT_logits_split training g Hm Hidx HT) as (logits & g' & Hl & Erun).
  destruct Hidx as (Hi0 & Hi1 & _).
  pose proof (shape2_concat_length Htg) as Hcount.
  pose proof (shape3_concat Hl) as Hflat.
  exists logits, g'.
  split; [unfold GPT_forward; rewrite Erun; reflexivity|]. split; [exact Hl|].
  unfold GPT_forward. cbv beta zeta iota. rewrite Erun. rewrite Hi0, Hi1.
  unfold view1. split; [|split; [|split]].
  - intros Hne. destruct (Nat.eqb_spec (size0 targets * size1 targets) (B * T)); [lia|].
    reflexivity.
  - intros Hv. rewrite Hv.
    destruct (size0 targets * size1 targets =? B * T); reflexivity.
  - intros He Hv (t & Hin & Ht). rewrite He, Nat.eqb_refl, Hv. unfold bind at 1. simpl.
    assert (Ece : cross_entropy (concat logits) (concat (elems targets)) = Err IndexError).
    { unfold cross_entropy. destruct Hflat as [Hfl Hfr].
      replace (length (concat logits) =? length (concat (elems targets))) with true
        by (symmetry; apply Nat.eqb_eq; lia).
      rewrite (@mapR_Err _ _ (fun rt => nll_row (fst rt) (snd rt)) IndexError); [reflexivity| |].
      - destruct (@In_combine_r_exists _ _ (concat logits) (concat (elems targets)) t)
          as [row Hrow]; [lia|exact Hin|].
        exists (row, t). split; [exact Hrow|]. simpl. unfold nll_row.
        rewrite Forall_forall in Hfr. rewrite (Hfr row) by (eapply in_combine_l; exact Hrow).
        destruct (Nat.ltb_spec t V); [lia|reflexivity].
      - intros [row t'] _ e'. simpl. unfold nll_row.
        destruct (t' <? length row); congruence. }
    unfold bind at 1. rewrite Ece. reflexivity.
  - intros He Hv Hval. rewrite He, Nat.eqb_refl, Hv. unfold bind at 1. simpl.
    destruct (@cross_entropy_is_spec (B * T) V (concat logits) (concat (elems targets)))
      as [Ece _]; [exact Hflat|lia|exact Hval|].
    unfold bind at 1. rewrite Ece. reflexivity.
Qed.

Lemma forward_checks_targets_by_count_witness :
  let m := zero_GPT Hyper.block_size Hyper.n_embd Hyper.n_head Hyper.n_layer 10 in
  let idx := zero_batch 2 8 in
  let targets := zero_batch 8 2 in
  let strided := mkStrided 2 8 1 2 (repeat (repeat 0 8) 2) in
  (exists logits g',
     GPT_forward false m idx None zero_gen = Ok ((Logits3 logits, None), g')
     /\ shape3 2 8 10 logits
     /\ GPT_forward false m idx (Some targets) zero_gen
        = Ok ((Logits2 (concat logits),
               Some (cross_entropy_spec (concat logits) (concat (elems targets)))), g'))
  /\ GPT_forward false m idx (Some strided) zero_gen = Err RuntimeError
  /\ GPT_forward false m idx (Some (zero_batch 2 7)) zero_gen = Err RuntimeError.
Proof.
  intros m idx targets strided.
  assert (Hm : wf_GPT Hyper.block_size Hyper.n_embd 10 m)
    by (apply zero_GPT_wf; unfold Hyper.n_head, Hyper.n_embd; lia).
  assert (Hidx : token_batch 10 2 8 idx) by (apply zero_batch_tokens; lia).
  assert (HT : 8 <= Hyper.block_size) by (unfold Hyper.block_size; lia).
  split; [|split].
  - destruct (@forward_checks_targets_by_count Hyper.block_size Hyper.n_embd 10 false m 2 8
                idx targets zero_gen Hm Hidx HT)
      as (logits & g' & E0 & Hl & _ & _ & _ & Hok).
    + apply shape2_repeat. apply repeat_length.
    + exists logits, g'. split; [exact E0|]. split; [exact Hl|].
      apply Hok; [reflexivity|reflexivity|].
      repeat constructor.
  - destruct (@forward_checks_targets_by_count Hyper.block_size Hyper.n_embd 10 false m 2 8
                idx strided zero_gen Hm Hidx HT)
      as (logits & g' & _ & _ & _ & Hstr & _).
    + apply shape2_repeat. apply repeat_length.
    + apply Hstr. reflexivity.
  - destruct (@forward_checks_targets_by_count Hyper.block_size Hyper.n_embd 10 false m 2 8
                idx (zero_batch 2 7) zero_gen Hm Hidx HT)
      as (logits & g' & _ & _ & Hcnt & _).
    + apply shape2_repeat. apply repeat_length.
    + apply Hcnt. simpl. lia.
Defined.

(** ** Construction and [_init_weights] *)

Lemma Linear_init_state n_in n_out with_bias :
  returns (Linear_init n_in n_out with_bias) (Linear_state false n_in n_out with_bias).
Proof.
  unfold Linear_init.
  eapply returns_bind; [apply returns_matrix; apply returns_draw_map|].
  intros w Hw. destruct with_bias.
  - eapply returns_bind.
    + eapply returns_bind; [apply returns_fillM; apply returns_draw_map|].
      intros b Hb.
      apply returns_ret with (P := fun ob => exists b', ob = Some b' /\ length b' = n_out).
      exists b. split; [reflexivity|apply Hb].
    + intros ob (b & -> & Hb). apply returns_ret. split; [|discriminate].
      unfold wf_Linear. simpl. auto.
  - eapply returns_bind; [apply returns_ret with (P := fun ob => ob = @None vec); reflexivity|].
    intros ob ->. apply returns_ret. split; [|reflexivity].
    unfold wf_Linear. simpl. auto.
Qed.

Lemma map_const_repeat {A B : Type} (b : B) (l : list A) :
  map (fun _ => b) l = repeat b (length l).
Proof. induction l as [|a l IH]; simpl; [reflexivity|]. rewrite IH. reflexivity. Qed.

Lemma init_Linear_state z n_in n_out with_bias l :
  Linear_state z n_in n_out with_bias l ->
  returns (init_Linear l) (Linear_state true n_in n_out with_bias).
Proof.
  intros [(Hin & Hout & Hw & Hb) Hs]. unfold init_Linear.
  eapply returns_bind; [apply init_matrix_returns; exact Hw|].
  intros w Hw'. apply returns_ret. split.
  - unfold wf_Linear. simpl. repeat split; try assumption; try apply Hw'.
    destruct (bias l); simpl; [rewrite length_map; exact Hb|exact I].
  - simpl. destruct with_bias.
    + destruct (bias l) as [b|]; simpl.
      * rewrite map_const_repeat, Hb. reflexivity.
      * destruct z; [discriminate|congruence].
    + rewrite Hs. reflexivity.
Qed.

Lemma Head_init_state bs C p hs :
  returns (Head_init bs C p hs) (Head_state false bs C hs p).
Proof.
  unfold Head_init.
  eapply returns_bind; [apply Linear_init_state|]. intros k Hk.
  eapply returns_bind; [apply Linear_init_state|]. intros q Hq.
  eapply returns_bind; [apply Linear_init_state|]. intros v Hv.
  apply returns_ret. unfold Head_state. simpl. auto.
Qed.

Lemma init_Head_state z bs C hs p h :
  Head_state z bs C hs p h -> returns (init_Head h) (Head_state true bs C hs p).
Proof.
  intros (Hk & Hq & Hv & Ht & Hd). unfold init_Head.
  eapply returns_bind; [eapply init_Linear_state; exact Hk|]. intros k Hk'.
  eapply returns_bind; [eapply init_Linear_state; exact Hq|]. intros q Hq'.
  eapply returns_bind; [eapply init_Linear_state; exact Hv|]. intros v Hv'.
  apply returns_ret. unfold Head_state. simpl. auto.
Qed.

Lemma Block_init_state bs C p nh :
  0 < nh -> returns (Block_init bs C p C nh) (Block_state false bs C nh p).
Proof.
  intros Hnh. unfold Block_init.
  apply returns_bind with (P := fun hs => hs = C / nh).
  { eapply returns_lift; [|reflexivity]. unfold floordiv.
    destruct (Nat.eqb_spec nh 0); [lia|reflexivity]. }
  intros hs ->. unfold MultiHeadAttention_init, FeedForward_init.
  eapply returns_bind.
  { eapply returns_bind; [apply returns_fillM; apply Head_init_state|]. intros hl [Hl Hh].
    eapply returns_bind; [apply Linear_init_state|]. intros pr Hp.
    apply returns_ret
      with (P := fun a => length (heads a) = nh
                          /\ Forall (Head_state false bs C (C / nh) p) (heads a)
                          /\ Linear_state false (C / nh * nh) C true (proj a)
                          /\ MHA_dropout a = mkDropout p).
    simpl. auto. }
  intros a (Hl & Hh & Hp & Hd).
  eapply returns_bind.
  { eapply returns_bind; [apply Linear_init_state|]. intros f0 Hf0.
    eapply returns_bind; [apply Linear_init_state|]. intros f2 Hf2.
    apply returns_ret
      with (P := fun f => Linear_state false C (4 * C) true (net0 f)
                          /\ Linear_state false (4 * C) C true (net2 f)
                          /\ net3 f = mkDropout p).
    simpl. auto. }
  intros f (Hf0 & Hf2 & Hf3).
  apply returns_ret. unfold Block_state. simpl. auto 10.
Qed.

Lemma init_Block_state z bs C nh p b :
  Block_state z bs C nh p b -> returns (init_Block b) (Block_state true bs C nh p).
Proof.
  intros (Hl & Hh & Hp & Hd & Hf0 & Hf2 & Hf3 & H1 & H2).
  unfold init_Block, init_MultiHeadAttention, init_FeedForward.
  eapply returns_bind.
  { eapply returns_bind.
    - apply returns_mapM_Forall
        with (P := Head_state z bs C (C / nh) p) (Q := Head_state true bs C (C / nh) p);
        [exact Hh|]. intros h Hb. eapply init_Head_state. exact Hb.
    - intros hs' [Hl' Hh']. eapply returns_bind; [eapply init_Linear_state; exact Hp|].
      intros pr Hp'.
      apply returns_ret
        with (P := fun a => length (heads a) = nh
                            /\ Forall (Head_state true bs C (C / nh) p) (heads a)
                            /\ Linear_state true (C / nh * nh) C true (proj a)
                            /\ MHA_dropout a = mkDropout p).
      simpl. split; [lia|]. auto. }
  intros a (Hal & Hah & Hap & Had).
  eapply returns_bind.
  { eapply returns_bind; [eapply init_Linear_state; exact Hf0|]. intros f0 Hf0'.
    eapply returns_bind; [eapply init_Linear_state; exact Hf2|]. intros f2 Hf2'.
    apply returns_ret
      with (P := fun f => Linear_state true C (4 * C) true (net0 f)
                          /\ Linear_state true (4 * C) C true (net2 f)
                          /\ net3 f = mkDropout p).
    simpl. auto. }
  intros f (Hg0 & Hg2 & Hg3). apply returns_ret. unfold Block_state. simpl. auto 10.
Qed.

Lemma GPTLanguageModel_init_state bs C nh nl V p :
  0 < nh ->
  returns (GPTLanguageModel_init bs C nh nl V p) (GPT_initialised bs C nh nl V p).
Proof.
  intros Hnh. unfold GPTLanguageModel_init.
  eapply returns_bind; [apply Embedding_init_returns|]. intros te Hte.
  eapply returns_bind; [apply Embedding_init_returns|]. intros pe Hpe.
  eapply returns_bind; [apply returns_fillM; apply Block_init_state; exact Hnh|].
  intros bl [Hbl Hbb].
  eapply returns_bind; [apply Linear_init_state|]. intros lh Hlh.
  eapply returns_bind; [apply init_Embedding_returns; exact Hte|]. intros te' Hte'.
  eapply returns_bind; [apply init_Embedding_returns; exact Hpe|]. intros pe' Hpe'.
  eapply returns_bind.
  { apply returns_mapM_Forall
      with (P := Block_state false bs C nh p) (Q := Block_state true bs C nh p); [exact Hbb|].
    intros b Hb. eapply init_Block_state. exact Hb. }
  intros bl' [Hbl' Hbb'].
  eapply returns_bind; [eapply init_Linear_state; exact Hlh|]. intros lh' Hlh'.
  apply returns_ret. unfold GPT_initialised. simpl.
  split; [exact Hte'|]. split; [exact Hpe'|]. split; [lia|]. split; [exact Hbb'|].
  split; [reflexivity|exact Hlh'].
Qed.

(** X14.  For every head count [n_head >= 1], [GPTLanguageModel()] returns
    a model in the state [GPT_initialised]: after [_init_weights] every bias
    of a Linear module that has one (the output projection and the two
    feed-forward layers of every block, and [lm_head]) is all zeros; key,
    query and value have no bias; every LayerNorm is left at weight one, bias
    zero and eps 1e-5; every head holds the lower-triangular mask of size
    [block_size] and every Dropout the configured probability. *)
Theorem construction_zeroes_biases :
  forall bs C nh nl V p,
    0 < nh ->
    returns (GPTLanguageModel_init bs C nh nl V p)
      (fun m =>
         GPT_initialised bs C nh nl V p m
         /\ bias (lm_head m) = Some (repeat 0%R V)
         /\ ln_f m = mkLayerNorm C (repeat 1%R C) (repeat 0%R C) (/ 100000)%R
         /\ Forall (fun b =>
                      bias (proj (sa b)) = Some (repeat 0%R C)
                      /\ bias (net0 (ffwd b)) = Some (repeat 0%R (4 * C))
                      /\ bias (net2 (ffwd b)) = Some (repeat 0%R C)
                      /\ ln1 b = mkLayerNorm C (repeat 1%R C) (repeat 0%R C) (/ 100000)%R
                      /\ ln2 b = mkLayerNorm C (repeat 1%R C) (repeat 0%R C) (/ 100000)%R
                      /\ Forall (fun h => bias (key h) = None /\ bias (query h) = None
                                          /\ bias (value h) = None
                                          /\ tril h = torch_tril (ones bs bs)
                                          /\ Head_dropout h = mkDropout p)
                                (heads (sa b)))
                   (blocks m)).
Proof.
  intros bs C nh nl V p Hnh.
  eapply returns_weaken; [apply GPTLanguageModel_init_state; exact Hnh|].
  intros m Hm. split; [exact Hm|].
  destruct Hm as (_ & _ & _ & Hb & Hln & Hlh).
  split; [apply Hlh|]. split; [exact Hln|].
  eapply Forall_impl; [|exact Hb].
  intros b (_ & Hh & Hp & _ & Hf0 & Hf2 & _ & H1 & H2).
  split; [apply Hp|]. split; [apply Hf0|]. split; [apply Hf2|].
  split; [exact H1|]. split; [exact H2|].
  eapply Forall_impl; [|exact Hh].
  intros h (Hk & Hq & Hv & Ht & Hd).
  split; [apply Hk|]. split; [apply Hq|]. split; [apply Hv|]. split; assumption.
Qed.

Lemma construction_zeroes_biases_witness :
  returns (GPTLanguageModel_init Hyper.block_size Hyper.n_embd Hyper.n_head Hyper.n_layer 65
             Hyper.dropout)
    (fun m =>
       GPT_initialised Hyper.block_size Hyper.n_embd Hyper.n_head Hyper.n_layer 65
         Hyper.dropout m
       /\ bias (lm_head m) = Some (repeat 0%R 65)
       /\ ln_f m = mkLayerNorm Hyper.n_embd (repeat 1%R Hyper.n_embd)
                     (repeat 0%R Hyper.n_embd) (/ 100000)%R
       /\ Forall (fun b =>
                    bias (proj (sa b)) = Some (repeat 0%R Hyper.n_embd)
                    /\ bias (net0 (ffwd b)) = Some (repeat 0%R (4 * Hyper.n_embd))
                    /\ bias (net2 (ffwd b)) = Some (repeat 0%R Hyper.n_embd)
                    /\ ln1 b = mkLayerNorm Hyper.n_embd (repeat 1%R Hyper.n_embd)
                                 (repeat 0%R Hyper.n_embd) (/ 100000)%R
                    /\ ln2 b = mkLayerNorm Hyper.n_embd (repeat 1%R Hyper.n_embd)
                                 (repeat 0%R Hyper.n_embd) (/ 100000)%R
                    /\ Forall (fun h => bias (key h) = None /\ bias (query h) = None
                                        /\ bias (value h) = None
                                        /\ tril h = torch_tril (ones Hyper.block_size
                                                                     Hyper.block_size)
                                        /\ Head_dropout h = mkDropout Hyper.dropout)
                              (heads (sa b)))
                 (blocks m)).
Proof.
  apply (@construction_zeroes_biases Hyper.block_size Hyper.n_embd Hyper.n_head
           Hyper.n_layer 65 Hyper.dropout).
  unfold Hyper.n_head. lia.
Defined.

(** ** Counting the parameters *)

Lemma numel_shape r c (w : mat) : shape2 r c w -> numel w = r * c.
Proof.
  intros [Hl Hr]. subst r. unfold numel.
  induction Hr as [|v w Hv _ IH]; simpl; [reflexivity|]. rewrite IH, Hv. reflexivity.
Qed.

Lemma list_sum_const {A : Type} (f : A -> nat) k l :
  Forall (fun a => f a = k) l -> list_sum (map f l) = length l * k.
Proof.
  induction 1 as [|a l Ha _ IH]; simpl; [reflexivity|]. rewrite IH, Ha. reflexivity.
Qed.

Lemma Linear_parameters_state n_in n_out with_bias l :
  Linear_state true n_in n_out with_bias l ->
  Linear_parameters l = n_out * n_in + (if with_bias then n_out else 0).
Proof.
  intros [(_ & _ & Hw & _) Hb]. unfold Linear_parameters. rewrite (numel_shape Hw).
  destruct with_bias; rewrite Hb; [rewrite repeat_length|]; reflexivity.
Qed.

Lemma Block_parameters_state bs C nh p b :
  Block_state true bs C nh p b ->
  Block_parameters b
  = nh * (3 * (C / nh * C)) + (C * (C / nh * nh) + C)
    + (4 * C * C + 4 * C) + (C * (4 * C) + C) + 2 * C + 2 * C.
Proof.
  intros (Hl & Hh & Hp & _ & Hf0 & Hf2 & _ & H1 & H2).
  unfold Block_parameters, MultiHeadAttention_parameters, FeedForward_parameters,
    LayerNorm_parameters.
  rewrite (Linear_parameters_state Hp), (Linear_parameters_state Hf0),
    (Linear_parameters_state Hf2), H1, H2.
  rewrite (@list_sum_const _ Head_parameters (3 * (C / nh * C))).
  - rewrite Hl. simpl. rewrite !repeat_length. lia.
  - eapply Forall_impl; [|exact Hh]. intros h (Hk & Hq & Hv & _).
    unfold Head_parameters.
    rewrite (Linear_parameters_state Hk), (Linear_parameters_state Hq),
      (Linear_parameters_state Hv). lia.
Qed.

Lemma GPT_parameters_state bs C nh nl V p m :
  GPT_initialised bs C nh nl V p m ->
  Z.of_nat (GPT_parameters m) = expected_parameters bs C nh nl V.
Proof.
  intros ((_ & _ & Hte) & (_ & _ & Hpe) & Hl & Hb & Hln & Hlh).
  unfold GPT_parameters, Embedding_parameters, LayerNorm_parameters.
  rewrite (numel_shape Hte), (numel_shape Hpe), (Linear_parameters_state Hlh), Hln.
  rewrite (@list_sum_const _ Block_parameters
             (nh * (3 * (C / nh * C)) + (C * (C / nh * nh) + C)
              + (4 * C * C + 4 * C) + (C * (4 * C) + C) + 2 * C + 2 * C)).
  - rewrite Hl. simpl ln_weight. simpl ln_bias. rewrite !repeat_length.
    unfold expected_parameters. lia.
  - eapply Forall_impl; [|exact Hb]. intros b. apply Block_parameters_state.
Qed.

(** X15.  The number of parameters of the model [GPTLanguageModel()]
    returns is the closed form [expected_parameters] of the hyperparameters:
    the two embedding tables, per block the three bias-free projections of
    every head, the output projection, the two feed-forward layers and two
    LayerNorms, then the final LayerNorm and [lm_head]; the script prints it
    divided by 1e6.  At the script's values and 65 characters that is
    10788929. *)
Theorem parameter_count :
  forall bs C nh nl V p,
    0 < nh ->
    returns (GPTLanguageModel_init bs C nh nl V p)
      (fun m => Z.of_nat (GPT_parameters m) = expected_parameters bs C nh nl V
                /\ parameters_in_millions m
                   = (IZR (expected_parameters bs C nh nl V) / 1000000)%R)
    /\ expected_parameters Hyper.block_size Hyper.n_embd Hyper.n_head Hyper.n_layer 65
       = 10788929%Z.
Proof.
  intros bs C nh nl V p Hnh. split; [|reflexivity].
  eapply returns_weaken; [apply GPTLanguageModel_init_state; exact Hnh|].
  intros m Hm. pose proof (GPT_parameters_state Hm) as E. split; [exact E|].
  unfold parameters_in_millions. rewrite <- E, <- INR_IZR_INZ. reflexivity.
Qed.

Lemma parameter_count_witness :
  returns (GPTLanguageModel_init Hyper.block_size Hyper.n_embd Hyper.n_head Hyper.n_layer 65
             Hyper.dropout)
    (fun m => Z.of_nat (GPT_parameters m)
              = expected_parameters Hyper.block_size Hyper.n_embd Hyper.n_head
                  Hyper.n_layer 65
              /\ parameters_in_millions m
                 = (IZR (expected_parameters Hyper.block_size Hyper.n_embd Hyper.n_head
                           Hyper.n_layer 65) / 1000000)%R)
  /\ expected_parameters Hyper.block_size Hyper.n_embd Hyper.n_head Hyper.n_layer 65
     = 10788929%Z.
Proof.
  apply (@parameter_count Hyper.block_size Hyper.n_embd Hyper.n_head Hyper.n_layer 65
           Hyper.dropout).
  unfold Hyper.n_head. lia.
Defined.

(** ** Loss estimation *)

Lemma scalar_sum_nonneg (ls : list scalar) :
  Forall (fun l => exists r, l = Snum r /\ (0 <= r)%R) ls ->
  exists s, scalar_sum ls = Snum s /\ (0 <= s)%R.
Proof.
  induction 1 as [|l ls (r & -> & Hr) _ (s & Es & Hs)]; simpl.
  - exists 0%R. split; [reflexivity|lra].
  - rewrite Es. exists (r + s)%R. split; [reflexivity|lra].
Qed.

Lemma scalar_mean_nonneg (ls : list scalar) :
  ls <> [] ->
  Forall (fun l => exists r, l = Snum r /\ (0 <= r)%R) ls ->
  exists r, scalar_mean ls = Snum r /\ (0 <= r)%R.
Proof.
  intros Hne H. destruct (scalar_sum_nonneg H) as (s & Es & Hs).
  unfold scalar_mean. destruct ls as [|l ls]; [congruence|]. rewrite Es.
  eexists. split; [reflexivity|].
  apply Rmult_le_pos; [exact Hs|]. left. apply Rinv_0_lt_compat. apply lt_0_INR. simpl. lia.
Qed.

Section LossEstimation.

Variables batch_size block_size eval_eters : nat.
Variables train_data val_data : list nat.
Variables C V : nat.

Hypothesis batch_pos : 0 < batch_size.
Hypothesis block_pos : 0 < block_size.
Hypothesis train_long : block_size < length train_data.
Hypothesis val_long : block_size < length val_data.
Hypothesis train_tokens : Forall (fun t => t < V) train_data.
Hypothesis val_tokens : Forall (fun t => t < V) val_data.

Local Abbreviation batch := (get_batch batch_size block_size train_data val_data).

(** A batch and the loss of the model on it. *)
Lemma batch_loss_samples training m s :
  wf_GPT block_size C V m ->
  samples (xy <- batch s ;;
           out <- GPT_forward training m (fst xy) (Some (snd xy)) ;;
           ret (match snd out with Some l => l | None => Snan end))%gen
          (fun l => exists r, l = Snum r /\ (0 <= r)%R).
Proof.
  intros Hm.
  assert (Hlen : block_size < length (match s with train => train_data | val => val_data end))
    by (destruct s; assumption).
  assert (Htok : Forall (fun t => t < V) (match s with train => train_data | val => val_data end))
    by (destruct s; assumption).
  eapply samples_bind;
    [apply (@get_batch_tokens batch_size block_size train_data val_data s V
              batch_pos Hlen Htok)|].
  intros [x y] (Hx & Hy & Hview). simpl fst. simpl snd.
  eapply samples_bind.
  - apply samples_returns; [|apply advances_GPT_forward].
    apply (@forward_run_with_targets block_size C V training m batch_size block_size x y
             Hm Hx Hy Hview (le_n _)).
  - intros out (logits & loss & -> & _ & _ & Hnn). apply samples_ret. simpl.
    apply Hnn. nia.
Qed.

Lemma split_loss_samples (OptState : Type) (st : TrainState OptState) s :
  wf_GPT block_size C V (model st) -> 0 < eval_eters ->
  samples (split_loss batch_size block_size eval_eters train_data val_data st s)
          (fun l => exists r, l = Snum r /\ (0 <= r)%R).
Proof.
  intros Hm Hk. unfold split_loss.
  eapply samples_bind; [apply samples_fillM; apply batch_loss_samples; exact Hm|].
  intros ls [Hl Hls]. apply samples_ret. apply scalar_mean_nonneg; [|exact Hls].
  destruct ls; [simpl in Hl; lia|discriminate].
Qed.

Lemma estimate_loss_samples (OptState : Type) (st : TrainState OptState) :
  wf_GPT block_size C V (model st) -> 0 < eval_eters ->
  samples (estimate_loss batch_size block_size eval_eters train_data val_data st)
          (fun r => exists tl vl,
               r = (Snum tl, Snum vl, set_mode true st) /\ (0 <= tl)%R /\ (0 <= vl)%R).
Proof.
  intros Hm Hk. unfold estimate_loss.
  eapply samples_bind; [apply split_loss_samples; [exact Hm|exact Hk]|].
  intros tl (a & -> & Ha).
  eapply samples_bind; [apply split_loss_samples; [exact Hm|exact Hk]|].
  intros vl (b & -> & Hb).
  apply samples_ret. exists a, b. split; [reflexivity|]. split; assumption.
Qed.

End LossEstimation.

(** *** What loss estimation draws *)

Lemma draws_ret {A : Type} (a : A) : draws 0 (ret a).
Proof. intros g a' g' [= _ <-] n. reflexivity. Qed.

Lemma draws_lift {A : Type} (r : result A) : draws 0 (lift r).
Proof. intros g a g'. unfold lift. destruct r; [|discriminate]. intros [= _ <-] n. reflexivity. Qed.

Lemma draws_bind {A B : Type} k1 k2 (m : M A) (f : A -> M B) :
  draws k1 m -> (forall a, draws k2 (f a)) -> draws (k1 + k2) (bind m f).
Proof.
  intros Hm Hf g b g'. unfold bind. destruct (m g) as [[a g1]|e] eqn:E; [|discriminate].
  intros H n. rewrite (Hf a g1 b g' H), (Hm g a g1 E). f_equal. lia.
Qed.

Lemma draws_eq {A : Type} k k' (m : M A) : draws k m -> k = k' -> draws k' m.
Proof. intros H <-. exact H. Qed.

Lemma draws_mapM {A B : Type} k (f : A -> M B) l :
  (forall a, draws k (f a)) -> draws (length l * k) (mapM f l).
Proof.
  intros Hf. induction l as [|a l IH]; simpl.
  - apply draws_ret.
  - apply draws_bind; [apply Hf|]. intros b.
    eapply draws_eq; [apply draws_bind; [exact IH|intros bs; apply draws_ret]|lia].
Qed.

Lemma draws_foldM {A B : Type} (f : A -> B -> M A) l :
  (forall a b, draws 0 (f a b)) -> forall a, draws 0 (foldM f l a).
Proof.
  intros Hf. induction l as [|b l IH]; intros a; simpl.
  - apply draws_ret.
  - apply (@draws_bind _ _ 0 0); [apply Hf|]. exact IH.
Qed.

Ltac silent :=
  repeat first
    [ apply draws_ret | apply draws_lift
    | apply (@draws_bind _ _ 0 0); [|intros ?]
    | apply draws_foldM; intros ? ?
    | eapply draws_eq; [apply draws_mapM; intros ?|apply Nat.mul_0_r] ].

(** In eval mode the forward pass draws nothing. *)
Lemma draws_GPT_forward_eval m idx targets : draws 0 (GPT_forward false m idx targets).
Proof.
  unfold GPT_forward, Block_forward, MultiHeadAttention_forward, FeedForward_forward,
    Head_forward, Dropout_forward.
  silent. destruct targets; silent.
Qed.

Lemma draws_randint high : draws 1 (randint high).
Proof.
  unfold randint. destruct (high =? 0).
  - intros g a g' E. discriminate E.
  - intros g a g' [= _ <-] n. reflexivity.
Qed.

Lemma draws_get_batch batch_size block_size train_data val_data s :
  draws batch_size (get_batch batch_size block_size train_data val_data s).
Proof.
  unfold get_batch, fillM.
  eapply draws_eq.
  - apply draws_bind; [apply draws_mapM; intros ?; apply draws_randint|].
    intros ix. silent.
  - rewrite length_seq. lia.
Qed.

Lemma draws_estimate_loss batch_size block_size eval_eters train_data val_data
    (OptState : Type) (st : TrainState OptState) :
  draws (2 * eval_eters * batch_size)
        (estimate_loss batch_size block_size eval_eters train_data val_data st).
Proof.
  assert (Hs : forall s,
             draws (eval_eters * batch_size)
               (split_loss batch_size block_size eval_eters train_data val_data
                           (set_mode false st) s)).
  { intros s. unfold split_loss, fillM. eapply draws_eq.
    - apply draws_bind.
      + apply draws_mapM with (k := batch_size). intros _.
        eapply draws_eq.
        * apply draws_bind; [apply draws_get_batch|]. intros xy.
          apply (@draws_bind _ _ 0 0); [apply draws_GPT_forward_eval|].
          intros out. apply draws_ret.
        * lia.
      + intros ls. apply draws_ret.
    - rewrite length_seq. lia. }
  unfold estimate_loss. eapply draws_eq.
  - apply draws_bind; [apply Hs|]. intros tl.
    apply draws_bind; [apply Hs|]. intros vl. apply draws_ret.
  - lia.
Qed.

(** X16.  Loss estimation runs to the end, with dropout off, and restores
    training mode: on a well-formed model, with positive [batch_size],
    [block_size] and [eval_eters], both parts of the data longer than
    [block_size] and made of valid tokens, and a generator of uniform
    numbers, [estimate_loss] returns two non-negative numbers (the means over
    [eval_eters] batches of each part); it leaves parameters, optimizer state
    and output as they were, with the model in training mode whatever the
    mode before; and it has drawn exactly the [2 * eval_eters * batch_size]
    offsets of its batches, nothing for dropout. *)
Theorem estimate_loss_runs :
  forall batch_size block_size eval_eters train_data val_data C V
         (OptState : Type) (st : TrainState OptState) g,
    0 < batch_size -> 0 < block_size -> 0 < eval_eters ->
    block_size < length train_data -> block_size < length val_data ->
    Forall (fun t => t < V) train_data -> Forall (fun t => t < V) val_data ->
    wf_GPT block_size C V (model st) ->
    unit_draws g ->
    exists tl vl g',
      estimate_loss batch_size block_size eval_eters train_data val_data st g
      = Ok ((Snum tl, Snum vl,
             mkTrainState (model st) true (opt st) (stdout st) (steps st)), g')
      /\ (0 <= tl)%R /\ (0 <= vl)%R
      /\ (forall n, g' n = g (2 * eval_eters * batch_size + n)).
Proof.
  intros batch_size block_size eval_eters train_data val_data C V OptState st g
         HB Hbs Hk Htl Hvl Htt Hvt Hm Hg.
  destruct (@estimate_loss_samples batch_size block_size eval_eters train_data val_data C V
              HB Hbs Htl Hvl Htt Hvt OptState st Hm Hk g Hg)
    as (r & g' & E & (tl & vl & -> & Ha & Hb) & Hg').
  exists tl, vl, g'. split; [exact E|]. split; [exact Ha|]. split; [exact Hb|].
  exact (@draws_estimate_loss batch_size block_size eval_eters train_data val_data
           OptState st g _ g' E).
Qed.

Lemma estimate_loss_runs_witness :
  exists tl vl g',
    estimate_loss Hyper.batch_size Hyper.block_size Hyper.eval_eters
      (repeat 0 300) (repeat 0 300) (mkTrainState script_model false tt [] []) zero_gen
    = Ok ((Snum tl, Snum vl, mkTrainState script_model true tt [] []), g')
    /\ (0 <= tl)%R /\ (0 <= vl)%R
    /\ (forall n, g' n = zero_gen (2 * Hyper.eval_eters * Hyper.batch_size + n)).
Proof.
  apply (@estimate_loss_runs Hyper.batch_size Hyper.block_size Hyper.eval_eters
           (repeat 0 300) (repeat 0 300) Hyper.n_embd 65 unit
           (mkTrainState script_model false tt [] []) zero_gen).
  - unfold Hyper.batch_size. lia.
  - unfold Hyper.block_size. lia.
  - unfold Hyper.eval_eters. lia.
  - rewrite repeat_length. unfold Hyper.block_size. lia.
  - rewrite repeat_length. unfold Hyper.block_size. lia.
  - apply Forall_forall. intros t Ht. apply repeat_spec in Ht. lia.
  - apply Forall_forall. intros t Ht. apply repeat_spec in Ht. lia.
  - exact script_model_wf.
  - intros n. unfold zero_gen. lra.
Defined.

(** ** The training loop *)

Section TrainingRuns.

Variables batch_size block_size max_iters eval_interval eval_eters : nat.
Variables train_data val_data : list nat.
Variables C V : nat.
Variable OptState : Type.
Variable backward_and_step :
  GPTLanguageModel -> OptState -> LongTensor -> LongTensor -> generator ->
  GPTLanguageModel * OptState.

Hypothesis interval_nonzero : eval_interval <> 0.
Hypothesis batch_pos : 0 < batch_size.
Hypothesis block_pos : 0 < block_size.
Hypothesis eters_pos : 0 < eval_eters.
Hypothesis train_long : block_size < length train_data.
Hypothesis val_long : block_size < length val_data.
Hypothesis train_tokens : Forall (fun t => t < V) train_data.
Hypothesis val_tokens : Forall (fun t => t < V) val_data.

(** The optimizer changes the values of the parameters, not their shapes. *)
Hypothesis step_keeps_shapes :
  forall m o x y g,
    wf_GPT block_size C V m -> wf_GPT block_size C V (fst (backward_and_step m o x y g)).

Local Abbreviation iter_body :=
  (train_iter batch_size block_size max_iters eval_interval eval_eters
              train_data val_data backward_and_step).
Local Abbreviation loop_prefix :=
  (train_prefix batch_size block_size max_iters eval_interval eval_eters
                train_data val_data backward_and_step).
Local Abbreviation due := (eval_due max_iters eval_interval).

Lemma train_iter_samples (st : TrainState OptState) iter :
  wf_GPT block_size C V (model st) ->
  samples (iter_body st iter)
    (fun st' => wf_GPT block_size C V (model st')
                /\ (due iter = true -> training_mode st' = true)
                /\ (due iter = false -> st' = st)).
Proof.
  intros Hm. unfold train_iter.
  apply samples_bind with (P := fun r => r = iter mod eval_interval).
  { eapply samples_lift; [|reflexivity]. unfold pymod.
    destruct (Nat.eqb_spec eval_interval 0); [contradiction|reflexivity]. }
  intros r ->. unfold eval_due.
  destruct ((iter mod eval_interval =? 0) || (iter =? max_iters - 1)).
  - eapply samples_bind.
    { apply (@estimate_loss_samples batch_size block_size eval_eters train_data val_data C V
               batch_pos block_pos train_long val_long train_tokens val_tokens
               OptState st Hm eters_pos). }
    intros ls (tl & vl & -> & _ & _). simpl.
    eapply samples_bind.
    { apply (@get_batch_tokens batch_size block_size train_data val_data train V
               batch_pos train_long train_tokens). }
    intros [x y] (Hx & Hy & Hview). simpl fst. simpl snd.
    apply samples_bind with (P := fun _ => True).
    { intros g Hg. exists g, g. auto. }
    intros g0 _.
    eapply samples_bind.
    { apply samples_returns; [|apply advances_GPT_forward].
      apply (@forward_run_with_targets block_size C V true (model st) batch_size block_size
               x y Hm Hx Hy Hview (le_n _)). }
    intros out _. apply samples_ret. simpl.
    split; [apply step_keeps_shapes; exact Hm|]. split; [reflexivity|discriminate].
  - apply samples_ret. split; [exact Hm|]. split; [discriminate|reflexivity].
Qed.

Lemma train_prefix_samples n (st : TrainState OptState) :
  wf_GPT block_size C V (model st) ->
  samples (loop_prefix n st)
    (fun st' => wf_GPT block_size C V (model st')
                /\ (0 < n -> training_mode st' = true)).
Proof.
  intros Hm. induction n as [|n IH].
  - apply samples_ret. split; [exact Hm|lia].
  - intros g Hg. unfold train_prefix. rewrite seq_S, foldM_app.
    destruct (IH g Hg) as (st1 & g1 & E1 & [Hm1 Hmode1] & Hg1).
    unfold train_prefix in E1. unfold bind at 1. rewrite E1. simpl.
    destruct (@train_iter_samples st1 n Hm1 g1 Hg1) as (st2 & g2 & E2 & (Hm2 & Hd & Hnd) & Hg2).
    unfold bind. rewrite E2. exists st2, g2. split; [reflexivity|]. split; [|exact Hg2].
    split; [exact Hm2|]. intros _.
    destruct (due n) eqn:Edue.
    + apply Hd. reflexivity.
    + rewrite (Hnd eq_refl). apply Hmode1.
      destruct n as [|n']; [|lia].
      unfold eval_due in Edue. rewrite Nat.Div0.mod_0_l in Edue. discriminate.
Qed.

(** X17.  The training loop runs to the end: with [eval_interval] not zero,
    positive [batch_size], [block_size] and [eval_eters], both parts of the
    data longer than [block_size] and made of valid tokens, an optimizer that
    keeps the shapes of the parameters, a well-formed model and a generator
    of uniform numbers, the loop returns; the model is still well formed, the
    optimizer has stepped at the iterations that pass the test of the loop,
    and, if there was an iteration at all, the model is left in training
    mode, so the sample drawn afterwards goes through active dropout. *)
Theorem training_loop_runs :
  forall (st : TrainState OptState) g,
    wf_GPT block_size C V (model st) ->
    unit_draws g ->
    exists st' g',
      train_loop batch_size block_size max_iters eval_interval eval_eters
                 train_data val_data backward_and_step st g = Ok (st', g')
      /\ wf_GPT block_size C V (model st')
      /\ steps st' = steps st ++ filter due (seq 0 max_iters)
      /\ printed st' = printed st ++ filter due (seq 0 max_iters)
      /\ (0 < max_iters -> training_mode st' = true)
      /\ unit_draws g'.
Proof.
  intros st g Hm Hg.
  destruct (@train_prefix_samples max_iters st Hm g Hg) as (st' & g' & E & [Hm' Hmode] & Hg').
  exists st', g'. split; [exact E|].
  pose proof E as E'. apply train_prefix_Ok in E'. destruct E' as (Hs & Hp & _).
  split; [exact Hm'|]. split; [exact Hs|]. split; [exact Hp|]. split; assumption.
Qed.

End TrainingRuns.

Lemma training_loop_runs_witness :
  let st := mkTrainState script_model true tt [] [] in
  exists st' g',
    train_loop Hyper.batch_size Hyper.block_size Hyper.max_iters Hyper.eval_interval
               Hyper.eval_eters (repeat 0 300) (repeat 0 300)
               (fun m (o : unit) (_ _ : LongTensor) (_ : generator) => (m, o))
               st zero_gen = Ok (st', g')
    /\ wf_GPT Hyper.block_size Hyper.n_embd 65 (model st')
    /\ steps st' = steps st ++ filter (eval_due Hyper.max_iters Hyper.eval_interval)
                                      (seq 0 Hyper.max_iters)
    /\ printed st' = printed st ++ filter (eval_due Hyper.max_iters Hyper.eval_interval)
                                          (seq 0 Hyper.max_iters)
    /\ (0 < Hyper.max_iters -> training_mode st' = true)
    /\ unit_draws g'.
Proof.
  apply (@training_loop_runs Hyper.batch_size Hyper.block_size Hyper.max_iters
           Hyper.eval_interval Hyper.eval_eters (repeat 0 300) (repeat 0 300)
           Hyper.n_embd 65 unit
           (fun m (o : unit) (_ _ : LongTensor) (_ : generator) => (m, o))).
  - unfold Hyper.eval_interval. discriminate.
  - unfold Hyper.batch_size. lia.
  - unfold Hyper.block_size. lia.
  - unfold Hyper.eval_eters. lia.
  - rewrite repeat_length. unfold Hyper.block_size. lia.
  - rewrite repeat_length. unfold Hyper.block_size. lia.
  - apply Forall_forall. intros t Ht. apply repeat_spec in Ht. lia.
  - apply Forall_forall. intros t Ht. apply repeat_spec in Ht. lia.
  - intros m o x y g Hm. exact Hm.
  - exact script_model_wf.
  - intros n. unfold zero_gen. lra.
Defined.

(** ** The loop on the script's constants

    The statement of C9 at the script's hyperparameters, on data of 300
    tokens and a model of the script's shapes: iteration 0 passes the test,
    returns, and has stepped the optimizer and printed; iteration 1 fails
    the test and changes nothing; the whole loop returns, having stepped at
    11 of its 5000 iterations. *)
Lemma optimizer_steps_only_when_evaluating_witness :
  let data := repeat 0 300 in
  let step := fun m (o : unit) (_ _ : LongTensor) (_ : generator) => (m, o) in
  let body := train_iter Hyper.batch_size Hyper.block_size Hyper.max_iters
                Hyper.eval_interval Hyper.eval_eters data data step in
  let whole := train_loop Hyper.batch_size Hyper.block_size Hyper.max_iters
                 Hyper.eval_interval Hyper.eval_eters data data step in
  let due := eval_due Hyper.max_iters Hyper.eval_interval in
  let st := mkTrainState script_model true tt [] [] in
  due 0 = true
  /\ (exists st' g',
        body st 0 zero_gen = Ok (st', g') /\ steps st' = [0] /\ printed st' = [0])
  /\ due 1 = false
  /\ body st 1 zero_gen = Ok (st, zero_gen)
  /\ (exists st' g',
        whole st zero_gen = Ok (st', g')
        /\ steps st' = [0; 500; 1000; 1500; 2000; 2500; 3000; 3500; 4000; 4500; 4999]
        /\ printed st' = [0; 500; 1000; 1500; 2000; 2500; 3000; 3500; 4000; 4500; 4999]).
Proof.
  intros data step body whole due st.
  assert (Hi : Hyper.eval_interval <> 0) by (unfold Hyper.eval_interval; discriminate).
  assert (HB : 0 < Hyper.batch_size) by (unfold Hyper.batch_size; lia).
  assert (Hbs : 0 < Hyper.block_size) by (unfold Hyper.block_size; lia).
  assert (Hk : 0 < Hyper.eval_eters) by (unfold Hyper.eval_eters; lia).
  assert (Hlen : Hyper.block_size < length data)
    by (unfold data; rewrite repeat_length; unfold Hyper.block_size; lia).
  assert (Htok : Forall (fun t => t < 65) data)
    by (apply Forall_forall; intros t Ht; apply repeat_spec in Ht; lia).
  assert (Hstep : forall m (o : unit) (x y : LongTensor) (g : generator),
             wf_GPT Hyper.block_size Hyper.n_embd 65 m ->
             wf_GPT Hyper.block_size Hyper.n_embd 65 (fst (step m o x y g)))
    by (intros m o x y g Hm; exact Hm).
  assert (Hg : unit_draws zero_gen) by (intros n; unfold zero_gen; lra).
  pose proof (@optimizer_steps_only_when_evaluating Hyper.batch_size Hyper.block_size
                Hyper.max_iters Hyper.eval_interval Hyper.eval_eters data data unit step
                st 0 zero_gen Hi) as (_ & Hdue0 & _ & Hloop).
  pose proof (@optimizer_steps_only_when_evaluating Hyper.batch_size Hyper.block_size
                Hyper.max_iters Hyper.eval_interval Hyper.eval_eters data data unit step
                st 1 zero_gen Hi) as (Hskip1 & _).
  split; [reflexivity|]. split; [|split; [reflexivity|split]].
  - destruct (@train_iter_samples Hyper.batch_size Hyper.block_size Hyper.max_iters
                Hyper.eval_interval Hyper.eval_eters data data Hyper.n_embd 65 unit step
                Hi HB Hbs Hk Hlen Hlen Htok Htok Hstep st 0 script_model_wf zero_gen Hg)
      as (st' & g' & E & _).
    exists st', g'. split; [exact E|].
    destruct (Hdue0 st' g' E) as (Hs & Hp & _). split; assumption.
  - apply Hskip1. reflexivity.
  - destruct (@train_prefix_samples Hyper.batch_size Hyper.block_size Hyper.max_iters
                Hyper.eval_interval Hyper.eval_eters data data Hyper.n_embd 65 unit step
                Hi HB Hbs Hk Hlen Hlen Htok Htok Hstep Hyper.max_iters st script_model_wf
                zero_gen Hg)
      as (st' & g' & E & _).
    exists st', g'. split; [exact E|].
    destruct (Hloop st' g' E) as (Hs & Hp).
    rewrite script_eval_due_iterations in Hs, Hp. split; assumption.
Defined.

(** X18.  With [eval_interval = 0] the loop cannot take a step: the test
    [iter % eval_interval] of its first iteration raises ZeroDivisionError,
    before any batch is drawn; with no iteration at all the loop returns the
    state it was given. *)
Theorem training_loop_zero_interval :
  forall batch_size block_size max_iters eval_eters train_data val_data
         (OptState : Type)
         (backward_and_step : GPTLanguageModel -> OptState -> LongTensor -> LongTensor ->
                              generator -> GPTLanguageModel * OptState)
         (st : TrainState OptState) g,
    (0 < max_iters ->
       train_loop batch_size block_size max_iters 0 eval_eters train_data val_data
                  backward_and_step st g = Err ZeroDivisionError)
    /\ train_loop batch_size block_size 0 0 eval_eters train_data val_data
                  backward_and_step st g = Ok (st, g).
Proof.
  intros. split; [|reflexivity].
  intros H. unfold train_loop. destruct max_iters as [|n]; [lia|]. reflexivity.
Qed.

(** ** The sample the script prints *)

Lemma vocab_size_pos text : text <> [] -> 0 < vocab_size text.
Proof.
  intros H. destruct text as [|c text]; [congruence|].
  assert (Hin : In c (chars (c :: text))) by (apply chars_In; left; reflexivity).
  unfold vocab_size. destruct (chars (c :: text)); [contradiction|simpl; lia].
Qed.

(** X19.  The last line of the script never meets a KeyError: for a
    non-empty corpus, a well-formed model over its vocabulary and a positive
    [block_size], generating [max_new_tokens] tokens from the context
    [[0]] and decoding them returns, in both modes and from every generator
    state, a string of [1 + max_new_tokens] characters of the corpus, whose
    first character is the smallest character of the corpus (the one with
    id 0). *)
Theorem sample_decodes :
  forall bs C training m text max_new_tokens,
    text <> [] -> 0 < bs ->
    wf_GPT bs C (vocab_size text) m ->
    returns (sample bs training m text max_new_tokens)
      (fun printed_text =>
         exists s, printed_text = Some s
                   /\ length s = 1 + max_new_tokens
                   /\ Forall (fun c => In c text) s
                   /\ nth_error s 0 = nth_error (chars text) 0
                   /\ (forall c, In c text -> nth 0 s 0 <= c)).
Proof.
  intros bs C training m text n Hne Hbs Hm. unfold sample.
  pose proof (vocab_size_pos Hne) as HV.
  eapply returns_bind.
  { apply (@generate_returns bs C (vocab_size text) training m 1 Hm Hbs n 1 (zero_batch 1 1)).
    - apply zero_batch_tokens. exact HV.
    - lia. }
  intros out (_ & (_ & _ & [Hl Hr] & Hv) & Hpre).
  destruct (elems out) as [|r rest]; [simpl in Hl; lia|].
  destruct rest; [|simpl in Hl; lia].
  apply Forall_inv in Hr. apply Forall_inv in Hv.
  simpl in Hpre. inversion Hpre as [|? ? ? ? Hr0 _]; subst.
  destruct (@decode_then_encode text r Hv) as (s & Ds & Hlen & Hs & _).
  apply returns_bind with (P := fun row => row = r);
    [eapply returns_lift; reflexivity|].
  intros row ->. apply returns_ret. exists s. split; [exact Ds|].
  split; [lia|]. split; [exact Hs|].
  destruct r as [|t r']; [simpl in Hr; lia|]. injection Hr0 as ->.
  unfold decode in Ds. simpl in Ds.
  destruct (dict_get (itos text) 0) as [c|] eqn:Ec; [|discriminate].
  destruct (mapO (dict_get (itos text)) r') as [s'|]; [|discriminate].
  injection Ds as <-. apply itos_get in Ec. simpl. split; [symmetry; exact Ec|].
  intros c' Hc'. apply chars_In in Hc'. apply In_nth_error in Hc'. destruct Hc' as [i Hi].
  destruct i as [|i]; [rewrite Ec in Hi; injection Hi as ->; lia|].
  pose proof (@increasing_nth (chars text) (chars_increasing text) 0 (S i) c c'
                ltac:(lia) Ec Hi). lia.
Qed.

Lemma sample_decodes_witness :
  returns (sample Hyper.block_size true
             (zero_GPT Hyper.block_size Hyper.n_embd Hyper.n_head Hyper.n_layer
                       (vocab_size [104; 101; 108; 108; 111]))
             [104; 101; 108; 108; 111] 500)
    (fun printed_text =>
       exists s, printed_text = Some s
                 /\ length s = 1 + 500
                 /\ Forall (fun c => In c [104; 101; 108; 108; 111]) s
                 /\ nth_error s 0 = nth_error (chars [104; 101; 108; 108; 111]) 0
                 /\ (forall c, In c [104; 101; 108; 108; 111] -> nth 0 s 0 <= c)).
Proof.
  apply (@sample_decodes Hyper.block_size Hyper.n_embd).
  - discriminate.
  - unfold Hyper.block_size. lia.
  - apply zero_GPT_wf; unfold Hyper.n_head, Hyper.n_embd; lia.
Defined.

(** ** More heads than channels *)

Lemma Head_forward_zero_size C training h B T x g :
  wf_Linear C 0 (key h) -> wf_Linear C 0 (query h) -> shape3 B T C x ->
  Head_forward training h x g = Err ZeroDivisionError.
Proof.
  intros Hk Hq Hx. unfold Head_forward, Head_wei, Head_masked.
  destruct (Linear_forward_Ok Hk Hx) as [-> HK].
  destruct (Linear_forward_Ok Hq Hx) as [-> HQ]. simpl.
  assert (Ebmm : exists qk, bmm (map (map (Linear_row (query h))) x)
                                (map transpose (map (map (Linear_row (key h))) x)) = Ok qk).
  { unfold bmm. rewrite !length_map, Nat.eqb_refl. rewrite (map_map _ transpose).
    eexists. apply mapR_combine_maps with (k := fun xb => map (fun _ => []) xb).
    intros xb Hin. simpl.
    destruct Hx as [_ Hx]. rewrite Forall_forall in Hx. specialize (Hx xb Hin).
    assert (Hkz : forall v, Linear_row (key h) v = [])
      by (intros v; apply length_zero_iff_nil; eapply Linear_row_length; exact Hk).
    assert (Hqz : forall v, Linear_row (query h) v = [])
      by (intros v; apply length_zero_iff_nil; eapply Linear_row_length; exact Hq).
    assert (Et : transpose (map (Linear_row (key h)) xb) = []).
    { unfold transpose, ncols. destruct xb as [|v xb']; [reflexivity|].
      simpl. rewrite Hkz. reflexivity. }
    rewrite Et. unfold matmul. simpl length.
    replace (all_len 0 (map (Linear_row (query h)) xb)) with true.
    - rewrite map_map. reflexivity.
    - symmetry. apply all_len_iff. apply Forall_map. apply Forall_forall.
      intros v _. rewrite Hqz. reflexivity. }
  destruct Ebmm as [qk ->]. simpl.
  assert (Eout : out_features (key h) = 0) by apply Hk.
  unfold pow_neg_half. rewrite Eout. reflexivity.
Qed.

Lemma Block_forward_zero_size bs C nh training b B T x g :
  C < nh -> Block_built bs C nh b -> shape3 B T C x ->
  Block_forward training b x g = Err ZeroDivisionError.
Proof.
  intros Hlt (Hl & Hh & _ & _ & Hln & _) Hx. unfold Block_forward.
  destruct (LayerNorm_forward_Ok Hln Hx) as [E Hn]. unfold bind at 1. rewrite E. simpl.
  unfold bind at 1. unfold MultiHeadAttention_forward.
  destruct (heads (sa b)) as [|h hs]; [simpl in Hl; lia|].
  apply Forall_inv in Hh. destruct Hh as (Hk & _ & Hq & _).
  rewrite (Nat.div_small C nh Hlt) in Hk, Hq.
  simpl mapM. unfold bind.
  rewrite (Head_forward_zero_size training h g Hk Hq Hn). reflexivity.
Qed.

(** X20.  With more heads than channels ([n_head > n_embd]) the head size
    [n_embd // n_head] is zero: construction still returns a model, and every
    forward pass of it on a valid batch no longer than [block_size] raises
    ZeroDivisionError (at [k.shape[-1] ** -0.5]) as soon as there is a
    block, in both modes, with or without targets. *)
Theorem more_heads_than_channels :
  forall bs C nh nl V p,
    C < nh -> 0 < nl ->
    returns (GPTLanguageModel_init bs C nh nl V p)
      (fun m => GPT_built bs C nh nl V m
                /\ forall training B T idx targets g,
                     token_batch V B T idx -> T <= bs ->
                     GPT_forward training m idx targets g = Err ZeroDivisionError).
Proof.
  intros bs C nh nl V p Hlt Hnl.
  eapply returns_weaken; [apply GPTLanguageModel_init_returns; lia|].
  intros m Hm. split; [exact Hm|].
  destruct Hm as (Hte & Hpe & Hbl & Hbb & _).
  intros training B T idx targets g (H0 & H1 & Hsh & Hv) HT.
  destruct (token_embedding_Ok Hte Hsh Hv) as [Et Hst].
  destruct (position_embedding_Ok Hpe HT) as [Ep Hsp].
  destruct (add_bcast_Ok Hst Hsp) as [Ea Hsa].
  unfold GPT_forward. rewrite H1.
  unfold bind at 1. rewrite Et. simpl. unfold bind at 1. rewrite Ep. simpl.
  unfold bind at 1. rewrite Ea. simpl. unfold bind at 1.
  destruct (blocks m) as [|b bl]; [simpl in Hbl; lia|].
  apply Forall_inv in Hbb. simpl foldM. unfold bind at 1.
  rewrite (Block_forward_zero_size training g Hlt Hbb Hsa). reflexivity.
Qed.

Lemma more_heads_than_channels_witness :
  returns (GPTLanguageModel_init Hyper.block_size 4 Hyper.n_head Hyper.n_layer 65
             Hyper.dropout)
    (fun m => GPT_built Hyper.block_size 4 Hyper.n_head Hyper.n_layer 65 m
              /\ forall training B T idx targets g,
                   token_batch 65 B T idx -> T <= Hyper.block_size ->
                   GPT_forward training m idx targets g = Err ZeroDivisionError).
Proof.
  apply more_heads_than_channels.
  - unfold Hyper.n_head. lia.
  - unfold Hyper.n_layer. lia.
Defined.

(** ** The output of a head as an average of the values it may see *)

Lemma dot_between lo hi (w v : vec) :
  length w = length v ->
  Forall (fun a => (0 <= a)%R) w ->
  Forall (fun a => (lo <= a <= hi)%R) v ->
  (lo * rsum w <= dot w v <= hi * rsum w)%R.
Proof.
  revert v. induction w as [|a w IH]; intros [|b v] Hl Hw Hv; simpl in Hl; try discriminate.
  - unfold dot, map2. simpl. lra.
  - rewrite dot_cons. simpl rsum.
    pose proof (Forall_inv Hw) as Ha. pose proof (Forall_inv Hv) as Hb.
    destruct (IH v ltac:(lia) (Forall_inv_tail Hw) (Forall_inv_tail Hv)) as [I1 I2].
    split; nra.
Qed.

Lemma attn_row_between bs C hs h (qi : vec) (ks vs : mat) c lo hi :
  wf_Head bs C hs h -> ks <> [] -> length ks = length vs -> c < hs ->
  Forall (fun v => (lo <= nth c v 0 <= hi)%R) vs ->
  (lo <= nth c (attn_row h qi ks vs) 0 <= hi)%R.
Proof.
  intros (_ & _ & _ & _ & Hv & _) Hne Hl Hc Hb. unfold attn_row.
  assert (Eout : out_features (value h) = hs) by apply Hv. rewrite Eout.
  rewrite (@nth_map_in _ _ _ (seq 0 hs) c 0 0%R) by (rewrite length_seq; exact Hc).
  rewrite seq_nth by exact Hc. simpl Nat.add.
  set (scores := map (fun kj => dot qi kj * head_scale h)%R ks).
  assert (Es : map (fun kj => Finite (dot qi kj * head_scale h)) ks = map Finite scores)
    by (unfold scores; rewrite map_map; reflexivity).
  rewrite Es.
  assert (Hsne : scores <> []) by (unfold scores; destruct ks; [congruence|discriminate]).
  pose proof (softmax_finite_pos Hsne) as Hpos.
  assert (Hsum : rsum (softmax (map Finite scores)) = 1%R).
  { apply softmax_sum_one. destruct scores as [|s0 scores']; [congruence|].
    exists 0, s0. reflexivity. }
  destruct (@dot_between lo hi (softmax (map Finite scores)) (col c vs)) as [I1 I2].
  - rewrite softmax_length, col_length. unfold scores. rewrite !length_map. exact Hl.
  - eapply Forall_impl; [|exact Hpos]. simpl. intros a Ha. lra.
  - unfold col. apply Forall_map. exact Hb.
  - rewrite Hsum in I1, I2. lra.
Qed.

Lemma head_eval_between bs C hs h B T (x : tensor3) b i c lo hi :
  wf_Head bs C hs h -> shape3 B T C x ->
  b < B -> i < T -> c < hs ->
  (forall j, j <= i ->
     (lo <= nth c (Linear_row (value h) (nth j (nth b x []) [])) 0 <= hi)%R) ->
  (lo <= at3 (map (head_eval h) x) b i c <= hi)%R.
Proof.
  intros Hh [Hl Hx] Hb Hi Hc Hval.
  assert (Hxb : shape2 T C (nth b x [])) by (apply Forall_nth_in; [exact Hx|lia]).
  destruct Hxb as [Hlb _].
  unfold at3, at2.
  rewrite (@nth_map_in _ _ (head_eval h) x b [] []) by lia.
  rewrite head_eval_rows.
  rewrite (@mapi_nth _ _ _ (map (Linear_row (query h)) (nth b x [])) i [] [])
    by (rewrite length_map; lia).
  apply (@attn_row_between bs C hs h); [exact Hh| | |exact Hc|].
  - intros Hnil. apply (f_equal (@length vec)) in Hnil.
    rewrite length_firstn, length_map, Hlb in Hnil.
    change (length (@nil vec)) with 0 in Hnil. lia.
  - rewrite !length_firstn, !length_map. reflexivity.
  - apply Forall_forall. intros v Hv. apply (In_nth _ _ []) in Hv.
    destruct Hv as (j & Hj & <-). rewrite length_firstn, length_map in Hj.
    rewrite nth_firstn. destruct (Nat.ltb_spec j (S i)); [|lia].
    rewrite (@nth_map_in _ _ (Linear_row (value h)) (nth b x []) j [] []) by lia.
    apply Hval. lia.
Qed.

(** X21.  With dropout off, what a head returns at a position is an
    average of the value vectors of that position and the earlier ones: on a
    context no longer than [block_size], if channel [c] of the values of
    positions [0..i] lies between [lo] and [hi], so does channel [c] of the
    output at position [i]; and at position 0 the output is the value of
    position 0. *)
Theorem head_output_averages_visible_values :
  forall bs C hs h B T x g b i c lo hi,
    wf_Head bs C hs h -> shape3 B T C x -> T <= bs ->
    b < B -> i < T -> c < hs ->
    (forall j, j <= i ->
       (lo <= nth c (Linear_row (value h) (nth j (nth b x []) [])) 0 <= hi)%R) ->
    exists out,
      Head_forward false h x g = Ok (out, g)
      /\ (lo <= at3 out b i c <= hi)%R
      /\ at3 out b 0 c = nth c (Linear_row (value h) (nth 0 (nth b x []) [])) 0%R.
Proof.
  intros bs C hs h B T x g b i c lo hi Hh Hx HT Hb Hi Hc Hval.
  destruct (Head_forward_eval g Hh Hx HT) as [E _].
  exists (map (head_eval h) x). split; [exact E|]. split.
  - eapply head_eval_between; eassumption.
  - assert (H0 : 0 < T) by lia.
    pose proof (@head_eval_between bs C hs h B T x b 0 c
                  (nth c (Linear_row (value h) (nth 0 (nth b x []) [])) 0%R)
                  (nth c (Linear_row (value h) (nth 0 (nth b x []) [])) 0%R)
                  Hh Hx Hb H0 Hc) as Hb0.
    assert (Hj : forall j, j <= 0 ->
               (nth c (Linear_row (value h) (nth 0 (nth b x []) [])) 0
                <= nth c (Linear_row (value h) (nth j (nth b x []) [])) 0
                <= nth c (Linear_row (value h) (nth 0 (nth b x []) [])) 0)%R).
    { intros j Hj. replace j with 0 by lia. lra. }
    specialize (Hb0 Hj). lra.
Qed.

Lemma head_output_averages_visible_values_witness :
  let x := [[[1; 2; 3; 4]; [5; 6; 7; 8]]]%R in
  exists out,
    Head_forward false (zero_Head 8 4 2) x zero_gen = Ok (out, zero_gen)
    /\ (0 <= at3 out 0 1 0 <= 0)%R
    /\ at3 out 0 0 0
       = nth 0 (Linear_row (value (zero_Head 8 4 2)) (nth 0 (nth 0 x []) [])) 0%R.
Proof.
  apply (@head_output_averages_visible_values 8 4 2 (zero_Head 8 4 2) 1 2
           [[[1; 2; 3; 4]; [5; 6; 7; 8]]]%R zero_gen 0 1 0 0%R 0%R).
  - apply zero_Head_wf. lia.
  - split; [reflexivity|]. constructor; [|constructor].
    split; [reflexivity|]. repeat constructor.
  - lia.
  - lia.
  - lia.
  - lia.
  - intros j Hj.
    assert (E : forall v, nth 0 (Linear_row (value (zero_Head 8 4 2)) v) 0%R = 0%R).
    { intros v. unfold Linear_row, zero_Head, zero_Linear. simpl.
      unfold dot, map2. destruct v as [|a [|b0 [|c0 [|d0 l']]]]; simpl; lra. }
    rewrite E. lra.
Defined.
